(** * ascii-banner: the canvas glyph engine of [src/scripts/ascii-banner.ts]

    A shallow embedding of the [AsciiBanner] custom element: the grid
    builder, the morph controller, the pointer physics, the frame loop and
    the cycle scheduler, followed by the properties of the specification.

    Conventions of the embedding.
    - A JavaScript [number] that carries a coordinate, a time stamp, a
      progress fraction or a threshold is a real number ([R]); [Math.sin]
      and [Math.sqrt] are [sin] and [sqrt].  Rounding of IEEE doubles is
      not modelled in the engine; where a property depends on it (the
      bounds of the thresholds) the sine is a parameter, and [sin53] is the
      sine rounded to 53 bits.
    - Pause durations and timer delays are integers of milliseconds ([Z]):
      the code only ever adds 1000 and takes a minimum with 10000.
    - Array indices, rows and columns are [nat].
    - A JavaScript string is the list of its UTF-16 code units.
    - [Math.random] is a stream [random : nat -> R]; the instance counts the
      draws it has made.
    - The host (timers, animation frames, canvas) is an explicit part of the
      state: the pending timers, the pending frame requests, and a log of
      the effects performed so far.
    - An instance is attached once ([boot], or [attach] from the
      [data-arts] attribute, through [JSON.parse]) and then receives events
      ([run]); a pending timer may fire at any later moment.
    - [devicePixelRatio] is a parameter of every handler, as each reads the
      global when it runs: [run] handles all events at one ratio,
      [run_zoom] pairs each event with the ratio in force.
    - Left out, as nothing below depends on it: the colour and font set on
      the drawing context, [ctx.scale]. *)

From Stdlib Require Import String Ascii.
From Stdlib Require Import List ZArith NArith Reals Machin Lra Lia Bool Arith.
Import ListNotations.

Set Implicit Arguments.

(** ** JavaScript strings *)

Module JS.

Definition code_unit := N.
Definition jsstring := list code_unit.

(** A string literal with characters below 256. *)
Definition lit (s : string) : jsstring :=
  map N_of_ascii (list_ascii_of_string s).

Definition LF : code_unit := 10%N.
Definition blank : jsstring := [32%N].

Definition jsstring_eqb (a b : jsstring) : bool :=
  if list_eq_dec N.eq_dec a b then true else false.

(** [s.split('\n')]: never empty; a string without line feed is one line. *)
Fixpoint split_nl (s : jsstring) : list jsstring :=
  match s with
  | [] => [[]]
  | c :: s' =>
      if N.eqb c LF then [] :: split_nl s'
      else match split_nl s' with
           | l :: ls => (c :: l) :: ls
           | [] => [[c]]
           end
  end.

Definition is_lead (c : code_unit) : bool :=
  (N.leb 55296 c && N.leb c 56319)%bool.
Definition is_trail (c : code_unit) : bool :=
  (N.leb 56320 c && N.leb c 57343)%bool.

(** [Array.from(s)]: the string iterator yields code points, so a lead
    surrogate followed by a trail surrogate is one element. *)
Fixpoint array_from (s : jsstring) : list jsstring :=
  match s with
  | [] => []
  | c :: s' =>
      match s' with
      | d :: s'' =>
          if (is_lead c && is_trail d)%bool
          then [c; d] :: array_from s''
          else [c] :: array_from s'
      | [] => [[c]]
      end
  end.

(** [xs.forEach((x, i) => ...)] as a fold that threads what the callback
    mutates. *)
Fixpoint forEach_from {A St : Type} (f : A -> nat -> St -> St)
         (i : nat) (l : list A) (s : St) : St :=
  match l with
  | [] => s
  | x :: l' => forEach_from f (S i) l' (f x i s)
  end.

Definition forEach {A St : Type} (f : A -> nat -> St -> St) (l : list A) (s : St) : St :=
  forEach_from f 0 l s.

(** [xs.map((x, i) => ...)]. *)
Fixpoint mapi_from {A B : Type} (f : A -> nat -> B) (i : nat) (l : list A) : list B :=
  match l with
  | [] => []
  | x :: l' => f x i :: mapi_from f (S i) l'
  end.

Definition mapi {A B : Type} (f : A -> nat -> B) (l : list A) : list B :=
  mapi_from f 0 l.

(** [Math.max(...ns)] on lengths (all at least 0, list never empty here). *)
Definition max_of (ns : list nat) : nat := fold_right Nat.max 0%nat ns.

End JS.
Import JS.

Open Scope R_scope.

(** ** Constants and the cell record *)

Definition FONT_SIZE : R := 14.
Definition LINE_HEIGHT : R := 18.

Record Cell : Type := mkCell {
  char : jsstring;
  row : nat;
  col : nat;
  rx : R;
  ry : R;
  px : R;
  py : R;
  vx : R;
  vy : R
}.

(** ** Grid builder *)

(** The object literal pushed by [buildGrid]. *)
Definition restCell (charWidth : R) (ch : jsstring) (r c : nat) : Cell :=
  let x := INR c * charWidth in
  let y := INR r * LINE_HEIGHT + FONT_SIZE in
  {| char := ch; row := r; col := c; rx := x; ry := y;
     px := x; py := y; vx := 0; vy := 0 |}.

Definition buildGrid (charWidth : R) (art : jsstring) : list Cell :=
  forEach
    (fun line r cells =>
       forEach
         (fun ch c cells => cells ++ [restCell charWidth ch r c])
         (array_from line) cells)
    (split_nl art) [].

(** [Math.max(...lines.map((l) => l.length))] of [initCanvas]. *)
Definition maxCols (art : jsstring) : nat :=
  max_of (map (@length code_unit) (split_nl art)).

(** ** Instance state *)

(** The only completion callback the code ever passes to [startMorph] is the
    arrow function of [cycle], a closure over [nextIndex]. *)
Inductive callback : Type :=
| CycleDone (nextIndex : nat).

Record Morph : Type := mkMorph {
  active : bool;
  startTime : R;
  duration : R;
  fromSnap : list Cell;
  toLines : list (list jsstring);
  thresholds : list R;
  onComplete : option callback
}.

(** ** The host: timers, animation frames, canvas, effect log *)

Inductive timer_callback : Type :=
| CallScheduleCycle   (* [() => this.scheduleCycle()] of [connectedCallback] *)
| CallCycle.          (* [() => this.cycle()] of [scheduleCycle] *)

Record Timer : Type := mkTimer {
  handle : nat;
  delay : Z;
  action : timer_callback
}.

Inductive effect : Type :=
| SetTimeout (h : nat) (cb : timer_callback) (ms : Z)
| ClearTimeout (h : nat)
| RequestAnimationFrame (h : nat)
| CancelAnimationFrame (h : nat)
| PerformanceNow (t : R)
| Invoke (cb : callback)
| ClearRect (w h : R)
| FillText (ch : jsstring) (x y : R).

Record Host : Type := mkHost {
  timers : list Timer;        (* pending timeouts, oldest first *)
  frames : list nat;          (* pending animation frame requests *)
  nextTimer : nat;            (* next timeout handle *)
  nextFrame : nat;            (* next frame request handle *)
  draws : nat;                (* calls of Math.random so far *)
  listening : bool;           (* the three mouse listeners are registered *)
  canvasW : R;                (* canvas.width *)
  canvasH : R;                (* canvas.height *)
  log : list effect           (* effects performed, newest first *)
}.

Record Banner : Type := mkBanner {
  cells : list Cell;
  fontArts : list jsstring;
  charWidth : R;
  rafId : nat;
  morph : Morph;
  currentTextIndex : nat;
  nextPause : Z;
  cycleTimer : nat;
  isMorphing : bool;
  mouseX : R;
  mouseY : R;
  hovering : bool;
  host : Host
}.

(** Field updates. *)
Definition set_cells v s := mkBanner v (fontArts s) (charWidth s) (rafId s) (morph s) (currentTextIndex s) (nextPause s) (cycleTimer s) (isMorphing s) (mouseX s) (mouseY s) (hovering s) (host s).
Definition set_fontArts v s := mkBanner (cells s) v (charWidth s) (rafId s) (morph s) (currentTextIndex s) (nextPause s) (cycleTimer s) (isMorphing s) (mouseX s) (mouseY s) (hovering s) (host s).
Definition set_charWidth v s := mkBanner (cells s) (fontArts s) v (rafId s) (morph s) (currentTextIndex s) (nextPause s) (cycleTimer s) (isMorphing s) (mouseX s) (mouseY s) (hovering s) (host s).
Definition set_rafId v s := mkBanner (cells s) (fontArts s) (charWidth s) v (morph s) (currentTextIndex s) (nextPause s) (cycleTimer s) (isMorphing s) (mouseX s) (mouseY s) (hovering s) (host s).
Definition set_morph v s := mkBanner (cells s) (fontArts s) (charWidth s) (rafId s) v (currentTextIndex s) (nextPause s) (cycleTimer s) (isMorphing s) (mouseX s) (mouseY s) (hovering s) (host s).
Definition set_currentTextIndex v s := mkBanner (cells s) (fontArts s) (charWidth s) (rafId s) (morph s) v (nextPause s) (cycleTimer s) (isMorphing s) (mouseX s) (mouseY s) (hovering s) (host s).
Definition set_nextPause v s := mkBanner (cells s) (fontArts s) (charWidth s) (rafId s) (morph s) (currentTextIndex s) v (cycleTimer s) (isMorphing s) (mouseX s) (mouseY s) (hovering s) (host s).
Definition set_cycleTimer v s := mkBanner (cells s) (fontArts s) (charWidth s) (rafId s) (morph s) (currentTextIndex s) (nextPause s) v (isMorphing s) (mouseX s) (mouseY s) (hovering s) (host s).
Definition set_isMorphing v s := mkBanner (cells s) (fontArts s) (charWidth s) (rafId s) (morph s) (currentTextIndex s) (nextPause s) (cycleTimer s) v (mouseX s) (mouseY s) (hovering s) (host s).
Definition set_mouse x y s := mkBanner (cells s) (fontArts s) (charWidth s) (rafId s) (morph s) (currentTextIndex s) (nextPause s) (cycleTimer s) (isMorphing s) x y (hovering s) (host s).
Definition set_hovering v s := mkBanner (cells s) (fontArts s) (charWidth s) (rafId s) (morph s) (currentTextIndex s) (nextPause s) (cycleTimer s) (isMorphing s) (mouseX s) (mouseY s) v (host s).
Definition set_host v s := mkBanner (cells s) (fontArts s) (charWidth s) (rafId s) (morph s) (currentTextIndex s) (nextPause s) (cycleTimer s) (isMorphing s) (mouseX s) (mouseY s) (hovering s) v.

Definition set_timers v h := mkHost v (frames h) (nextTimer h) (nextFrame h) (draws h) (listening h) (canvasW h) (canvasH h) (log h).
Definition set_frames v h := mkHost (timers h) v (nextTimer h) (nextFrame h) (draws h) (listening h) (canvasW h) (canvasH h) (log h).
Definition set_nextTimer v h := mkHost (timers h) (frames h) v (nextFrame h) (draws h) (listening h) (canvasW h) (canvasH h) (log h).
Definition set_nextFrame v h := mkHost (timers h) (frames h) (nextTimer h) v (draws h) (listening h) (canvasW h) (canvasH h) (log h).
Definition set_draws v h := mkHost (timers h) (frames h) (nextTimer h) (nextFrame h) v (listening h) (canvasW h) (canvasH h) (log h).
Definition set_listening v h := mkHost (timers h) (frames h) (nextTimer h) (nextFrame h) (draws h) v (canvasW h) (canvasH h) (log h).
Definition set_canvas w h' h := mkHost (timers h) (frames h) (nextTimer h) (nextFrame h) (draws h) (listening h) w h' (log h).
Definition set_log v h := mkHost (timers h) (frames h) (nextTimer h) (nextFrame h) (draws h) (listening h) (canvasW h) (canvasH h) v.

Definition emit (e : effect) (s : Banner) : Banner :=
  set_host (set_log (e :: log (host s)) (host s)) s.

(** Several effects, performed in the order of the list. *)
Definition emit_all (es : list effect) (s : Banner) : Banner :=
  set_host (set_log (rev es ++ log (host s)) (host s)) s.

(** The field initialisers of the class, on a host that has done nothing
    yet (a canvas element starts 300 by 150). *)
Definition fresh : Banner :=
  {| cells := []; fontArts := []; charWidth := 0; rafId := 0;
     morph := {| active := false; startTime := 0; duration := 600;
                 fromSnap := []; toLines := []; thresholds := [];
                 onComplete := None |};
     currentTextIndex := 0; nextPause := 2000; cycleTimer := 0;
     isMorphing := false; mouseX := -9999; mouseY := -9999;
     hovering := false;
     host := {| timers := []; frames := []; nextTimer := 1; nextFrame := 1;
                draws := 0; listening := false;
                canvasW := 300; canvasH := 150; log := [] |} |}.

Definition GLITCH_CHARS : jsstring :=
  lit "!@#$%^&*()_+-=[]{}|;:',.<>?/~`0123456789".
Definition PAUSE_STEP : Z := 1000.
Definition PAUSE_MAX : Z := 10000.
Definition INITIAL_DELAY : Z := 2000.

Definition REPEL_RADIUS : R := 80.
Definition REPEL_FORCE : R := 3.
Definition SPRING_K : R := 0.15.
Definition DAMPING : R := 0.7.

(** ** Exceptions *)

Inductive exn : Type :=
| TypeError
| SyntaxError.

(** A method either returns, or throws leaving the instance as it was at the
    throw. *)
Inductive outcome : Type :=
| Returned (s : Banner)
| Thrown (e : exn) (s : Banner).

Definition state_of (o : outcome) : Banner :=
  match o with
  | Returned s => s
  | Thrown _ s => s
  end.

Definition andThen (o : outcome) (k : Banner -> outcome) : outcome :=
  match o with
  | Returned s => k s
  | Thrown e s => Thrown e s
  end.

Notation "s <- m ;; k" := (andThen m (fun s => k))
  (at level 61, m at next level, right associativity).

(** Comparisons of numbers as booleans. *)
Definition Rltb (a b : R) : bool := if Rlt_dec a b then true else false.
Definition Rleb (a b : R) : bool := if Rle_dec a b then true else false.

(** [Math.floor] and [Math.ceil]. *)
Definition floor (x : R) : Z := Int_part x.
Definition ceil (x : R) : Z := (- Int_part (- x))%Z.

(** [xs[i]] for a number [i] that need not be a valid index. *)
Definition index_Z {A : Type} (xs : list A) (i : Z) : option A :=
  match i with
  | Zneg _ => None
  | _ => nth_error xs (Z.to_nat i)
  end.

(** What [fillText] shows for a glyph that is [undefined]. *)
Definition undefined_glyph : jsstring := lit "undefined".

Definition with_char (ch : jsstring) (c : Cell) : Cell :=
  {| char := ch; row := row c; col := col c; rx := rx c; ry := ry c;
     px := px c; py := py c; vx := vx c; vy := vy c |}.

Definition with_active (b : bool) (m : Morph) : Morph :=
  {| active := b; startTime := startTime m; duration := duration m;
     fromSnap := fromSnap m; toLines := toLines m;
     thresholds := thresholds m; onComplete := onComplete m |}.

Definition with_fromSnap (v : list Cell) (m : Morph) : Morph :=
  {| active := active m; startTime := startTime m; duration := duration m;
     fromSnap := v; toLines := toLines m;
     thresholds := thresholds m; onComplete := onComplete m |}.

(** ** Host calls *)

Definition setTimeout (cb : timer_callback) (ms : Z) (s : Banner) : nat * Banner :=
  let h := nextTimer (host s) in
  let hs := set_nextTimer (S h)
              (set_timers (timers (host s) ++ [mkTimer h ms cb]) (host s)) in
  (h, emit (SetTimeout h cb ms) (set_host hs s)).

Definition clearTimeout (h : nat) (s : Banner) : Banner :=
  let keep := filter (fun t => negb (Nat.eqb (handle t) h)) (timers (host s)) in
  emit (ClearTimeout h) (set_host (set_timers keep (host s)) s).

Definition requestAnimationFrame (s : Banner) : nat * Banner :=
  let h := nextFrame (host s) in
  let hs := set_nextFrame (S h) (set_frames (frames (host s) ++ [h]) (host s)) in
  (h, emit (RequestAnimationFrame h) (set_host hs s)).

Definition cancelAnimationFrame (h : nat) (s : Banner) : Banner :=
  let keep := filter (fun f => negb (Nat.eqb f h)) (frames (host s)) in
  emit (CancelAnimationFrame h) (set_host (set_frames keep (host s)) s).

(** ** The methods of the class *)

Section Engine.

(** The stream behind [Math.random], and the value of the global
    [devicePixelRatio] when the handler runs. *)
Variable random : nat -> R.
Variable devicePixelRatio : R.

Definition Math_random (s : Banner) : R * Banner :=
  (random (draws (host s)),
   set_host (set_draws (S (draws (host s))) (host s)) s).

(** [devicePixelRatio || 1] *)
Definition dpr : R :=
  if Req_dec_T devicePixelRatio 0 then 1 else devicePixelRatio.

(** [initCanvas(art)]; [art] is [None] when the caller read past the end
    of [fontArts], and [art.split] then throws. *)
Definition initCanvas (art : option jsstring) (s : Banner) : outcome :=
  match art with
  | None => Thrown TypeError s
  | Some a =>
      let lines := split_nl a in
      let maxCols := max_of (map (@length code_unit) lines) in
      let naturalW := IZR (ceil (INR maxCols * charWidth s)) in
      let naturalH := IZR (ceil (INR (length lines) * LINE_HEIGHT)) in
      let s1 := set_host (set_canvas (IZR (ceil (naturalW * dpr)))
                                     (IZR (ceil (naturalH * dpr))) (host s)) s in
      Returned (set_cells (buildGrid (charWidth s1) a) s1)
  end.

(** The threshold formula of [startMorph]. *)
Definition threshold_of (c : Cell) : R :=
  (sin (INR (row c) * 13.37 + INR (col c) * 7.13) * 0.5 + 0.5) * 0.7 + 0.15.

(** [startMorph(toArt, onComplete)], called at time [now]. *)
Definition startMorph (toArt : option jsstring) (cb : callback) (now : R)
           (s : Banner) : outcome :=
  if active (morph s) then Returned s
  else
    let s1 := set_morph (with_fromSnap (map (fun c => c) (cells s)) (morph s)) s in
    match toArt with
    | None => Thrown TypeError s1
    | Some t =>
        let m := {| active := true;
                    startTime := now;
                    duration := duration (morph s1);
                    fromSnap := fromSnap (morph s1);
                    toLines := map array_from (split_nl t);
                    thresholds := map threshold_of (cells s1);
                    onComplete := Some cb |} in
        Returned (emit (PerformanceNow now) (set_morph m s1))
    end.

Definition scheduleCycle (s : Banner) : Banner :=
  let (h, s1) := setTimeout CallCycle (nextPause s) s in
  let s2 := set_cycleTimer h s1 in
  set_nextPause (Z.min (nextPause s2 + PAUSE_STEP) PAUSE_MAX) s2.

(** [cycle()], run at time [now].  With an empty [fontArts] the index is NaN
    in the source and [fontArts[nextIndex]] is [undefined]; here the index
    is past the end and the lookup is [None]. *)
Definition cycle (now : R) (s : Banner) : outcome :=
  if (isMorphing s || hovering s)%bool then Returned s
  else
    let s1 := set_isMorphing true s in
    let nextIndex := ((currentTextIndex s1 + 1) mod length (fontArts s1))%nat in
    startMorph (nth_error (fontArts s1) nextIndex) (CycleDone nextIndex) now s1.

(** The body of the completion callback built by [cycle]. *)
Definition call (cb : callback) (s : Banner) : outcome :=
  match cb with
  | CycleDone nextIndex =>
      s1 <- initCanvas (nth_error (fontArts s) nextIndex) s ;;
      Returned (scheduleCycle
                  (set_isMorphing false (set_currentTextIndex nextIndex s1)))
  end.

(** [this.GLITCH_CHARS[Math.floor(r * this.GLITCH_CHARS.length)]] *)
Definition glitch_glyph (r : R) : jsstring :=
  match index_Z GLITCH_CHARS (floor (r * INR (length GLITCH_CHARS))) with
  | Some u => [u]
  | None => undefined_glyph
  end.

Definition fromChar_at (m : Morph) (i : nat) : jsstring :=
  match nth_error (fromSnap m) i with
  | Some c => char c
  | None => blank
  end.

Definition toChar_at (m : Morph) (cell : Cell) : jsstring :=
  match nth_error (toLines m) (row cell) with
  | Some line =>
      match nth_error line (col cell) with
      | Some g => g
      | None => blank
      end
  | None => blank
  end.

(** [progress >= threshold] and [progress > threshold * 0.3]; both are
    false when [thresholds[i]] is [undefined]. *)
Definition resolved (progress : R) (threshold : option R) : bool :=
  match threshold with
  | Some t => Rleb t progress
  | None => false
  end.

Definition glitching (progress : R) (threshold : option R) : bool :=
  match threshold with
  | Some t => Rltb (t * 0.3) progress
  | None => false
  end.

(** The callback of [this.cells.forEach] in [render].  The loop threads
    the cells already visited and the number of [Math.random] draws made;
    nothing else of the instance changes inside the loop. *)
Definition morph_cell (m : Morph) (progress : R) (cell : Cell) (i : nat)
           (acc : list Cell * nat) : list Cell * nat :=
  let '(out, d) := acc in
  let threshold := nth_error (thresholds m) i in
  let fromChar := fromChar_at m i in
  let toChar := toChar_at m cell in
  if resolved progress threshold then
    (out ++ [with_char toChar cell], d)
  else if glitching progress threshold then
    (out ++ [with_char (glitch_glyph (random d)) cell], S d)
  else
    (out ++ [with_char fromChar cell], d).

Definition progress_at (timestamp : R) (m : Morph) : R :=
  Rmin ((timestamp - startTime m) / duration m) 1.

(** The cells and the draw count after the [forEach] of the morph update. *)
Definition morph_loop (timestamp : R) (s : Banner) : list Cell * nat :=
  forEach (morph_cell (morph s) (progress_at timestamp (morph s)))
          (cells s) ([], draws (host s)).

Definition morph_update (timestamp : R) (s : Banner) : outcome :=
  if active (morph s) then
    let progress := progress_at timestamp (morph s) in
    let '(cells1, d1) := morph_loop timestamp s in
    let s1 := set_host (set_draws d1 (host s)) (set_cells cells1 s) in
    if Rleb 1 progress then
      let s2 := set_morph (with_active false (morph s1)) s1 in
      match onComplete (morph s2) with
      | Some cb => call cb (emit (Invoke cb) s2)
      | None => Returned s2
      end
    else Returned s1
  else Returned s.

(** The body of the physics loop of [render], for one cell. *)
Definition physics (mx my : R) (cell : Cell) : Cell :=
  let dx := rx cell - mx in
  let dy := ry cell - my in
  let dist := sqrt (dx * dx + dy * dy) in
  let '(vx1, vy1) :=
    if (Rltb dist REPEL_RADIUS && Rltb 0 dist)%bool then
      let force := REPEL_FORCE * (1 - dist / REPEL_RADIUS) in
      (vx cell + (dx / dist) * force, vy cell + (dy / dist) * force)
    else (vx cell, vy cell) in
  let vx2 := vx1 + (rx cell - px cell) * SPRING_K in
  let vy2 := vy1 + (ry cell - py cell) * SPRING_K in
  let vx3 := vx2 * DAMPING in
  let vy3 := vy2 * DAMPING in
  {| char := char cell; row := row cell; col := col cell;
     rx := rx cell; ry := ry cell;
     px := px cell + vx3; py := py cell + vy3;
     vx := vx3; vy := vy3 |}.

Definition physics_update (s : Banner) : Banner :=
  set_cells (map (physics (mouseX s) (mouseY s)) (cells s)) s.

(** The canvas calls of the draw loop, in order. *)
Definition draw_cell (cell : Cell) : list effect :=
  if jsstring_eqb (char cell) blank then []
  else [FillText (char cell) (px cell) (py cell)].

Definition draw (s : Banner) : Banner :=
  let w := canvasW (host s) / dpr in
  let h := canvasH (host s) / dpr in
  emit_all (ClearRect w h :: flat_map draw_cell (cells s)) s.

Definition render (timestamp : R) (s : Banner) : outcome :=
  s1 <- morph_update timestamp s ;;
  let s2 := draw (physics_update s1) in
  let (h, s3) := requestAnimationFrame s2 in
  Returned (set_rafId h s3).

(** The three listeners registered by [connectedCallback]; [mousemove]
    receives the pointer position already converted to grid coordinates. *)
Definition mouseenter (s : Banner) : Banner :=
  let s1 := set_hovering true s in
  clearTimeout (cycleTimer s1) s1.

Definition mousemove (x y : R) (s : Banner) : Banner :=
  set_mouse x y s.

Definition mouseleave (s : Banner) : Banner :=
  let s1 := set_mouse (-9999) (-9999) (set_hovering false s) in
  if isMorphing s1 then s1 else scheduleCycle s1.

(** [connectedCallback()]: [arts] is the parsed [data-arts] attribute
    (the empty list when the attribute is missing), [canvas] tells whether
    the element has a canvas child (with a 2d context), [measured] is the
    width that [measureText('M')] reports.  When [arts[fontIndex]] is
    [undefined], reading its element 0 throws. *)
Definition connectedCallback (arts : list (list jsstring)) (canvas : bool)
           (measured : R) (s : Banner) : outcome :=
  if (negb canvas || Nat.eqb (length arts) 0)%bool then Returned s
  else
    let s1 := set_charWidth measured s in
    let (r, s2) := Math_random s1 in
    let fontIndex := floor (r * INR (length arts)) in
    match index_Z arts fontIndex with
    | None => Thrown TypeError s2
    | Some style =>
        let s3 := set_fontArts style s2 in
        s4 <- initCanvas (nth_error (fontArts s3) 0) s3 ;;
        let (h, s5) := requestAnimationFrame s4 in
        let s6 := set_rafId h s5 in
        let s7 := set_host (set_listening true (host s6)) s6 in
        Returned (snd (setTimeout CallScheduleCycle INITIAL_DELAY s7))
    end.

Definition disconnectedCallback (s : Banner) : Banner :=
  clearTimeout (cycleTimer s) (cancelAnimationFrame (rafId s) s).

(** ** The event loop *)

Inductive event : Type :=
| MouseEnter
| MouseMove (x y : R)
| MouseLeave
| TimerFire (h : nat) (now : R)
| Frame (timestamp : R)
| Disconnect.

Definition find_timer (h : nat) (s : Banner) : option Timer :=
  find (fun t => Nat.eqb (handle t) h) (timers (host s)).

Definition drop_timer (h : nat) (s : Banner) : Banner :=
  set_host (set_timers (filter (fun t => negb (Nat.eqb (handle t) h))
                               (timers (host s))) (host s)) s.

(** A pending timeout fires at time [now]. *)
Definition fire (h : nat) (now : R) (s : Banner) : outcome :=
  match find_timer h s with
  | None => Returned s
  | Some t =>
      let s1 := drop_timer h s in
      match action t with
      | CallScheduleCycle => Returned (scheduleCycle s1)
      | CallCycle => cycle now s1
      end
  end.

(** The pending animation frame callback runs with [timestamp]. *)
Definition frame (timestamp : R) (s : Banner) : outcome :=
  match frames (host s) with
  | [] => Returned s
  | _ :: rest => render timestamp (set_host (set_frames rest (host s)) s)
  end.

Definition step (e : event) (s : Banner) : outcome :=
  match e with
  | MouseEnter => Returned (if listening (host s) then mouseenter s else s)
  | MouseMove x y => Returned (if listening (host s) then mousemove x y s else s)
  | MouseLeave => Returned (if listening (host s) then mouseleave s else s)
  | TimerFire h now => fire h now s
  | Frame timestamp => frame timestamp s
  | Disconnect => Returned (disconnectedCallback s)
  end.

(** An exception thrown by a handler is reported by the host and the
    instance lives on in the state it was left in. *)
Definition run (es : list event) (s : Banner) : Banner :=
  fold_left (fun s e => state_of (step e s)) es s.

(** The instance after attachment to the document. *)
Definition boot (arts : list (list jsstring)) (canvas : bool) (measured : R) : outcome :=
  connectedCallback arts canvas measured fresh.

End Engine.


(** ** The [data-arts] attribute *)

(** What the first statement of [connectedCallback],
    [JSON.parse(this.dataset.arts ?? '[]')], is given: no attribute at all
    (the default text '[]' is parsed), a text that is not JSON (the empty
    string is one), or JSON for a list of styles.  The declared type
    [string[][]] of [arts] leaves no other shape. *)
Inductive dataset : Type :=
| NoAttribute
| NotJSON
| Styles (arts : list (list jsstring)).

(** [JSON.parse(this.dataset.arts ?? '[]')] *)
Definition JSON_parse (d : dataset) : exn + list (list jsstring) :=
  match d with
  | NoAttribute => inr []
  | NotJSON => inl SyntaxError
  | Styles arts => inr arts
  end.

(** [connectedCallback()] from its first statement on. *)
Definition connectedCallback_dataset (random : nat -> R) (devicePixelRatio : R)
           (d : dataset) (canvas : bool) (measured : R) (s : Banner) : outcome :=
  match JSON_parse d with
  | inl e => Thrown e s
  | inr arts => connectedCallback random devicePixelRatio arts canvas measured s
  end.

(** The instance after attachment to the document, from the attribute. *)
Definition attach (random : nat -> R) (devicePixelRatio : R)
           (d : dataset) (canvas : bool) (measured : R) : outcome :=
  connectedCallback_dataset random devicePixelRatio d canvas measured fresh.

(** * Specification-side definitions *)

(** ** Grid builder *)

(** The nested [forEach] of [buildGrid] lists the cells row by row. *)
Definition gridRows (charWidth : R) (art : jsstring) : list (list Cell) :=
  mapi (fun line r => mapi (fun ch c => restCell charWidth ch r c) (array_from line))
       (split_nl art).

(** The glyph of the art block at a (row, col) position, if there is one. *)
Definition glyph_at (art : jsstring) (r c : nat) : option jsstring :=
  match nth_error (split_nl art) r with
  | Some line => nth_error (array_from line) c
  | None => None
  end.

Definition glyph_count (art : jsstring) : nat :=
  list_sum (map (fun line => length (array_from line)) (split_nl art)).

(** A block with line feed, used in the examples. *)
Definition lines_of (ls : list string) : jsstring :=
  concat (mapi (fun l i => if Nat.eqb i 0 then lit l else LF :: lit l) ls).

Definition ragged : jsstring := lines_of ["AB"; "C"]%string.

Definition square : jsstring := lines_of ["AB"; "CD"]%string.


(** ** Reading the effect log *)

Definition armed_of (e : effect) : list Z :=
  match e with
  | SetTimeout _ CallCycle ms => [ms]
  | _ => []
  end.

(** The pauses armed by [scheduleCycle] so far, oldest first. *)
Definition armed (l : list effect) : list Z := flat_map armed_of (rev l).

Definition is_start (e : effect) : bool :=
  match e with PerformanceNow _ => true | _ => false end.

Definition is_invoke (e : effect) : bool :=
  match e with Invoke _ => true | _ => false end.

(** Morphs started (each reads the clock once) and completion callbacks
    invoked so far. *)
Definition started (s : Banner) : nat := length (filter is_start (log (host s))).
Definition completed (s : Banner) : nat := length (filter is_invoke (log (host s))).

(** ** Invariants of the instance *)

(** While a morph is active its arrays are aligned with the cells and its
    callback points at an existing block. *)
Definition morph_wf (s : Banner) : Prop :=
  active (morph s) = true ->
  thresholds (morph s) = map threshold_of (cells s)
  /\ length (fromSnap (morph s)) = length (cells s)
  /\ exists k art, onComplete (morph s) = Some (CycleDone k)
                   /\ nth_error (fontArts s) k = Some art
                   /\ toLines (morph s) = map array_from (split_nl art).

Record Inv (s : Banner) : Prop := mkInv {
  inv_morph : morph_wf s;
  inv_flag : isMorphing s = active (morph s);
  inv_duration : duration (morph s) = 600;
  inv_arts : timers (host s) <> [] \/ listening (host s) = true -> fontArts s <> []
}.

(** The glyph the morph loop gives to cell [c] at index [k]. *)
Definition glyph_rule (random : nat -> R) (m : Morph) (p : R) (k : nat) (c : Cell)
           (g : jsstring) : Prop :=
  let t := nth_error (thresholds m) k in
  if resolved p t then g = toChar_at m c
  else if glitching p t then exists d, g = glitch_glyph (random d)
  else g = fromChar_at m k.

(** A cell inside its glitch window at progress [p]. *)
Definition glitches (p : R) (c : Cell) : bool :=
  (negb (Rleb (threshold_of c) p) && Rltb (threshold_of c * 0.3) p)%bool.

(** The number of cells before index [i] that are inside their glitch
    window at progress [p]: each of them has called [Math.random] once
    when the loop reaches the cell at [i]. *)
Definition draw_rank (p : R) (cells : list Cell) (i : nat) : nat :=
  length (filter (glitches p) (firstn i cells)).

(** What a cell keeps for its whole life: its grid and rest coordinates. *)
Definition geometry (c : Cell) : nat * nat * R * R := (row c, col c, rx c, ry c).

(** ** Names for the states a frame goes through *)

(** The instance after [initCanvas(art)] for a defined [art]. *)
Definition rebuilt (devicePixelRatio : R) (art : jsstring) (s : Banner) : Banner :=
  let lines := split_nl art in
  let naturalW := IZR (ceil (INR (max_of (map (@length code_unit) lines)) * charWidth s)) in
  let naturalH := IZR (ceil (INR (length lines) * LINE_HEIGHT)) in
  set_cells (buildGrid (charWidth s) art)
    (set_host (set_canvas (IZR (ceil (naturalW * dpr devicePixelRatio)))
                          (IZR (ceil (naturalH * dpr devicePixelRatio))) (host s)) s).

(** The instance after the morph loop wrote [cells1] and made the draw
    count [d1]. *)
Definition looped (cells1 : list Cell) (d1 : nat) (s : Banner) : Banner :=
  set_host (set_draws d1 (host s)) (set_cells cells1 s).

(** The instance after the completion path of a morph whose callback is
    [CycleDone k] with [fontArts[k] = art]. *)
Definition finished (devicePixelRatio : R) (k : nat) (art : jsstring) (s : Banner) : Banner :=
  scheduleCycle
    (set_isMorphing false
       (set_currentTextIndex k
          (rebuilt devicePixelRatio art
             (emit (Invoke (CycleDone k))
                (set_morph (with_active false (morph s)) s))))).

(** What [render] does after the morph update. *)
Definition after_morph (devicePixelRatio : R) (s1 : Banner) : Banner :=
  let s2 := draw devicePixelRatio (physics_update s1) in
  set_rafId (nextFrame (host s2)) (snd (requestAnimationFrame s2)).

(** ** The pause sequence of the specification *)

(** [min(I + (n - 1) * S, M)], for n = 1, 2, ... *)
Definition nth_pause (n : nat) : Z :=
  Z.min (INITIAL_DELAY + (Z.of_nat n - 1) * PAUSE_STEP) PAUSE_MAX.

(** The handle of the cycle timer armed last, 0 when none was armed. *)
Fixpoint last_cycle_handle (l : list effect) : nat :=
  match l with
  | [] => 0
  | SetTimeout h CallCycle _ :: _ => h
  | _ :: l' => last_cycle_handle l'
  end.

(** The books of an instance: the pauses armed so far follow the sequence,
    every started morph but the active one has completed once, and
    [cycleTimer] holds the handle of the cycle timer armed last. *)
Record Ledger (s : Banner) : Prop := mkLedger {
  led_armed : armed (log (host s))
              = map nth_pause (seq 1 (length (armed (log (host s)))));
  led_next : nextPause s = nth_pause (S (length (armed (log (host s)))));
  led_count : started s = (completed s + (if active (morph s) then 1 else 0))%nat;
  led_timer : cycleTimer s = last_cycle_handle (log (host s))
}.

(** Effects that neither arm a pause, nor start a morph, nor complete one. *)
Definition quiet (e : effect) : bool :=
  match e with
  | SetTimeout _ CallCycle _ => false
  | PerformanceNow _ => false
  | Invoke _ => false
  | _ => true
  end.

(** [clamp(x, lo, hi)] of the specification. *)
Definition clamp (x lo hi : R) : R := Rmax lo (Rmin x hi).

(** The target glyph of the specification: the target block's character at
    the cell's (row, col), blank if that position is absent. *)
Definition target_glyph (art : jsstring) (c : Cell) : jsstring :=
  match glyph_at art (row c) (col c) with
  | Some g => g
  | None => blank
  end.

(** [connectedCallback] from the point where the style has been picked. *)
Definition attached (random : nat -> R) (devicePixelRatio : R)
           (style : list jsstring) (measured : R) (s : Banner) : outcome :=
  let s3 := set_fontArts style (snd (Math_random random (set_charWidth measured s))) in
  s4 <- initCanvas devicePixelRatio (nth_error (fontArts s3) 0) s3 ;;
  let (h, s5) := requestAnimationFrame s4 in
  let s6 := set_rafId h s5 in
  let s7 := set_host (set_listening true (host s6)) s6 in
  Returned (snd (setTimeout CallScheduleCycle INITIAL_DELAY s7)).

(** ** A running example: one style, blocks "AB\nCD" and "XY\nZW" *)

Definition target : jsstring := lines_of ["XY"; "ZW"]%string.
Definition demo_arts : list (list jsstring) := [[square; target]].
Definition rnd0 : nat -> R := fun _ => 0.

(** Attached, with a glyph width of 8. *)
Definition demo_boot : Banner := state_of (boot rnd0 1 demo_arts true 8).

(** The initial timer fires at 2000, the first cycle timer at 4000: the
    first morph is in flight. *)
Definition demo_morphing : Banner :=
  run rnd0 1 [TimerFire 1 2000; TimerFire 2 4000] demo_boot.

(** The same example with a random stream that cycles through
    0, 1/4, 1/2, 3/4. *)
Definition rnd1 : nat -> R := fun n => INR (n mod 4) / 4.

Definition glitch_demo : Banner :=
  run rnd1 1 [TimerFire 1 2000; TimerFire 2 4000]
      (state_of (boot rnd1 1 demo_arts true 8)).

(** ** The repulsion impulse of the specification *)

(** The impulse on a cell whose rest position is (x, y) when the pointer is
    at (mx, my): none unless 0 < distance < radius, else directed from the
    pointer to the rest position with magnitude force * (1 - distance / radius). *)
Definition repel (mx my x y : R) : R * R :=
  let d := sqrt ((x - mx) * (x - mx) + (y - my) * (y - my)) in
  if (Rltb 0 d && Rltb d REPEL_RADIUS)%bool then
    let magnitude := REPEL_FORCE * (1 - d / REPEL_RADIUS) in
    (magnitude * ((x - mx) / d), magnitude * ((y - my) / d))
  else (0, 0).

(** The pointer enters and leaves the canvas before the initial timer has
    fired, the initial timer fires, and the pointer enters again. *)
Definition hover_twice : list event :=
  [MouseEnter; MouseLeave; TimerFire 1 2000; MouseEnter].

(** ** Inert instances *)

(** An instance that shows nothing and has nothing scheduled. *)
Record Inert (s : Banner) : Prop := mkInert {
  inert_cells : cells s = [];
  inert_timers : timers (host s) = [];
  inert_frames : frames (host s) = [];
  inert_listening : listening (host s) = false;
  inert_log : forall ch x y, ~ In (FillText ch x y) (log (host s))
}.

(** ** Thresholds and the sine of the implementation *)




(** * Further definitions: the rest of the engine *)

(** ** Grid builder *)

(** The (row, col) of a cell. *)
Definition position (c : Cell) : nat * nat := (row c, col c).

(** The text of a block without its line feeds. *)
Definition without_LF (art : jsstring) : jsstring :=
  filter (fun u => negb (N.eqb u LF)) art.

(** ** The block being shown *)

(** [connectedCallback] ran to its end: the listeners are registered. *)
Definition connected (s : Banner) : Prop := listening (host s) = true.

(** The canvas width and height that [initCanvas(art)] sets. *)
Definition canvas_size (devicePixelRatio charWidth : R) (art : jsstring) : R * R :=
  let naturalW := IZR (ceil (INR (maxCols art) * charWidth)) in
  let naturalH := IZR (ceil (INR (length (split_nl art)) * LINE_HEIGHT)) in
  (IZR (ceil (naturalW * dpr devicePixelRatio)),
   IZR (ceil (naturalH * dpr devicePixelRatio))).

(** The cells whose glyphs are those of the block at [currentTextIndex]:
    the live cells when no morph is active, the snapshot of the morph
    otherwise. *)
Definition settled (s : Banner) : list Cell :=
  if active (morph s) then fromSnap (morph s) else cells s.

(** What every handler keeps true of the instance: the index points into
    the style and counts the completed morphs round robin, the grid is the
    one of the block at the index, an active morph leads to the next block,
    at most the frame request in [rafId] is pending, and a connected
    instance has the canvas sized for the block at the index. *)
Record Steady (devicePixelRatio : R) (s : Banner) : Prop := mkSteady {
  std_index : fontArts s <> [] -> (currentTextIndex s < length (fontArts s))%nat;
  std_round : currentTextIndex s = (completed s mod length (fontArts s))%nat;
  std_geometry : forall art,
      nth_error (fontArts s) (currentTextIndex s) = Some art ->
      map geometry (cells s) = map geometry (buildGrid (charWidth s) art);
  std_chars : forall art,
      nth_error (fontArts s) (currentTextIndex s) = Some art ->
      map char (settled s) = map char (buildGrid (charWidth s) art);
  std_next : active (morph s) = true ->
      onComplete (morph s)
      = Some (CycleDone ((currentTextIndex s + 1) mod length (fontArts s)));
  std_frames : frames (host s) = [] \/ frames (host s) = [rafId s];
  std_canvas : forall art,
      listening (host s) = true ->
      nth_error (fontArts s) (currentTextIndex s) = Some art ->
      (canvasW (host s), canvasH (host s))
      = canvas_size devicePixelRatio (charWidth s) art
}.

(** ** Zoom *)

(** [devicePixelRatio] is a global of the page that [initCanvas], the
    [mousemove] listener and the draw section of [render] read afresh each
    time they run; zooming the page changes it between two events.  A run
    with zoom pairs every event with the ratio in force when it is handled. *)
Definition run_zoom (random : nat -> R) (es : list (R * event)) (s : Banner) : Banner :=
  fold_left (fun s re => state_of (step random (fst re) (snd re) s)) es s.

(** The ratios in force at attachment and at the events after it. *)
Definition ratios (devicePixelRatio : R) (es : list (R * event)) : list R :=
  devicePixelRatio :: map fst es.

(** The width in CSS pixels that [initCanvas(art)] gives the canvas
    ([naturalW], the value of [canvas.style.width]). *)
Definition natural_width (charWidth : R) (art : jsstring) : R :=
  IZR (ceil (INR (maxCols art) * charWidth)).

(** What is fixed at attachment: the style, the glyph width and the
    listeners. *)
Definition attachment (s : Banner) : list jsstring * R * bool :=
  (fontArts s, charWidth s, listening (host s)).

(** ** Painting *)

Definition is_paint (e : effect) : bool :=
  match e with
  | ClearRect _ _ | FillText _ _ _ => true
  | _ => false
  end.

(** The canvas calls made so far, newest first. *)
Definition painted (s : Banner) : list effect := filter is_paint (log (host s)).

Definition is_disconnect (e : event) : bool :=
  match e with Disconnect => true | _ => false end.

(** ** The spring *)

(** Where the spring and the pointer together hold a cell: its rest
    position shifted by the repulsion impulse over the spring constant. *)
Definition anchor (mx my : R) (c : Cell) : R * R :=
  (rx c + fst (repel mx my (rx c) (ry c)) / SPRING_K,
   ry c + snd (repel mx my (rx c) (ry c)) / SPRING_K).

(** A measure of how far a coordinate is from settling: a quadratic form
    of its offset [e] from the anchor and its velocity [v]. *)
Definition energy (e v : R) : R :=
  SPRING_K * DAMPING * (e * e)
  + (1 - SPRING_K * DAMPING - DAMPING) * (e * v)
  + DAMPING * (v * v).

(** ** What can appear on the canvas *)

(** A glyph of some block of the style. *)
Definition block_glyph (style : list jsstring) (g : jsstring) : Prop :=
  exists art line, In art style /\ In line (split_nl art) /\ In g (array_from line).

(** One character of the glitch alphabet. *)
Definition glitch (g : jsstring) : Prop :=
  exists u, In u GLITCH_CHARS /\ g = [u].

Definition showable (style : list jsstring) (g : jsstring) : Prop :=
  g = blank \/ block_glyph style g \/ glitch g.

(** The cells and the snapshot hold showable glyphs only, and every
    [fillText] call made so far drew a showable glyph other than the
    blank. *)
Record Showable (s : Banner) : Prop := mkShowable {
  sh_cells : Forall (fun c => showable (fontArts s) (char c)) (cells s);
  sh_snap : Forall (fun c => showable (fontArts s) (char c)) (fromSnap (morph s));
  sh_log : forall ch x y, In (FillText ch x y) (log (host s)) ->
                          ch <> blank /\ showable (fontArts s) ch
}.

(** ** The pointer *)

(** What [getBoundingClientRect] reports for the canvas. *)
Record DOMRect : Type := mkDOMRect {
  rect_left : R;
  rect_top : R;
  rect_width : R;
  rect_height : R
}.

Section Pointer.

Variable devicePixelRatio : R.

(** The conversion of the [mousemove] listener, from a pointer position in
    the viewport to grid coordinates. *)
Definition to_grid (rect : DOMRect) (clientX clientY : R) (s : Banner) : R * R :=
  let scaleX := (canvasW (host s) / dpr devicePixelRatio) / rect_width rect in
  let scaleY := (canvasH (host s) / dpr devicePixelRatio) / rect_height rect in
  ((clientX - rect_left rect) * scaleX, (clientY - rect_top rect) * scaleY).

(** The [mousemove] listener on the event itself. *)
Definition mousemove_at (rect : DOMRect) (clientX clientY : R) (s : Banner) : Banner :=
  mousemove (fst (to_grid rect clientX clientY s))
            (snd (to_grid rect clientX clientY s)) s.

End Pointer.

(** The running example attached at ratio 2 and zoomed out to ratio 1
    before its two timers fire. *)
Definition zoomed_demo : Banner :=
  run_zoom rnd0 [(1, TimerFire 1 2000); (1, TimerFire 2 4000)]
           (state_of (boot rnd0 2 demo_arts true 8)).

(** ** A banner nobody touches *)

Definition is_mousemove (e : event) : bool :=
  match e with MouseMove _ _ => true | _ => false end.

(** A cell sitting at its rest position, not moving. *)
Definition at_rest (c : Cell) : Prop :=
  px c = rx c /\ py c = ry c /\ vx c = 0 /\ vy c = 0.

Record Still (s : Banner) : Prop := mkStill {
  still_mouse : mouseX s = -9999 /\ mouseY s = -9999;
  still_width : 0 <= charWidth s;
  still_cells : Forall (fun c => at_rest c /\ 0 <= rx c) (cells s)
}.

(** ** Random numbers *)

(** The calls of [Math.random] that an event makes. *)
Definition consumed (e : event) (s : Banner) : nat :=
  match e, frames (host s) with
  | Frame ts, _ :: _ =>
      if active (morph s)
      then length (filter (glitches (progress_at ts (morph s))) (cells s))
      else 0
  | _, _ => 0
  end.

(** ** Cells stay near their rest position *)

(** Both coordinates of the cell have an energy about the rest position of
    at most 166. *)
Definition near_rest (c : Cell) : Prop :=
  energy (px c - rx c) (vx c) <= 166 /\ energy (py c - ry c) (vy c) <= 166.

(** The first cell of the running example: the "A" of "AB\nCD". *)
Definition demo_cell : Cell := restCell 8 (lit "A") 0 0.
(** * Properties *)

(** ** Lists, folds and strings *)

Lemma forEach_from_push {A B : Type} (g : A -> nat -> B) (l : list A) :
  forall i acc,
    forEach_from (fun x k out => out ++ [g x k]) i l acc = acc ++ mapi_from g i l.
Proof.
  induction l as [|x l IH]; intros i acc; simpl.
  - now rewrite app_nil_r.
  - rewrite IH, <- app_assoc. reflexivity.
Qed.

Lemma forEach_from_extend {A B : Type} (F : A -> nat -> list B) (l : list A) :
  forall i acc,
    forEach_from (fun x k out => out ++ F x k) i l acc
    = acc ++ concat (mapi_from F i l).
Proof.
  induction l as [|x l IH]; intros i acc; simpl.
  - now rewrite app_nil_r.
  - rewrite IH, <- app_assoc. reflexivity.
Qed.

Lemma forEach_from_ext {A St : Type} (f g : A -> nat -> St -> St) (l : list A) :
  (forall x k s, f x k s = g x k s) ->
  forall i s, forEach_from f i l s = forEach_from g i l s.
Proof.
  intros E. induction l as [|x l IH]; intros i s; simpl; [reflexivity|].
  now rewrite E, IH.
Qed.

Lemma mapi_from_length {A B : Type} (f : A -> nat -> B) (l : list A) :
  forall i, length (mapi_from f i l) = length l.
Proof. induction l; intros; simpl; auto. Qed.

Lemma mapi_from_In {A B : Type} (f : A -> nat -> B) (l : list A) (y : B) :
  forall i, In y (mapi_from f i l)
            <-> exists k x, nth_error l k = Some x /\ y = f x (i + k)%nat.
Proof.
  induction l as [|x l IH]; intros i; simpl.
  - split; [tauto | intros (k & x & H & _); destruct k; discriminate].
  - rewrite IH. split.
    + intros [E | (k & x' & H & E)].
      * exists 0%nat, x. rewrite Nat.add_0_r. auto.
      * exists (S k), x'. rewrite Nat.add_succ_r. auto.
    + intros (k & x' & H & E). destruct k as [|k]; simpl in H.
      * left. injection H as ->. now rewrite Nat.add_0_r in E.
      * right. exists k, x'. rewrite Nat.add_succ_r in E. auto.
Qed.

Lemma split_nl_nonempty (s : jsstring) : split_nl s <> [].
Proof.
  destruct s as [|c s]; simpl; [discriminate|].
  destruct (N.eqb c LF); [discriminate|].
  destruct (split_nl s); discriminate.
Qed.

(** ** Grid builder *)

Lemma buildGrid_rows (charWidth : R) (art : jsstring) :
  buildGrid charWidth art = concat (gridRows charWidth art).
Proof.
  unfold buildGrid, gridRows, forEach, mapi.
  rewrite (@forEach_from_ext _ _ _
             (fun line r out =>
                out ++ mapi_from (fun ch c => restCell charWidth ch r c) 0 (array_from line))).
  - now rewrite forEach_from_extend.
  - intros line r out. apply forEach_from_push.
Qed.

Lemma concat_mapi_length {A B : Type} (F : A -> nat -> list B) (n : A -> nat) (l : list A) :
  (forall x k, length (F x k) = n x) ->
  forall i, length (concat (mapi_from F i l)) = list_sum (map n l).
Proof.
  intros H. induction l as [|x l IH]; intros i; simpl; [reflexivity|].
  now rewrite length_app, H, IH.
Qed.

Lemma buildGrid_length (charWidth : R) (art : jsstring) :
  length (buildGrid charWidth art) = glyph_count art.
Proof.
  rewrite buildGrid_rows. unfold gridRows, mapi, glyph_count.
  apply concat_mapi_length. intros line k. apply mapi_from_length.
Qed.

Lemma buildGrid_In (charWidth : R) (art : jsstring) (cell : Cell) :
  In cell (buildGrid charWidth art)
  <-> exists r c g, glyph_at art r c = Some g /\ cell = restCell charWidth g r c.
Proof.
  rewrite buildGrid_rows, in_concat. unfold gridRows, mapi, glyph_at. split.
  - intros (rowCells & Hrow & Hin).
    apply mapi_from_In in Hrow. destruct Hrow as (r & line & Hline & ->).
    apply mapi_from_In in Hin. destruct Hin as (c & g & Hg & ->).
    exists r, c, g. simpl. now rewrite Hline.
  - intros (r & c & g & Hg & ->).
    destruct (nth_error (split_nl art) r) as [line|] eqn:Hline; [|discriminate].
    exists (mapi_from (fun ch c => restCell charWidth ch r c) 0 (array_from line)).
    split; apply mapi_from_In.
    + exists r, line. auto.
    + exists c, g. auto.
Qed.

Lemma list_sum_const {A : Type} (n : A -> nat) (w : nat) (l : list A) :
  Forall (fun x => n x = w) l -> list_sum (map n l) = (length l * w)%nat.
Proof.
  induction 1 as [|x l Hx _ IH]; simpl; [reflexivity|]. now rewrite Hx, IH.
Qed.

(** C1, as stated, fails: the block "AB\nC" has 2 lines of maximum length 2,
    and its grid has 3 cells, not 4; there is no cell for (row 1, col 1). *)
Lemma C1_ragged_grid_not_padded :
  length (split_nl ragged) = 2%nat /\ maxCols ragged = 2%nat /\
  length (buildGrid 1 ragged) <> (length (split_nl ragged) * maxCols ragged)%nat /\
  ~ exists cell, In cell (buildGrid 1 ragged) /\ row cell = 1%nat /\ col cell = 1%nat.
Proof.
  split; [reflexivity|]. split; [reflexivity|]. split.
  - rewrite buildGrid_length. vm_compute. discriminate.
  - intros (cell & Hin & Hr & Hc).
    apply buildGrid_In in Hin. destruct Hin as (r & c & g & Hg & ->).
    simpl in Hr, Hc. subst r c. vm_compute in Hg. discriminate.
Qed.

(** C1 (amended): the grid has exactly one cell per glyph the block really
    contains, at rest at its (row, col) position: its size is the sum of the
    lines' glyph counts, which is lines × width when every line has the same
    width; a ragged line is not padded, so a cell exists at (row, col) only
    where the block has a glyph. *)
Theorem C1_buildGrid_one_cell_per_glyph (charWidth : R) (art : jsstring) :
  length (buildGrid charWidth art) = glyph_count art
  /\ (forall cell, In cell (buildGrid charWidth art)
        <-> exists r c g, glyph_at art r c = Some g
                          /\ cell = restCell charWidth g r c)
  /\ (forall w, Forall (fun line => length (array_from line) = w) (split_nl art) ->
        length (buildGrid charWidth art) = (length (split_nl art) * w)%nat).
Proof.
  split; [apply buildGrid_length|]. split; [apply buildGrid_In|].
  intros w H. rewrite buildGrid_length. now apply list_sum_const.
Qed.

Lemma C1_buildGrid_square_witness :
  length (buildGrid 1 square) = 4%nat.
Proof.
  destruct (C1_buildGrid_one_cell_per_glyph 1 square) as (_ & _ & H).
  apply (H 2%nat). repeat constructor.
Defined.

(** ** The morph loop *)

Lemma threshold_of_physics (mx my : R) (c : Cell) :
  threshold_of (physics mx my c) = threshold_of c.
Proof. unfold physics, threshold_of. destruct (_ && _)%bool; reflexivity. Qed.

Lemma map_with_char_invariant {B : Type} (f : Cell -> B) :
  (forall g c, f (with_char g c) = f c) ->
  forall l l',
    length l' = length l ->
    (forall j c, nth_error l j = Some c ->
                 exists g, nth_error l' j = Some (with_char g c)) ->
    map f l' = map f l.
Proof.
  intros Hf. induction l as [|c l IH]; intros [|c' l'] Hlen H; simpl in *;
    try discriminate; [reflexivity|].
  destruct (H 0%nat c eq_refl) as (g & Hg). simpl in Hg. injection Hg as ->.
  rewrite Hf. f_equal. apply IH; [lia|].
  intros j c0 Hj. apply (H (S j) c0 Hj).
Qed.

Section Loop.

Variable random : nat -> R.

Lemma morph_loop_from_spec (m : Morph) (p : R) (l : list Cell) :
  forall i out d,
  exists l' d',
    forEach_from (morph_cell random m p) i l (out, d) = (out ++ l', d')
    /\ length l' = length l
    /\ map threshold_of l' = map threshold_of l
    /\ forall j c, nth_error l j = Some c ->
         exists g, nth_error l' j = Some (with_char g c)
                   /\ glyph_rule random m p (i + j) c g.
Proof.
  induction l as [|c l IH]; intros i out d.
  - exists [], d. simpl. rewrite app_nil_r. repeat split; auto.
    intros [|j] c H; discriminate.
  - cbn [forEach_from].
    assert (Hstep : exists g d1,
               morph_cell random m p c i (out, d) = (out ++ [with_char g c], d1)
               /\ glyph_rule random m p i c g).
    { unfold morph_cell, glyph_rule.
      destruct (resolved p (nth_error (thresholds m) i)); [eauto|].
      destruct (glitching p (nth_error (thresholds m) i)); eauto. }
    destruct Hstep as (g & d1 & -> & Hg).
    destruct (IH (S i) (out ++ [with_char g c]) d1) as (l' & d' & E & Hlen & Hthr & Hnth).
    exists (with_char g c :: l'), d'. rewrite E, <- app_assoc. simpl.
    repeat split; auto.
    + now rewrite Hthr.
    + intros [|j] c' H; simpl in H.
      * injection H as <-. exists g. rewrite Nat.add_0_r. auto.
      * destruct (Hnth j c' H) as (g' & ? & ?). exists g'.
        rewrite Nat.add_succ_r. auto.
Qed.

Lemma morph_loop_spec (ts : R) (s : Banner) :
  exists l' d',
    morph_loop random ts s = (l', d')
    /\ length l' = length (cells s)
    /\ map threshold_of l' = map threshold_of (cells s)
    /\ forall j c, nth_error (cells s) j = Some c ->
         exists g, nth_error l' j = Some (with_char g c)
                   /\ glyph_rule random (morph s) (progress_at ts (morph s)) j c g.
Proof.
  unfold morph_loop, forEach.
  destruct (morph_loop_from_spec (morph s) (progress_at ts (morph s)) (cells s)
              0 [] (draws (host s))) as (l' & d' & E & H).
  exists l', d'. now rewrite E.
Qed.

End Loop.

(** ** Invariant *)

Lemma physics_update_thresholds (s : Banner) :
  map threshold_of (cells (physics_update s)) = map threshold_of (cells s).
Proof.
  unfold physics_update. simpl. rewrite map_map.
  apply map_ext. intros c. apply threshold_of_physics.
Qed.

Lemma filter_nonempty {A : Type} (f : A -> bool) (l : list A) :
  filter f l <> [] -> l <> [].
Proof. destruct l; simpl; congruence. Qed.

Lemma find_nonempty {A : Type} (f : A -> bool) (l : list A) (x : A) :
  find f l = Some x -> l <> [].
Proof. destruct l; simpl; congruence. Qed.

Lemma mod_index_in_range {A : Type} (l : list A) (n : nat) :
  l <> [] -> exists x, nth_error l (n mod length l) = Some x.
Proof.
  intros H. destruct (nth_error l (n mod length l)) eqn:E; [eauto|].
  apply nth_error_None in E.
  assert (length l <> 0)%nat by (destruct l; simpl; congruence).
  pose proof (Nat.mod_upper_bound n (length l) H0). lia.
Qed.

Section Invariant.

Variable random : nat -> R.
Variable devicePixelRatio : R.

Lemma Inv_fresh : Inv fresh.
Proof.
  constructor; cbn; auto.
  - intros H; discriminate.
  - intros [H | H]; congruence.
Qed.

Lemma Inv_scheduleCycle (s : Banner) :
  Inv s -> fontArts s <> [] -> Inv (scheduleCycle s).
Proof.
  intros [Hm Hf Hd Ha] Hne. constructor; cbn; auto.
Qed.

Lemma Inv_mouseenter (s : Banner) : Inv s -> Inv (mouseenter s).
Proof.
  intros [Hm Hf Hd Ha]. constructor; cbn; auto.
  intros [H | H]; apply Ha; [left | right]; auto.
  now apply filter_nonempty in H.
Qed.

Lemma Inv_mouseleave (s : Banner) :
  Inv s -> listening (host s) = true -> Inv (mouseleave s).
Proof.
  intros I Hl. pose proof I as [Hm Hf Hd Ha].
  unfold mouseleave.
  assert (I1 : Inv (set_mouse (-9999) (-9999) (set_hovering false s)))
    by (constructor; cbn; auto).
  change (isMorphing (set_mouse (-9999) (-9999) (set_hovering false s)))
    with (isMorphing s).
  destruct (isMorphing s); [exact I1|].
  apply Inv_scheduleCycle; cbn; auto.
Qed.

Lemma Inv_disconnectedCallback (s : Banner) :
  Inv s -> Inv (disconnectedCallback s).
Proof.
  intros [Hm Hf Hd Ha]. constructor; cbn; auto.
  intros [H | H]; apply Ha; [left | right]; auto.
  now apply filter_nonempty in H.
Qed.

Lemma Inv_cycle (now : R) (s : Banner) :
  Inv s -> fontArts s <> [] -> Inv (state_of (cycle now s)).
Proof.
  intros I Hne. pose proof I as [Hm Hf Hd Ha].
  unfold cycle.
  destruct (isMorphing s) eqn:EM; cbn; [assumption|].
  destruct (hovering s) eqn:EH; cbn; [assumption|].
  unfold startMorph. cbn. rewrite <- Hf.
  destruct (mod_index_in_range (currentTextIndex s + 1) Hne) as (art & Hart).
  rewrite Hart.
  cbn. constructor; cbn; auto.
  intros _. cbn. rewrite length_map. repeat split; auto.
  eexists; exists art; repeat split; auto.
Qed.

Lemma Inv_fire (h : nat) (now : R) (s : Banner) :
  Inv s -> Inv (state_of (fire h now s)).
Proof.
  intros I. pose proof I as [Hm Hf Hd Ha]. unfold fire.
  destruct (find_timer h s) as [t|] eqn:E; [|assumption].
  assert (Hne : fontArts s <> []).
  { apply Ha. left. unfold find_timer in E. now apply find_nonempty in E. }
  assert (I1 : Inv (drop_timer h s)).
  { constructor; cbn; auto. }
  destruct (action t); cbn [state_of].
  - now apply Inv_scheduleCycle.
  - now apply Inv_cycle.
Qed.

Lemma Inv_call (k : nat) (art : jsstring) (s : Banner) :
  active (morph s) = false -> duration (morph s) = 600 ->
  nth_error (fontArts s) k = Some art ->
  exists s', call devicePixelRatio (CycleDone k) s = Returned s' /\ Inv s'
             /\ active (morph s') = false
             /\ cells s' = buildGrid (charWidth s) art.
Proof.
  intros HA HD E. unfold call. rewrite E.
  cbn. eexists; split; [reflexivity|]. split; [|cbn; auto].
  constructor; cbn; auto.
  - intros H; cbn in H; congruence.
  - intros _. destruct (fontArts s); [destruct k; discriminate | congruence].
Qed.

Lemma Inv_morph_update (ts : R) (s : Banner) :
  Inv s ->
  exists s', morph_update random devicePixelRatio ts s = Returned s' /\ Inv s'.
Proof.
  intros I. pose proof I as [Hm Hf Hd Ha]. unfold morph_update.
  destruct (active (morph s)) eqn:EA; [|eauto].
  destruct (Hm EA) as (Hthr & Hlen & k & art & Hcb & Hk & Hto).
  destruct (morph_loop_spec random ts s) as (l' & d' & -> & Hlen' & Hthr' & _).
  destruct (Rleb 1 (progress_at ts (morph s))).
  - cbn. rewrite Hcb.
    destruct (@Inv_call k art
                (emit (Invoke (CycleDone k))
                   (set_morph (with_active false (morph s))
                      (set_host (set_draws d' (host s)) (set_cells l' s)))))
      as (s' & E & I' & _); cbn; auto.
    exists s'. split; auto.
  - eexists; split; [reflexivity|].
    constructor; cbn; auto; [|congruence].
    intros _. cbn. rewrite Hthr', Hlen'. repeat split; eauto.
Qed.

Lemma Inv_render (ts : R) (s : Banner) :
  Inv s ->
  exists s', render random devicePixelRatio ts s = Returned s' /\ Inv s'.
Proof.
  intros I. unfold render.
  destruct (Inv_morph_update ts I) as (s1 & -> & [Hm Hf Hd Ha]).
  cbn. eexists; split; [reflexivity|].
  constructor; cbn; auto.
  intros H. cbn in H |- *. destruct (Hm H) as (Hthr & Hlen & Hcb).
  rewrite length_map. repeat split; auto.
  rewrite Hthr. symmetry. apply (physics_update_thresholds s1).
Qed.

Lemma Inv_frame (ts : R) (s : Banner) :
  Inv s -> Inv (state_of (frame random devicePixelRatio ts s)).
Proof.
  intros I. pose proof I as [Hm Hf Hd Ha]. unfold frame.
  destruct (frames (host s)) as [|f rest] eqn:E; [assumption|].
  destruct (@Inv_render ts (set_host (set_frames rest (host s)) s))
    as (s' & -> & I'); [|assumption].
  constructor; cbn; auto.
Qed.

Lemma Inv_step (e : event) (s : Banner) :
  Inv s -> Inv (state_of (step random devicePixelRatio e s)).
Proof.
  intros I. destruct e; cbn.
  - destruct (listening (host s)); auto using Inv_mouseenter.
  - destruct (listening (host s)); auto.
    destruct I. constructor; cbn; auto.
  - destruct (listening (host s)) eqn:E; auto using Inv_mouseleave.
  - now apply Inv_fire.
  - now apply Inv_frame.
  - now apply Inv_disconnectedCallback.
Qed.

Lemma Inv_run (es : list event) :
  forall s, Inv s -> Inv (run random devicePixelRatio es s).
Proof.
  induction es as [|e es IH]; intros s I; cbn; auto.
  apply IH. now apply Inv_step.
Qed.

Lemma Inv_boot (arts : list (list jsstring)) (canvas : bool) (measured : R) :
  Inv (state_of (boot random devicePixelRatio arts canvas measured)).
Proof.
  unfold boot, connectedCallback.
  destruct (negb canvas || Nat.eqb (length arts) 0)%bool; [apply Inv_fresh|].
  cbn.
  destruct (index_Z arts _) as [style|]; cbn.
  2:{ constructor; cbn; auto; [intros H; discriminate | intros [H|H]; congruence]. }
  destruct style as [|art style]; cbn.
  - constructor; cbn; auto; [intros H; discriminate | intros [H|H]; congruence].
  - constructor; cbn; auto; [intros H; discriminate | intros _; discriminate].
Qed.

(** Every state an instance can be in satisfies the invariant. *)
Lemma Inv_reachable (arts : list (list jsstring)) (canvas : bool) (measured : R)
      (es : list event) :
  Inv (run random devicePixelRatio es
           (state_of (boot random devicePixelRatio arts canvas measured))).
Proof. apply Inv_run, Inv_boot. Qed.

End Invariant.

(** ** One frame, step by step *)

Section Frames.

Variable random : nat -> R.
Variable devicePixelRatio : R.

Lemma render_after (ts : R) (s s1 : Banner) :
  morph_update random devicePixelRatio ts s = Returned s1 ->
  render random devicePixelRatio ts s = Returned (after_morph devicePixelRatio s1).
Proof. intros E. unfold render. rewrite E. reflexivity. Qed.

Lemma morph_update_inactive (ts : R) (s : Banner) :
  active (morph s) = false ->
  morph_update random devicePixelRatio ts s = Returned s.
Proof. intros E. unfold morph_update. now rewrite E. Qed.

Lemma morph_update_running (ts : R) (s : Banner) :
  active (morph s) = true ->
  Rleb 1 (progress_at ts (morph s)) = false ->
  morph_update random devicePixelRatio ts s
  = Returned (looped (fst (morph_loop random ts s)) (snd (morph_loop random ts s)) s).
Proof.
  intros EA EP. unfold morph_update. rewrite EA, EP.
  now destruct (morph_loop random ts s).
Qed.

Lemma morph_update_completing (ts : R) (s : Banner) (k : nat) (art : jsstring) :
  active (morph s) = true ->
  Rleb 1 (progress_at ts (morph s)) = true ->
  onComplete (morph s) = Some (CycleDone k) ->
  nth_error (fontArts s) k = Some art ->
  morph_update random devicePixelRatio ts s
  = Returned (finished devicePixelRatio k art
                (looped (fst (morph_loop random ts s)) (snd (morph_loop random ts s)) s)).
Proof.
  intros EA EP Hcb Hart. unfold morph_update. rewrite EA, EP.
  destruct (morph_loop random ts s) as [cells1 d1]. cbn.
  rewrite Hcb. cbn. rewrite Hart. reflexivity.
Qed.

(** What a frame draws: every non-blank cell, where it now is. *)
Lemma after_morph_draws (s : Banner) (c : Cell) :
  In c (cells (after_morph devicePixelRatio s)) ->
  char c <> blank ->
  In (FillText (char c) (px c) (py c)) (log (host (after_morph devicePixelRatio s))).
Proof.
  intros Hin Hch. cbn in Hin |- *. right.
  apply in_or_app. left. apply in_or_app. left.
  apply in_rev. rewrite rev_involutive. apply in_flat_map.
  exists c. split; [exact Hin|].
  unfold draw_cell, jsstring_eqb.
  destruct (list_eq_dec N.eq_dec (char c) blank); [contradiction | now left].
Qed.

End Frames.

(** ** The ledger: pauses armed, morphs started and completed *)

Arguments armed : simpl never.
Arguments nth_pause : simpl never.

Lemma armed_app (l1 l2 : list effect) : armed (l1 ++ l2) = armed l2 ++ armed l1.
Proof. unfold armed. now rewrite rev_app_distr, flat_map_app. Qed.

Lemma armed_cons (e : effect) (l : list effect) : armed (e :: l) = armed l ++ armed_of e.
Proof. change (e :: l) with ([e] ++ l). rewrite armed_app. unfold armed. simpl. now rewrite app_nil_r. Qed.

Lemma quiet_armed (l : list effect) : forallb quiet l = true -> armed l = [].
Proof.
  induction l as [|e l IH]; [reflexivity|]. simpl. intros H.
  apply andb_prop in H. destruct H as [He Hl]. rewrite armed_cons, IH by assumption.
  destruct e as [h cb ms| | | | | | |]; try reflexivity. destruct cb; [reflexivity | discriminate].
Qed.

Lemma quiet_start (l : list effect) : forallb quiet l = true -> filter is_start l = [].
Proof.
  induction l as [|e l IH]; [reflexivity|]. simpl. intros H.
  apply andb_prop in H. destruct H as [He Hl]. rewrite IH by assumption.
  destruct e; try reflexivity; discriminate.
Qed.

Lemma quiet_invoke (l : list effect) : forallb quiet l = true -> filter is_invoke l = [].
Proof.
  induction l as [|e l IH]; [reflexivity|]. simpl. intros H.
  apply andb_prop in H. destruct H as [He Hl]. rewrite IH by assumption.
  destruct e; try reflexivity; discriminate.
Qed.

Lemma quiet_draw (w h : R) (cs : list Cell) :
  forallb quiet (rev (ClearRect w h :: flat_map draw_cell cs)) = true.
Proof.
  rewrite forallb_forall. intros e He. apply in_rev in He. destruct He as [<- | He]; [reflexivity|].
  apply in_flat_map in He. destruct He as (c & _ & He). unfold draw_cell in He.
  destruct (jsstring_eqb (char c) blank); [contradiction|].
  destruct He as [<- | []]. reflexivity.
Qed.

Lemma quiet_last_cycle_handle (l l0 : list effect) :
  forallb quiet l = true -> last_cycle_handle (l ++ l0) = last_cycle_handle l0.
Proof.
  induction l as [|e l IH]; [reflexivity|]. simpl. intros H.
  apply andb_prop in H. destruct H as [He Hl]. rewrite IH by assumption.
  destruct e as [h cb ms| | | | | | |]; try reflexivity. destruct cb; [reflexivity | discriminate].
Qed.

Lemma Ledger_quiet (l : list effect) (s s' : Banner) :
  forallb quiet l = true ->
  log (host s') = l ++ log (host s) ->
  nextPause s' = nextPause s ->
  active (morph s') = active (morph s) ->
  cycleTimer s' = cycleTimer s ->
  Ledger s -> Ledger s'.
Proof.
  intros Hq Hlog Hp Ha Ht [L1 L2 L3 L4].
  assert (E : armed (log (host s')) = armed (log (host s))).
  { rewrite Hlog, armed_app, (quiet_armed _ Hq). apply app_nil_r. }
  constructor.
  - now rewrite E.
  - now rewrite E, Hp.
  - unfold started, completed in *. rewrite Hlog, !filter_app.
    rewrite (quiet_start _ Hq), (quiet_invoke _ Hq), Ha. exact L3.
  - now rewrite Hlog, quiet_last_cycle_handle, Ht.
Qed.

Lemma nth_pause_next (n : nat) :
  Z.min (nth_pause n + PAUSE_STEP) PAUSE_MAX = nth_pause (S n).
Proof. unfold nth_pause, PAUSE_STEP, PAUSE_MAX, INITIAL_DELAY. lia. Qed.

Lemma Ledger_fresh : Ledger fresh.
Proof. constructor; reflexivity. Qed.

Lemma Ledger_scheduleCycle (s : Banner) : Ledger s -> Ledger (scheduleCycle s).
Proof.
  intros [L1 L2 L3 L4].
  assert (E : armed (log (host (scheduleCycle s))) = armed (log (host s)) ++ [nextPause s]).
  { cbn. now rewrite armed_cons. }
  constructor.
  - rewrite E, length_app, Nat.add_1_r, seq_S, map_app, <- L1. simpl. now rewrite L2.
  - rewrite E, length_app, Nat.add_1_r. cbn. rewrite L2. apply nth_pause_next.
  - exact L3.
  - reflexivity.
Qed.

Section LedgerSteps.

Variable random : nat -> R.
Variable devicePixelRatio : R.

Lemma Ledger_after_morph (s : Banner) :
  Ledger s -> Ledger (after_morph devicePixelRatio s).
Proof.
  apply (@Ledger_quiet
           (RequestAnimationFrame (nextFrame (host s))
            :: rev (ClearRect (canvasW (host s) / dpr devicePixelRatio)
                              (canvasH (host s) / dpr devicePixelRatio)
                    :: flat_map draw_cell (cells (physics_update s))))); try reflexivity.
  cbn [forallb quiet andb]. apply quiet_draw.
Qed.

Lemma Ledger_looped (cells1 : list Cell) (d1 : nat) (s : Banner) :
  Ledger s -> Ledger (looped cells1 d1 s).
Proof. apply (@Ledger_quiet []); reflexivity. Qed.

Lemma Ledger_finished (k : nat) (art : jsstring) (s : Banner) :
  active (morph s) = true -> Ledger s -> Ledger (finished devicePixelRatio k art s).
Proof.
  intros EA [L1 L2 L3 L4]. apply Ledger_scheduleCycle.
  constructor; cbn.
  - rewrite armed_cons, app_nil_r. exact L1.
  - rewrite armed_cons, app_nil_r. exact L2.
  - unfold started, completed in *. cbn. rewrite L3, EA. lia.
  - exact L4.
Qed.

Lemma Ledger_cycle (now : R) (s : Banner) :
  isMorphing s = active (morph s) ->
  Ledger s -> Ledger (state_of (cycle now s)).
Proof.
  intros Hf L. unfold cycle.
  destruct (isMorphing s) eqn:EM; cbn [orb]; [exact L|].
  destruct (hovering s); [exact L|].
  unfold startMorph. cbn [morph set_isMorphing]. rewrite <- Hf.
  destruct L as [L1 L2 L3 L4].
  destruct (nth_error _ _); cbn [state_of].
  - constructor; cbn.
    + rewrite armed_cons, app_nil_r. exact L1.
    + rewrite armed_cons, app_nil_r. exact L2.
    + unfold started, completed in *. cbn. rewrite L3, <- Hf. lia.
    + exact L4.
  - constructor; cbn; auto.
Qed.

Lemma Ledger_step (e : event) (s : Banner) :
  Inv s -> Ledger s -> Ledger (state_of (step random devicePixelRatio e s)).
Proof.
  intros I L. pose proof I as [Hm Hf Hd Ha]. destruct e; cbn [step state_of].
  - destruct (listening (host s)); [|exact L].
    apply (@Ledger_quiet [ClearTimeout (cycleTimer s)] s); auto.
  - destruct (listening (host s)); [|exact L].
    apply (@Ledger_quiet [] s); auto.
  - destruct (listening (host s)); [|exact L].
    assert (L1 : Ledger (set_mouse (-9999) (-9999) (set_hovering false s)))
      by (apply (@Ledger_quiet [] s); auto).
    unfold mouseleave.
    change (isMorphing (set_mouse (-9999) (-9999) (set_hovering false s)))
      with (isMorphing s).
    destruct (isMorphing s); [exact L1 | now apply Ledger_scheduleCycle].
  - unfold fire. destruct (find_timer h s) as [t|]; [|exact L].
    assert (L1 : Ledger (drop_timer h s)) by (apply (@Ledger_quiet [] s); auto).
    destruct (action t); cbn [state_of].
    + now apply Ledger_scheduleCycle.
    + now apply Ledger_cycle.
  - unfold frame. destruct (frames (host s)) as [|f rest]; [exact L|].
    set (s0 := set_host (set_frames rest (host s)) s).
    assert (L0 : Ledger s0) by (apply (@Ledger_quiet [] s); auto).
    assert (I0 : Inv s0) by (constructor; cbn; auto).
    destruct (active (morph s0)) eqn:EA.
    + destruct (inv_morph I0 EA) as (_ & _ & k & art & Hcb & Hart & _).
      destruct (Rleb 1 (progress_at timestamp (morph s0))) eqn:EP.
      * erewrite render_after by (apply morph_update_completing; eassumption).
        apply Ledger_after_morph, Ledger_finished; [exact EA|].
        now apply Ledger_looped.
      * erewrite render_after by (apply morph_update_running; eassumption).
        apply Ledger_after_morph. now apply Ledger_looped.
    + erewrite render_after by (apply morph_update_inactive; eassumption).
      now apply Ledger_after_morph.
  - apply (@Ledger_quiet [ClearTimeout (cycleTimer s); CancelAnimationFrame (rafId s)] s); auto.
Qed.

Lemma Ledger_run (es : list event) :
  forall s, Inv s -> Ledger s -> Ledger (run random devicePixelRatio es s).
Proof.
  induction es as [|e es IH]; intros s I L; simpl; auto.
  apply IH; [now apply Inv_step | now apply Ledger_step].
Qed.

Lemma Ledger_boot (arts : list (list jsstring)) (canvas : bool) (measured : R) :
  Ledger (state_of (boot random devicePixelRatio arts canvas measured)).
Proof.
  unfold boot, connectedCallback.
  destruct (negb canvas || Nat.eqb (length arts) 0)%bool; [apply Ledger_fresh|].
  cbn.
  destruct (index_Z arts _) as [style|]; cbn.
  2:{ constructor; reflexivity. }
  destruct style as [|art style]; cbn; constructor; reflexivity.
Qed.

Lemma Ledger_reachable (arts : list (list jsstring)) (canvas : bool) (measured : R)
      (es : list event) :
  Ledger (run random devicePixelRatio es
              (state_of (boot random devicePixelRatio arts canvas measured))).
Proof. apply Ledger_run; [apply Inv_boot | apply Ledger_boot]. Qed.

End LedgerSteps.

(** ** Numbers *)

Lemma Rleb_true (a b : R) : Rleb a b = true <-> a <= b.
Proof. unfold Rleb. destruct (Rle_dec a b); split; auto; discriminate. Qed.

Lemma Rleb_false (a b : R) : Rleb a b = false <-> b < a.
Proof. unfold Rleb. destruct (Rle_dec a b); split; try discriminate; auto; lra. Qed.

Lemma Rltb_true (a b : R) : Rltb a b = true <-> a < b.
Proof. unfold Rltb. destruct (Rlt_dec a b); split; auto; discriminate. Qed.

Lemma Rltb_false (a b : R) : Rltb a b = false <-> b <= a.
Proof. unfold Rltb. destruct (Rlt_dec a b); split; try discriminate; auto; lra. Qed.

Lemma threshold_of_bounds (c : Cell) : 0.15 <= threshold_of c <= 0.85.
Proof.
  unfold threshold_of.
  pose proof (SIN_bound (INR (row c) * 13.37 + INR (col c) * 7.13)). lra.
Qed.

Lemma floor_unit (r : R) (n : nat) :
  0 <= r < 1 -> (0 < n)%nat -> (0 <= floor (r * INR n) < Z.of_nat n)%Z.
Proof.
  intros Hr Hn. unfold floor.
  destruct (base_Int_part (r * INR n)) as [Hlo Hhi].
  assert (Hpos : 0 < INR n) by (apply lt_0_INR; exact Hn).
  assert (H0 : 0 <= r * INR n) by (apply Rmult_le_pos; lra).
  assert (H1 : r * INR n < INR n) by nra.
  split.
  - apply Z.lt_succ_r, lt_IZR. rewrite succ_IZR. lra.
  - apply lt_IZR. rewrite <- INR_IZR_INZ. lra.
Qed.

Lemma index_Z_in_range {A : Type} (xs : list A) (i : Z) :
  (0 <= i < Z.of_nat (length xs))%Z -> exists x, index_Z xs i = Some x /\ In x xs.
Proof.
  intros H. unfold index_Z.
  destruct (nth_error xs (Z.to_nat i)) as [x|] eqn:E.
  - exists x. split; [destruct i; auto; lia | eapply nth_error_In; eauto].
  - apply nth_error_None in E. lia.
Qed.

Lemma glitch_glyph_in (r : R) :
  0 <= r < 1 -> exists u, In u GLITCH_CHARS /\ glitch_glyph r = [u].
Proof.
  intros Hr. unfold glitch_glyph.
  destruct (@index_Z_in_range _ GLITCH_CHARS (floor (r * INR (length GLITCH_CHARS))))
    as (u & -> & Hin).
  - apply floor_unit; [exact Hr | vm_compute; lia].
  - eauto.
Qed.

(** ** The running example *)

Lemma connectedCallback_attached (random : nat -> R) (devicePixelRatio : R)
      (arts : list (list jsstring)) (style : list jsstring) (measured : R) (s : Banner) :
  arts <> [] ->
  index_Z arts (floor (random (draws (host s)) * INR (length arts))) = Some style ->
  connectedCallback random devicePixelRatio arts true measured s
  = attached random devicePixelRatio style measured s.
Proof.
  intros Hne Hstyle. unfold connectedCallback, attached.
  replace (negb true || Nat.eqb (length arts) 0)%bool with false
    by (destruct arts; [congruence | reflexivity]).
  change (Math_random random (set_charWidth measured s))
    with (random (draws (host s)),
          set_host (set_draws (S (draws (host s))) (host s)) (set_charWidth measured s)).
  cbv iota beta. rewrite Hstyle. reflexivity.
Qed.

Lemma rnd0_range : forall n, 0 <= rnd0 n < 1.
Proof. intros n. unfold rnd0. lra. Qed.

Lemma demo_boot_attached :
  boot rnd0 1 demo_arts true 8 = attached rnd0 1 [square; target] 8 fresh.
Proof.
  unfold boot. apply connectedCallback_attached; [discriminate|].
  destruct (@index_Z_in_range _ demo_arts (floor (rnd0 (draws (host fresh)) * INR (length demo_arts))))
    as (x & E & Hin).
  - apply floor_unit; [apply rnd0_range | simpl; lia].
  - rewrite E. destruct Hin as [<- | []]. reflexivity.
Qed.

Lemma demo_morphing_active : active (morph demo_morphing) = true.
Proof. unfold demo_morphing, demo_boot. rewrite demo_boot_attached. reflexivity. Qed.

(** ** Morph controller *)

Lemma map_eq_nth {A B C : Type} (f : A -> C) (g : B -> C) :
  forall (l1 : list A) (l2 : list B),
    length l1 = length l2 ->
    (forall i a b, nth_error l1 i = Some a -> nth_error l2 i = Some b -> f a = g b) ->
    map f l1 = map g l2.
Proof.
  induction l1 as [|a l1 IH]; intros [|b l2] Hlen H; simpl in *; try discriminate;
    [reflexivity|].
  f_equal.
  - apply (H 0%nat); reflexivity.
  - apply IH; [lia|]. intros i. apply (H (S i)).
Qed.

Lemma nth_error_defined {A : Type} (l : list A) (i : nat) :
  (i < length l)%nat -> exists x, nth_error l i = Some x.
Proof.
  intros H. destruct (nth_error l i) eqn:E; [eauto|].
  apply nth_error_None in E. lia.
Qed.

Lemma char_physics (mx my : R) (c : Cell) : char (physics mx my c) = char c.
Proof. unfold physics. destruct (_ && _)%bool; reflexivity. Qed.

Lemma geometry_physics (mx my : R) (c : Cell) : geometry (physics mx my c) = geometry c.
Proof. unfold physics, geometry. destruct (_ && _)%bool; reflexivity. Qed.

Lemma toChar_target (m : Morph) (art : jsstring) (c : Cell) :
  toLines m = map array_from (split_nl art) ->
  toChar_at m c = target_glyph art c.
Proof.
  intros E. unfold toChar_at, target_glyph, glyph_at. rewrite E, nth_error_map.
  destruct (nth_error (split_nl art) (row c)); reflexivity.
Qed.

(** What [startMorph] records when it does start. *)
Lemma startMorph_starts (t : jsstring) (cb : callback) (now : R) (s : Banner) :
  active (morph s) = false ->
  exists s1, startMorph (Some t) cb now s = Returned s1
             /\ active (morph s1) = true
             /\ startTime (morph s1) = now
             /\ fromSnap (morph s1) = cells s
             /\ toLines (morph s1) = map array_from (split_nl t)
             /\ thresholds (morph s1) = map threshold_of (cells s)
             /\ onComplete (morph s1) = Some cb
             /\ cells s1 = cells s.
Proof.
  intros E. unfold startMorph. rewrite E. eexists. split; [reflexivity|].
  cbn. rewrite map_id. repeat split; reflexivity.
Qed.

Section MorphFrame.

Variable random : nat -> R.
Variable devicePixelRatio : R.
Hypothesis random_range : forall n, 0 <= random n < 1.

(** The three-way rule, pointwise, against the clamped progress. *)
Lemma morph_loop_glyphs (ts : R) (s : Banner) :
  Inv s -> active (morph s) = true ->
  let m := morph s in
  let p := clamp ((ts - startTime m) / duration m) 0 1 in
  length (fst (morph_loop random ts s)) = length (cells s)
  /\ forall i c, nth_error (cells s) i = Some c ->
       exists g snap,
         nth_error (fst (morph_loop random ts s)) i = Some (with_char g c)
         /\ nth_error (thresholds m) i = Some (threshold_of c)
         /\ nth_error (fromSnap m) i = Some snap
         /\ (threshold_of c <= p -> g = toChar_at m c)
         /\ (threshold_of c * 0.3 < p < threshold_of c ->
             exists u, In u GLITCH_CHARS /\ g = [u])
         /\ (p <= threshold_of c * 0.3 -> g = char snap).
Proof.
  intros I EA m p.
  destruct (inv_morph I EA) as (Hthr & Hlen & _).
  destruct (morph_loop_spec random ts s) as (l' & d' & E & Hlen' & _ & Hnth).
  rewrite E. cbn [fst]. split; [exact Hlen'|].
  intros i c Hc.
  destruct (Hnth i c Hc) as (g & Hg & Hrule).
  assert (Ht : nth_error (thresholds m) i = Some (threshold_of c)).
  { unfold m. rewrite Hthr. now apply map_nth_error. }
  destruct (@nth_error_defined _ (fromSnap m) i) as (snap & Hsnap).
  { unfold m. rewrite Hlen. apply nth_error_Some. congruence. }
  exists g, snap. repeat split; auto.
  all: pose proof (threshold_of_bounds c) as Hb.
  all: unfold glyph_rule in Hrule; fold m in Hrule; rewrite Ht in Hrule.
  all: cbn [resolved glitching] in Hrule.
  all: unfold p, clamp; unfold progress_at in Hrule; fold m in Hrule.
  all: set (x := (ts - startTime m) / duration m) in *.
  all: destruct (Rleb (threshold_of c) (Rmin x 1)) eqn:E1;
    [apply Rleb_true in E1 | apply Rleb_false in E1].
  all: try (destruct (Rltb (threshold_of c * 0.3) (Rmin x 1)) eqn:E2;
    [apply Rltb_true in E2 | apply Rltb_false in E2]).
  all: intros Hp; auto.
  all: try (exfalso; revert Hp E1; try revert E2; unfold Rmax, Rmin;
            repeat destruct (Rle_dec _ _); lra).
  - destruct Hrule as (d & ->). now apply glitch_glyph_in.
  - unfold fromChar_at in Hrule. fold m in Hrule. now rewrite Hsnap in Hrule.
Qed.

Lemma morph_loop_from_draws (m : Morph) (p : R) (l : list Cell) :
  forall i out d,
    (forall j c, nth_error l j = Some c ->
                 nth_error (thresholds m) (i + j) = Some (threshold_of c)) ->
    snd (forEach_from (morph_cell random m p) i l (out, d))
    = (d + length (filter (glitches p) l))%nat.
Proof.
  induction l as [|c l IH]; intros i out d H; [cbn; lia|].
  cbn [forEach_from filter].
  pose proof (H 0%nat c eq_refl) as Hc. rewrite Nat.add_0_r in Hc.
  assert (Hl : forall j c0, nth_error l j = Some c0 ->
                 nth_error (thresholds m) (S i + j) = Some (threshold_of c0)).
  { intros j c0 Hj. specialize (H (S j) c0 Hj). now rewrite Nat.add_succ_r in H. }
  unfold morph_cell at 2. rewrite Hc. unfold glitches at 1. cbn [resolved glitching].
  destruct (Rleb (threshold_of c) p); cbn [negb andb].
  - now apply IH.
  - destruct (Rltb (threshold_of c * 0.3) p); rewrite IH by exact Hl; cbn [length]; lia.
Qed.

Lemma morph_loop_draws (ts : R) (s : Banner) :
  Inv s -> active (morph s) = true ->
  snd (morph_loop random ts s)
  = (draws (host s)
     + length (filter (glitches (progress_at ts (morph s))) (cells s)))%nat.
Proof.
  intros I EA. destruct (inv_morph I EA) as (Hthr & _).
  unfold morph_loop, forEach. apply morph_loop_from_draws.
  intros j c Hj. rewrite Hthr. cbn. now apply map_nth_error.
Qed.

(** The glyph the loop gives the cell at index [j]: which branch is
    taken, and for a glitching cell which number of the random stream its
    character comes from. *)
Lemma morph_loop_from_exact (m : Morph) (p : R) (l : list Cell) :
  forall i out d,
    (forall j c, nth_error l j = Some c ->
                 nth_error (thresholds m) (i + j) = Some (threshold_of c)) ->
    forall j c, nth_error l j = Some c ->
      nth_error (fst (forEach_from (morph_cell random m p) i l (out, d)))
                (length out + j)
      = Some (with_char
                (if Rleb (threshold_of c) p then toChar_at m c
                 else if Rltb (threshold_of c * 0.3) p
                      then glitch_glyph (random (d + draw_rank p l j))
                      else fromChar_at m (i + j)) c).
Proof.
  induction l as [|c0 l IH]; intros i out d H j c Hj; [destruct j; discriminate|].
  cbn [forEach_from].
  pose proof (H 0%nat c0 eq_refl) as Hc0. rewrite Nat.add_0_r in Hc0.
  assert (Hl : forall j c1, nth_error l j = Some c1 ->
                 nth_error (thresholds m) (S i + j) = Some (threshold_of c1)).
  { intros j1 c1 Hj1. specialize (H (S j1) c1 Hj1). now rewrite Nat.add_succ_r in H. }
  assert (Hstep : morph_cell random m p c0 i (out, d)
                  = (out ++ [with_char
                               (if Rleb (threshold_of c0) p then toChar_at m c0
                                else if Rltb (threshold_of c0 * 0.3) p
                                     then glitch_glyph (random d)
                                     else fromChar_at m i) c0],
                     (d + length (filter (glitches p) [c0]))%nat)).
  { unfold morph_cell. rewrite Hc0. cbn [resolved glitching filter]. unfold glitches.
    destruct (Rleb (threshold_of c0) p); cbn [negb andb length];
      [now rewrite Nat.add_0_r|].
    destruct (Rltb (threshold_of c0 * 0.3) p); cbn [length];
      [now rewrite Nat.add_1_r | now rewrite Nat.add_0_r]. }
  rewrite Hstep. destruct j as [|j].
  - cbn in Hj. injection Hj as <-.
    destruct (morph_loop_from_spec random m p l (S i)
                (out ++ [with_char
                           (if Rleb (threshold_of c0) p then toChar_at m c0
                            else if Rltb (threshold_of c0 * 0.3) p
                                 then glitch_glyph (random d)
                                 else fromChar_at m i) c0])
                (d + length (filter (glitches p) [c0]))%nat)
      as (l' & d' & E & _).
    rewrite E. cbn [fst]. rewrite Nat.add_0_r, <- app_assoc.
    rewrite nth_error_app2 by lia. rewrite Nat.sub_diag.
    unfold draw_rank. cbn [firstn filter length]. now rewrite !Nat.add_0_r.
  - cbn in Hj.
    specialize (IH (S i) (out ++ [with_char
                           (if Rleb (threshold_of c0) p then toChar_at m c0
                            else if Rltb (threshold_of c0 * 0.3) p
                                 then glitch_glyph (random d)
                                 else fromChar_at m i) c0])
                   (d + length (filter (glitches p) [c0]))%nat Hl j c Hj).
    rewrite length_app in IH. cbn [length] in IH.
    replace (length out + S j)%nat with (length out + 1 + j)%nat by lia.
    replace (d + length (filter (glitches p) [c0]) + draw_rank p l j)%nat
      with (d + draw_rank p (c0 :: l) (S j))%nat in IH
      by (unfold draw_rank; cbn [firstn filter];
          destruct (glitches p c0); cbn [length]; lia).
    replace (S i + j)%nat with (i + S j)%nat in IH by lia.
    exact IH.
Qed.

Lemma morph_loop_exact (ts : R) (s : Banner) :
  Inv s -> active (morph s) = true ->
  let m := morph s in
  let p := progress_at ts m in
  forall j c, nth_error (cells s) j = Some c ->
    nth_error (fst (morph_loop random ts s)) j
    = Some (with_char
              (if Rleb (threshold_of c) p then toChar_at m c
               else if Rltb (threshold_of c * 0.3) p
                    then glitch_glyph
                           (random (draws (host s) + draw_rank p (cells s) j))
                    else fromChar_at m j) c).
Proof.
  intros I EA m p j c Hj. destruct (inv_morph I EA) as (Hthr & _).
  unfold morph_loop, forEach.
  apply (@morph_loop_from_exact m p (cells s) 0 [] (draws (host s))); [|exact Hj].
  intros j0 c0 Hj0. unfold m. rewrite Hthr. cbn. now apply map_nth_error.
Qed.

(** Glitching cells take the numbers of the stream in order: a later one
    never shares its number with an earlier one. *)
Lemma draw_rank_lt (p : R) (l : list Cell) (i j : nat) (c : Cell) :
  (i < j)%nat -> nth_error l i = Some c -> glitches p c = true ->
  (draw_rank p l i < draw_rank p l j)%nat.
Proof.
  intros Hij Hc Hg. unfold draw_rank.
  replace j with (S i + (j - S i))%nat by lia.
  assert (E : forall k, firstn (S i + k) l
                        = firstn i l ++ c :: firstn k (skipn (S i) l)).
  { clear Hij. revert l Hc. induction i as [|i IH]; intros [|x l] Hc k;
      try discriminate.
    - cbn in Hc. injection Hc as ->. reflexivity.
    - cbn in Hc. cbn [Nat.add firstn skipn app]. f_equal. now apply IH. }
  rewrite E, filter_app, length_app. cbn [filter]. rewrite Hg. cbn [length]. lia.
Qed.

(** The character [glitch_glyph] picks: the one at index
    [floor (r * length)] of the glitch alphabet. *)
Lemma glitch_glyph_exact (r : R) :
  0 <= r < 1 ->
  exists u,
    nth_error GLITCH_CHARS (Z.to_nat (floor (r * INR (length GLITCH_CHARS)))) = Some u
    /\ glitch_glyph r = [u].
Proof.
  intros Hr. unfold glitch_glyph.
  destruct (@floor_unit r (length GLITCH_CHARS) Hr) as (H0 & H1); [vm_compute; lia|].
  destruct (@index_Z_in_range _ GLITCH_CHARS (floor (r * INR (length GLITCH_CHARS))))
    as (u & E & _); [split; assumption|].
  rewrite E. exists u. split; [|reflexivity].
  unfold index_Z in E.
  destruct (floor (r * INR (length GLITCH_CHARS))); [exact E | exact E | lia].
Qed.

End MorphFrame.

Lemma progress_clamp_lt (x : R) : clamp x 0 1 < 1 -> Rleb 1 (Rmin x 1) = false.
Proof.
  intros H. apply Rleb_false. revert H. unfold clamp, Rmax, Rmin.
  repeat destruct (Rle_dec _ _); lra.
Qed.

Lemma progress_clamp_one (x : R) : clamp x 0 1 = 1 -> Rleb 1 (Rmin x 1) = true.
Proof.
  intros H. apply Rleb_true. revert H. unfold clamp, Rmax, Rmin.
  repeat destruct (Rle_dec _ _); lra.
Qed.

(** C2: the per-frame glyph rule of an active morph.  With
    p = clamp((now - startTime) / duration, 0, 1), the loop of the frame
    gives every cell the target glyph when p >= threshold, the snapshot
    glyph when p <= threshold * 0.3, and in between a character chosen by
    a call of [Math.random] of its own: the character at index
    floor(r * 40) of the glitch alphabet, where r is the next unused number
    of the random stream (the number whose position is the count of calls
    made before the frame plus the count of glitching cells before this
    one), so that no two glitching cells share a number and the next frame
    starts after the numbers this one used.  At p = 0 the glyphs are the
    snapshot, at p = 1 they are the target block (blank where the target
    has no such position), and the frame that reaches p = 1 ends with the
    grid of the target block. *)
Theorem C2_morph_frame_rule (random : nat -> R) (devicePixelRatio : R)
        (arts : list (list jsstring)) (canvas : bool) (measured : R)
        (es : list event) (ts : R) :
  (forall n, 0 <= random n < 1) ->
  let s := run random devicePixelRatio es
               (state_of (boot random devicePixelRatio arts canvas measured)) in
  active (morph s) = true ->
  let m := morph s in
  let p := clamp ((ts - startTime m) / duration m) 0 1 in
  let shown := fst (morph_loop random ts s) in
  let glitching := glitches (progress_at ts m) in
  let number := fun i => (draws (host s) + draw_rank (progress_at ts m) (cells s) i)%nat in
  exists k art,
    duration m = 600
    /\ onComplete m = Some (CycleDone k)
    /\ nth_error (fontArts s) k = Some art
    /\ length shown = length (cells s)
    /\ (forall i c, nth_error (cells s) i = Some c ->
          exists g snap,
            nth_error shown i = Some (with_char g c)
            /\ nth_error (thresholds m) i = Some (threshold_of c)
            /\ nth_error (fromSnap m) i = Some snap
            /\ (threshold_of c <= p -> g = target_glyph art c)
            /\ (threshold_of c * 0.3 < p < threshold_of c ->
                glitching c = true
                /\ g = glitch_glyph (random (number i))
                /\ exists u,
                     nth_error GLITCH_CHARS
                       (Z.to_nat (floor (random (number i)
                                         * INR (length GLITCH_CHARS)))) = Some u
                     /\ In u GLITCH_CHARS /\ g = [u])
            /\ (p <= threshold_of c * 0.3 -> g = char snap))
    /\ length GLITCH_CHARS = 40%nat
    /\ (forall i j c, (i < j)%nat -> nth_error (cells s) i = Some c ->
                      glitching c = true -> (number i < number j)%nat)
    /\ snd (morph_loop random ts s) = number (length (cells s))
    /\ number (length (cells s))
       = (draws (host s) + length (filter glitching (cells s)))%nat
    /\ (p = 0 -> map char shown = map char (fromSnap m))
    /\ (p = 1 -> map char shown = map (target_glyph art) (cells s))
    /\ (p < 1 ->
        exists s', render random devicePixelRatio ts s = Returned s'
                   /\ active (morph s') = true
                   /\ map char (cells s') = map char shown
                   /\ draws (host s') = number (length (cells s)))
    /\ (p = 1 ->
        exists s', render random devicePixelRatio ts s = Returned s'
                   /\ active (morph s') = false
                   /\ map char (cells s') = map char (buildGrid (charWidth s) art)
                   /\ forall c, In c (cells s') -> char c <> blank ->
                        In (FillText (char c) (px c) (py c)) (log (host s')))
    /\ (forall s0 t cb now,
          active (morph s0) = false ->
          exists s1, startMorph (Some t) cb now s0 = Returned s1
                     /\ startTime (morph s1) = now
                     /\ fromSnap (morph s1) = cells s0
                     /\ toLines (morph s1) = map array_from (split_nl t)).
Proof.
  intros Hrandom s EA m p shown glitching number.
  assert (I : Inv s) by apply Inv_reachable.
  destruct (inv_morph I EA) as (Hthr & Hlen & k & art & Hcb & Hart & Hto).
  destruct (@morph_loop_glyphs random Hrandom ts s I EA) as (Hlen' & Hrule).
  fold m p shown in Hlen', Hrule.
  pose proof (morph_loop_exact random ts I EA) as Hexact.
  cbv zeta in Hexact. fold m shown in Hexact.
  assert (Hall : number (length (cells s))
                 = (draws (host s) + length (filter glitching (cells s)))%nat).
  { unfold number, draw_rank. now rewrite firstn_all. }
  assert (Hdraws : snd (morph_loop random ts s) = number (length (cells s))).
  { rewrite Hall. apply (morph_loop_draws random ts I EA). }
  assert (Hpoint : forall i c, nth_error (cells s) i = Some c ->
            exists g snap,
              nth_error shown i = Some (with_char g c)
              /\ nth_error (thresholds m) i = Some (threshold_of c)
              /\ nth_error (fromSnap m) i = Some snap
              /\ (threshold_of c <= p -> g = target_glyph art c)
              /\ (threshold_of c * 0.3 < p < threshold_of c ->
                  glitching c = true
                  /\ g = glitch_glyph (random (number i))
                  /\ exists u,
                       nth_error GLITCH_CHARS
                         (Z.to_nat (floor (random (number i)
                                           * INR (length GLITCH_CHARS)))) = Some u
                       /\ In u GLITCH_CHARS /\ g = [u])
              /\ (p <= threshold_of c * 0.3 -> g = char snap)).
  { intros i c Hc. destruct (Hrule i c Hc) as (g & snap & H1 & H2 & H3 & H4 & H5 & H6).
    exists g, snap. repeat split; auto.
    - intros Hp. rewrite <- (toChar_target m art c Hto). auto.
    - destruct H as (Hlo & Hhi). pose proof (threshold_of_bounds c) as Hb.
      unfold glitching, glitches.
      replace (Rleb (threshold_of c) (progress_at ts m)) with false; [cbn|].
      + apply Rltb_true. revert Hlo. unfold p, progress_at, clamp, Rmax, Rmin.
        repeat destruct (Rle_dec _ _); lra.
      + symmetry. apply Rleb_false. revert Hhi Hlo.
        unfold p, progress_at, clamp, Rmax, Rmin.
        repeat destruct (Rle_dec _ _); lra.
    - destruct H as (Hlo & Hhi). pose proof (threshold_of_bounds c) as Hb.
      pose proof (Hexact i c Hc) as Hx. rewrite H1 in Hx.
      replace (Rleb (threshold_of c) (progress_at ts m)) with false in Hx.
      2:{ symmetry. apply Rleb_false. revert Hhi Hlo.
          unfold p, progress_at, clamp, Rmax, Rmin.
          repeat destruct (Rle_dec _ _); lra. }
      replace (Rltb (threshold_of c * 0.3) (progress_at ts m)) with true in Hx.
      2:{ symmetry. apply Rltb_true. revert Hlo.
          unfold p, progress_at, clamp, Rmax, Rmin.
          repeat destruct (Rle_dec _ _); lra. }
      injection Hx as Hx. exact Hx.
    - destruct H as (Hlo & Hhi). pose proof (threshold_of_bounds c) as Hb.
      pose proof (Hexact i c Hc) as Hx. rewrite H1 in Hx.
      replace (Rleb (threshold_of c) (progress_at ts m)) with false in Hx.
      2:{ symmetry. apply Rleb_false. revert Hhi Hlo.
          unfold p, progress_at, clamp, Rmax, Rmin.
          repeat destruct (Rle_dec _ _); lra. }
      replace (Rltb (threshold_of c * 0.3) (progress_at ts m)) with true in Hx.
      2:{ symmetry. apply Rltb_true. revert Hlo.
          unfold p, progress_at, clamp, Rmax, Rmin.
          repeat destruct (Rle_dec _ _); lra. }
      injection Hx as Hx.
      destruct (glitch_glyph_exact (Hrandom (number i))) as (u & Hu & Hg).
      exists u. split; [exact Hu|]. split; [eapply nth_error_In; exact Hu|].
      now rewrite Hx. }
  exists k, art.
  split; [apply (inv_duration I)|]. split; [exact Hcb|]. split; [exact Hart|].
  split; [exact Hlen'|]. split; [exact Hpoint|]. split; [reflexivity|].
  split.
  { intros i j c Hij Hc Hg. unfold number.
    pose proof (@draw_rank_lt (progress_at ts m) (cells s) i j c Hij Hc Hg). lia. }
  split; [exact Hdraws|]. split; [exact Hall|].
  split; [|split; [|split; [|split]]].
  - intros Hp. apply map_eq_nth; [unfold m; lia|].
    intros i c' snap' Hc' Hsnap'.
    destruct (@nth_error_defined _ (cells s) i) as (c & Hc).
    { rewrite <- Hlen'. apply nth_error_Some. congruence. }
    destruct (Hpoint i c Hc) as (g & snap & H1 & _ & H3 & _ & _ & H6).
    pose proof (threshold_of_bounds c).
    assert (c' = with_char g c) by congruence. assert (snap' = snap) by congruence.
    subst c' snap'. cbn. apply H6. lra.
  - intros Hp. apply map_eq_nth; [exact Hlen'|].
    intros i c' c0 Hc' Hc.
    destruct (Hpoint i c0 Hc) as (g & snap & H1 & _ & _ & H4 & _ & _).
    pose proof (threshold_of_bounds c0).
    assert (c' = with_char g c0) by congruence. subst c'. cbn. apply H4. lra.
  - intros Hp. eexists. split.
    + apply render_after, morph_update_running; [exact EA|].
      unfold progress_at. now apply progress_clamp_lt.
    + split; [exact EA|]. split.
      * cbn. rewrite map_map. apply map_ext. intros c. apply char_physics.
      * rewrite <- Hdraws. reflexivity.
  - intros Hp. eexists. split.
    + apply render_after. apply (@morph_update_completing random devicePixelRatio ts s k art); auto.
      unfold progress_at. now apply progress_clamp_one.
    + split; [reflexivity|]. split.
      * cbn. rewrite map_map. apply map_ext. intros c. apply char_physics.
      * intros c. apply after_morph_draws.
  - intros s0 t cb now E.
    destruct (startMorph_starts t cb now s0 E) as (s1 & H1 & _ & H2 & H3 & H4 & _).
    eauto 6.
Qed.

Lemma rnd1_range : forall n, 0 <= rnd1 n < 1.
Proof.
  intros n. unfold rnd1.
  pose proof (pos_INR (n mod 4)) as H0.
  assert (H1 : INR (n mod 4) < INR 4).
  { apply lt_INR. apply Nat.mod_upper_bound. discriminate. }
  change (INR 4) with (1 + 1 + 1 + 1) in H1. lra.
Qed.

Lemma glitch_boot_attached :
  boot rnd1 1 demo_arts true 8 = attached rnd1 1 [square; target] 8 fresh.
Proof.
  unfold boot. apply connectedCallback_attached; [discriminate|].
  destruct (@index_Z_in_range _ demo_arts (floor (rnd1 (draws (host fresh)) * INR (length demo_arts))))
    as (x & E & Hin).
  - apply floor_unit; [apply rnd1_range | simpl; lia].
  - rewrite E. destruct Hin as [<- | []]. reflexivity.
Qed.

Lemma glitch_demo_active : active (morph glitch_demo) = true.
Proof. unfold glitch_demo. rewrite glitch_boot_attached. reflexivity. Qed.

Lemma floor_eq (x : R) (n : Z) : IZR n <= x < IZR n + 1 -> floor x = n.
Proof. intros H. unfold floor. symmetry. apply Int_part_spec. lra. Qed.

Lemma C2_morph_demo_witness :
  (exists s', render rnd0 1 4600 demo_morphing = Returned s'
              /\ active (morph s') = false
              /\ map char (cells s') = [lit "X"; lit "Y"; lit "Z"; lit "W"])
  /\ nth_error (map char (fst (morph_loop rnd1 4180 glitch_demo))) 0
     = Some (lit "_").
Proof.
  split.
  - destruct (@C2_morph_frame_rule rnd0 1 demo_arts true 8
                [TimerFire 1 2000; TimerFire 2 4000] 4600 rnd0_range demo_morphing_active)
      as (k & art & _ & Hcb & Hart & _ & _ & _ & _ & _ & _ & _ & _ & _ & Hdone & _).
    fold demo_boot in Hcb, Hart, Hdone. fold demo_morphing in Hcb, Hart, Hdone.
    assert (Ek : k = 1%nat).
    { revert Hcb. unfold demo_morphing, demo_boot. rewrite demo_boot_attached.
      cbn. intros H. now injection H. }
    subst k.
    assert (Ea : art = target).
    { revert Hart. unfold demo_morphing, demo_boot. rewrite demo_boot_attached.
      cbn. intros H. now injection H. }
    subst art.
    destruct Hdone as (s' & Hr & Ha & Hc & _).
    + unfold demo_morphing, demo_boot. rewrite demo_boot_attached. cbn.
      unfold clamp, Rmax, Rmin. repeat destruct (Rle_dec _ _); lra.
    + exists s'. split; [exact Hr|]. split; [exact Ha|]. rewrite Hc. reflexivity.
  - destruct (@C2_morph_frame_rule rnd1 1 demo_arts true 8
                [TimerFire 1 2000; TimerFire 2 4000] 4180 rnd1_range glitch_demo_active)
      as (k & art & _ & _ & _ & _ & Hpoint & _).
    fold glitch_demo in Hpoint.
    assert (Hc : nth_error (cells glitch_demo) 0 = Some (restCell 8 (lit "A") 0 0)).
    { unfold glitch_demo. rewrite glitch_boot_attached. reflexivity. }
    destruct (Hpoint 0%nat _ Hc) as (g & snap & H1 & _ & _ & _ & Hg & _).
    assert (Et : threshold_of (restCell 8 (lit "A") 0 0) = 0.5).
    { unfold threshold_of. cbn [row col restCell INR].
      replace (0 * 13.37 + 0 * 7.13) with 0 by lra. rewrite sin_0. lra. }
    assert (Es : startTime (morph glitch_demo) = 4000).
    { unfold glitch_demo. rewrite glitch_boot_attached. reflexivity. }
    assert (Ed : duration (morph glitch_demo) = 600).
    { unfold glitch_demo. rewrite glitch_boot_attached. reflexivity. }
    assert (En : draws (host glitch_demo) = 1%nat).
    { unfold glitch_demo. rewrite glitch_boot_attached. reflexivity. }
    rewrite Et, Es, Ed, En in Hg.
    destruct Hg as (_ & _ & u & Hu & _ & Eg).
    { unfold clamp, Rmax, Rmin. repeat destruct (Rle_dec _ _); lra. }
    assert (Ef : floor (rnd1 (1 + draw_rank (progress_at 4180 (morph glitch_demo))
                                    (cells glitch_demo) 0)
                        * INR (length GLITCH_CHARS)) = 10%Z).
    { apply floor_eq. unfold draw_rank, rnd1. cbn [firstn filter length Nat.add].
      replace (length GLITCH_CHARS) with 40%nat by reflexivity.
      rewrite (INR_IZR_INZ 40). change (1 mod 4)%nat with 1%nat.
      cbn [INR Z.of_nat Pos.of_succ_nat Pos.succ]. lra. }
    rewrite Ef in Hu. vm_compute in Hu. injection Hu as <-.
    rewrite (map_nth_error char _ _ H1). cbn [char with_char]. now rewrite Eg.
Defined.

(** ** The cases of a morph update *)

Section Cases.

Variable random : nat -> R.
Variable devicePixelRatio : R.

Lemma morph_update_cases (ts : R) (s : Banner) :
  Inv s ->
  let cells1 := fst (morph_loop random ts s) in
  let d1 := snd (morph_loop random ts s) in
  (active (morph s) = false
   /\ morph_update random devicePixelRatio ts s = Returned s)
  \/ (active (morph s) = true
      /\ progress_at ts (morph s) < 1
      /\ morph_update random devicePixelRatio ts s = Returned (looped cells1 d1 s))
  \/ (active (morph s) = true
      /\ 1 <= progress_at ts (morph s)
      /\ exists k art,
           onComplete (morph s) = Some (CycleDone k)
           /\ nth_error (fontArts s) k = Some art
           /\ toLines (morph s) = map array_from (split_nl art)
           /\ morph_update random devicePixelRatio ts s
              = Returned (finished devicePixelRatio k art (looped cells1 d1 s))).
Proof.
  intros I cells1 d1.
  destruct (active (morph s)) eqn:EA.
  - right. destruct (inv_morph I EA) as (_ & _ & k & art & Hcb & Hart & Hto).
    destruct (Rleb 1 (progress_at ts (morph s))) eqn:EP.
    + right. split; [reflexivity|]. split; [now apply Rleb_true|].
      exists k, art. repeat split; auto. now apply morph_update_completing.
    + left. split; [reflexivity|]. split; [now apply Rleb_false|].
      now apply morph_update_running.
  - left. split; [reflexivity|]. now apply morph_update_inactive.
Qed.

(** In a reachable state no handler throws. *)
Lemma step_returns (e : event) (s : Banner) :
  Inv s -> exists s', step random devicePixelRatio e s = Returned s'.
Proof.
  intros I. pose proof I as [Hm Hf Hd Ha]. destruct e; cbn [step]; eauto.
  - unfold fire. destruct (find_timer h s) as [t|] eqn:E; eauto.
    destruct (action t); eauto.
    unfold cycle. cbn [isMorphing hovering drop_timer set_host].
    destruct (isMorphing s || hovering s)%bool eqn:EG; eauto.
    apply orb_false_elim in EG. destruct EG as [EM EH].
    unfold startMorph. cbn [morph set_isMorphing drop_timer set_host].
    rewrite <- Hf, EM.
    assert (Hne : fontArts s <> []).
    { apply Ha. left. unfold find_timer in E. now apply find_nonempty in E. }
    destruct (mod_index_in_range (currentTextIndex s + 1) Hne) as (art & Hart).
    cbn [fontArts currentTextIndex set_isMorphing drop_timer set_host].
    rewrite Hart. eauto.
  - unfold frame. destruct (frames (host s)) as [|f rest]; eauto.
    set (s0 := set_host (set_frames rest (host s)) s).
    assert (I0 : Inv s0) by (constructor; cbn; auto).
    destruct (morph_update_cases timestamp I0)
      as [(_ & E) | [(_ & _ & E) | (_ & _ & k & art & _ & _ & _ & E)]];
      erewrite render_after by exact E; eauto.
Qed.

End Cases.

(** ** Pointer physics *)

Lemma physics_repel (mx my : R) (c : Cell) :
  let c' := physics mx my c in
  let ix := fst (repel mx my (rx c) (ry c)) in
  let iy := snd (repel mx my (rx c) (ry c)) in
  vx c' = (vx c + ix + SPRING_K * (rx c - px c)) * DAMPING
  /\ vy c' = (vy c + iy + SPRING_K * (ry c - py c)) * DAMPING
  /\ px c' = px c + vx c'
  /\ py c' = py c + vy c'
  /\ geometry c' = geometry c
  /\ char c' = char c.
Proof.
  unfold physics, repel. rewrite (andb_comm (Rltb 0 _)).
  destruct (Rltb _ REPEL_RADIUS && Rltb 0 _)%bool; cbn;
    repeat split; unfold Rdiv; ring.
Qed.

Lemma repel_inside (mx my x y : R) :
  let d := sqrt ((x - mx) * (x - mx) + (y - my) * (y - my)) in
  let ix := fst (repel mx my x y) in
  let iy := snd (repel mx my x y) in
  0 < d < REPEL_RADIUS ->
  let magnitude := REPEL_FORCE * (1 - d / REPEL_RADIUS) in
  0 < magnitude < REPEL_FORCE
  /\ sqrt (ix * ix + iy * iy) = magnitude
  /\ 0 < magnitude / d
  /\ ix = magnitude / d * (x - mx)
  /\ iy = magnitude / d * (y - my).
Proof.
  intros d ix iy Hd magnitude.
  assert (Hm : 0 < magnitude < REPEL_FORCE).
  { unfold magnitude, REPEL_FORCE, REPEL_RADIUS in *.
    lra. }
  assert (Hsq : d * d = (x - mx) * (x - mx) + (y - my) * (y - my)).
  { unfold d. apply sqrt_sqrt.
    pose proof (Rle_0_sqr (x - mx)). pose proof (Rle_0_sqr (y - my)).
    unfold Rsqr in *. lra. }
  assert (E : repel mx my x y = (magnitude * ((x - mx) / d), magnitude * ((y - my) / d))).
  { unfold repel. fold d.
    replace (Rltb 0 d) with true by (symmetry; apply Rltb_true; lra).
    replace (Rltb d REPEL_RADIUS) with true by (symmetry; apply Rltb_true; lra).
    reflexivity. }
  unfold ix, iy. rewrite E. cbn [fst snd].
  split; [exact Hm|]. split; [|split; [|split]].
  - replace (magnitude * ((x - mx) / d) * (magnitude * ((x - mx) / d))
             + magnitude * ((y - my) / d) * (magnitude * ((y - my) / d)))
      with (magnitude * magnitude).
    + apply sqrt_square. lra.
    + transitivity (magnitude * magnitude
                    * (((x - mx) * (x - mx) + (y - my) * (y - my)) / (d * d))).
      * rewrite <- Hsq. field. lra.
      * field. lra.
  - apply Rdiv_pos_pos; lra.
  - field. lra.
  - field. lra.
Qed.

Lemma repel_outside (mx my x y : R) :
  let d := sqrt ((x - mx) * (x - mx) + (y - my) * (y - my)) in
  ~ (0 < d < REPEL_RADIUS) -> repel mx my x y = (0, 0).
Proof.
  intros d H. unfold repel. fold d.
  destruct (Rltb 0 d) eqn:E1; [|reflexivity].
  destruct (Rltb d REPEL_RADIUS) eqn:E2; [|reflexivity].
  apply Rltb_true in E1, E2. tauto.
Qed.

(** C3: the physics step of a frame.  For every cell the repulsion is
    measured from the pointer to the rest position; inside the radius (80)
    an impulse away from the pointer of magnitude
    REPEL_FORCE * (1 - distance / radius) is added, none otherwise; then the
    spring impulse SPRING_K * (rest - position) is added, the velocity is
    multiplied by the damping 0.7, and the position advances once by the
    resulting velocity.  Every frame does this to every cell, whatever the
    morph is doing. *)
Theorem C3_physics_every_frame (random : nat -> R) (devicePixelRatio : R)
        (arts : list (list jsstring)) (canvas : bool) (measured : R)
        (es : list event) (ts : R) :
  let s := run random devicePixelRatio es
               (state_of (boot random devicePixelRatio arts canvas measured)) in
  (forall mx my c,
      let c' := physics mx my c in
      let ix := fst (repel mx my (rx c) (ry c)) in
      let iy := snd (repel mx my (rx c) (ry c)) in
      vx c' = (vx c + ix + SPRING_K * (rx c - px c)) * DAMPING
      /\ vy c' = (vy c + iy + SPRING_K * (ry c - py c)) * DAMPING
      /\ px c' = px c + vx c'
      /\ py c' = py c + vy c'
      /\ geometry c' = geometry c
      /\ char c' = char c)
  /\ (forall mx my x y,
        let d := sqrt ((x - mx) * (x - mx) + (y - my) * (y - my)) in
        let ix := fst (repel mx my x y) in
        let iy := snd (repel mx my x y) in
        (0 < d < REPEL_RADIUS ->
         let magnitude := REPEL_FORCE * (1 - d / REPEL_RADIUS) in
         0 < magnitude < REPEL_FORCE
         /\ sqrt (ix * ix + iy * iy) = magnitude
         /\ 0 < magnitude / d
         /\ ix = magnitude / d * (x - mx)
         /\ iy = magnitude / d * (y - my))
        /\ (~ (0 < d < REPEL_RADIUS) -> repel mx my x y = (0, 0)))
  /\ REPEL_RADIUS = 80 /\ DAMPING = 0.7 /\ DAMPING < 1
  /\ exists s1,
       morph_update random devicePixelRatio ts s = Returned s1
       /\ render random devicePixelRatio ts s
          = Returned (after_morph devicePixelRatio s1)
       /\ cells (after_morph devicePixelRatio s1)
          = map (physics (mouseX s) (mouseY s)) (cells s1).
Proof.
  intros s. split; [intros; apply physics_repel|].
  split; [intros mx my x y; split; [apply repel_inside | apply repel_outside]|].
  split; [reflexivity|]. split; [reflexivity|]. split; [unfold DAMPING; lra|].
  assert (I : Inv s) by apply Inv_reachable.
  destruct (morph_update_cases random devicePixelRatio ts I)
    as [(_ & E) | [(_ & _ & E) | (_ & _ & k & art & _ & _ & _ & E)]];
    eexists; (split; [exact E|]); (split; [now apply render_after|]); reflexivity.
Qed.

Lemma C3_physics_witness :
  let ix := fst (repel 0 0 30 40) in
  let iy := snd (repel 0 0 30 40) in
  sqrt (ix * ix + iy * iy) = REPEL_FORCE * (1 - 50 / REPEL_RADIUS).
Proof.
  intros ix iy.
  assert (E : sqrt ((30 - 0) * (30 - 0) + (40 - 0) * (40 - 0)) = 50).
  { replace ((30 - 0) * (30 - 0) + (40 - 0) * (40 - 0)) with (50 * 50) by lra.
    apply sqrt_square. lra. }
  destruct (@C3_physics_every_frame rnd0 1 demo_arts true 8 [] 0) as (_ & H & _).
  destruct (H 0 0 30 40) as (Hin & _). rewrite E in Hin.
  apply Hin. unfold REPEL_RADIUS. lra.
Defined.

(** ** Cycle scheduler: the pause sequence *)

Lemma nth_pause_bounds (n : nat) : (nth_pause n <= nth_pause (S n) <= PAUSE_MAX)%Z.
Proof. unfold nth_pause, PAUSE_STEP, PAUSE_MAX, INITIAL_DELAY. lia. Qed.

Lemma nextPause_scheduleCycle (s : Banner) :
  nextPause (scheduleCycle s) = Z.min (nextPause s + PAUSE_STEP) PAUSE_MAX.
Proof. reflexivity. Qed.

Lemma nextPause_scheduleCycle_le (s : Banner) :
  (nextPause s <= PAUSE_MAX)%Z -> (nextPause s <= nextPause (scheduleCycle s))%Z.
Proof. rewrite nextPause_scheduleCycle. unfold PAUSE_STEP, PAUSE_MAX. lia. Qed.

Section PauseSteps.

Variable random : nat -> R.
Variable devicePixelRatio : R.

Lemma nextPause_step (e : event) (s : Banner) :
  Inv s -> (nextPause s <= PAUSE_MAX)%Z ->
  (nextPause s <= nextPause (state_of (step random devicePixelRatio e s)))%Z.
Proof.
  intros I Hmax. destruct e; cbn [step state_of].
  - destruct (listening (host s)); cbn; lia.
  - destruct (listening (host s)); cbn; lia.
  - destruct (listening (host s)); [|lia]. unfold mouseleave.
    change (isMorphing (set_mouse (-9999) (-9999) (set_hovering false s)))
      with (isMorphing s).
    destruct (isMorphing s); [cbn; lia|].
    now apply (nextPause_scheduleCycle_le (set_mouse (-9999) (-9999) (set_hovering false s))).
  - unfold fire. destruct (find_timer h s) as [t|]; [|cbn; lia].
    destruct (action t); cbn [state_of].
    + now apply (nextPause_scheduleCycle_le (drop_timer h s)).
    + unfold cycle. destruct (_ || _)%bool; [cbn; lia|].
      unfold startMorph. destruct (active _); [cbn; lia|].
      destruct (nth_error _ _); cbn; lia.
  - unfold frame. destruct (frames (host s)) as [|f rest]; [cbn; lia|].
    set (s0 := set_host (set_frames rest (host s)) s).
    assert (I0 : Inv s0) by (destruct I; constructor; cbn; auto).
    destruct (morph_update_cases random devicePixelRatio timestamp I0)
      as [(_ & E) | [(_ & _ & E) | (_ & _ & k & art & _ & _ & _ & E)]];
      erewrite render_after by exact E; cbn -[Z.min Z.add]; try lia.
    unfold PAUSE_STEP, PAUSE_MAX in *. lia.
  - cbn; lia.
Qed.

End PauseSteps.

(** C4: the pauses armed by the cycle scheduler.  The n-th pause armed is
    min(I + (n - 1) * S, M) with I = 2000, S = 1000 and M = 10000; the next
    pause starts at I, grows by S each time a pause is armed, is capped at M,
    and no event ever makes it smaller. *)
Theorem C4_pause_sequence (random : nat -> R) (devicePixelRatio : R)
        (arts : list (list jsstring)) (canvas : bool) (measured : R)
        (es : list event) :
  let s := run random devicePixelRatio es
               (state_of (boot random devicePixelRatio arts canvas measured)) in
  let pauses := armed (log (host s)) in
  INITIAL_DELAY = 2000%Z /\ PAUSE_STEP = 1000%Z /\ PAUSE_MAX = 10000%Z
  /\ pauses = map nth_pause (seq 1 (length pauses))
  /\ (forall n p, nth_error pauses n = Some p ->
        p = Z.min (INITIAL_DELAY + (Z.of_nat (S n) - 1) * PAUSE_STEP) PAUSE_MAX)
  /\ nextPause s = nth_pause (S (length pauses))
  /\ nth_pause 1 = INITIAL_DELAY
  /\ (forall n, (nth_pause n <= nth_pause (S n) <= PAUSE_MAX)%Z)
  /\ (forall s0, nextPause (scheduleCycle s0)
                 = Z.min (nextPause s0 + PAUSE_STEP) PAUSE_MAX
                 /\ armed (log (host (scheduleCycle s0)))
                    = armed (log (host s0)) ++ [nextPause s0])
  /\ (forall e, (nextPause s <= nextPause (state_of (step random devicePixelRatio e s)))%Z).
Proof.
  intros s pauses.
  assert (I : Inv s) by apply Inv_reachable.
  assert (L : Ledger s) by apply Ledger_reachable.
  destruct L as [L1 L2 _ _]. fold pauses in L1, L2.
  repeat split; auto.
  - intros n p Hn. rewrite L1 in Hn.
    rewrite nth_error_map in Hn.
    destruct (nth_error (seq 1 (length pauses)) n) as [k|] eqn:Ek; [|discriminate].
    injection Hn as <-.
    assert (Hlt : (n < length (seq 1 (length pauses)))%nat)
      by (apply nth_error_Some; congruence).
    rewrite length_seq in Hlt.
    rewrite (nth_error_nth' _ 0%nat) in Ek by (rewrite length_seq; exact Hlt).
    rewrite seq_nth in Ek by exact Hlt. injection Ek as <-. reflexivity.
  - apply nth_pause_bounds.
  - apply nth_pause_bounds.
  - cbn. now rewrite armed_cons.
  - intros e. apply nextPause_step; [exact I|].
    rewrite L2. apply nth_pause_bounds.
Qed.

Lemma C4_pause_demo_witness : nextPause demo_morphing = 3000%Z.
Proof.
  destruct (@C4_pause_sequence rnd0 1 demo_arts true 8
              [TimerFire 1 2000; TimerFire 2 4000]) as (_ & _ & _ & _ & _ & H & _).
  fold demo_boot in H. fold demo_morphing in H. rewrite H.
  unfold demo_morphing, demo_boot. rewrite demo_boot_attached. reflexivity.
Defined.

(** ** Morph completion *)

Lemma buildGrid_at_rest (charWidth : R) (art : jsstring) (cell : Cell) :
  In cell (buildGrid charWidth art) ->
  px cell = rx cell /\ py cell = ry cell /\ vx cell = 0 /\ vy cell = 0.
Proof.
  intros H. apply buildGrid_In in H. destruct H as (r & c & g & _ & ->).
  repeat split; reflexivity.
Qed.

Lemma completed_quiet (l : list effect) (s s' : Banner) :
  forallb quiet l = true -> log (host s') = l ++ log (host s) ->
  completed s' = completed s.
Proof.
  intros Hq Hlog. unfold completed. now rewrite Hlog, filter_app, (quiet_invoke _ Hq).
Qed.

Section Completion.

Variable random : nat -> R.
Variable devicePixelRatio : R.

Lemma completed_after_morph (s : Banner) :
  completed (after_morph devicePixelRatio s) = completed s.
Proof.
  apply (@completed_quiet
           (RequestAnimationFrame (nextFrame (host s))
            :: rev (ClearRect (canvasW (host s) / dpr devicePixelRatio)
                              (canvasH (host s) / dpr devicePixelRatio)
                    :: flat_map draw_cell (cells (physics_update s))))); [|reflexivity].
  cbn [forallb quiet andb]. apply quiet_draw.
Qed.

(** A frame of an instance without an active morph invokes no callback. *)
Lemma frame_inactive (ts : R) (s : Banner) :
  active (morph s) = false ->
  let s' := state_of (frame random devicePixelRatio ts s) in
  active (morph s') = false /\ completed s' = completed s
  /\ isMorphing s' = isMorphing s /\ fontArts s' = fontArts s
  /\ map geometry (cells s') = map geometry (cells s).
Proof.
  intros EA. unfold frame. destruct (frames (host s)) as [|f rest]; [cbn; auto|].
  erewrite render_after by (apply morph_update_inactive; exact EA).
  cbn [state_of]. rewrite completed_after_morph. repeat split; auto.
  cbn. rewrite map_map. apply map_ext. intros c. apply geometry_physics.
Qed.

Lemma run_cons (e : event) (es : list event) (s : Banner) :
  run random devicePixelRatio (e :: es) s
  = run random devicePixelRatio es (state_of (step random devicePixelRatio e s)).
Proof. reflexivity. Qed.

Lemma frames_inactive (tss : list R) :
  forall s, active (morph s) = false ->
            let s' := run random devicePixelRatio (map Frame tss) s in
            active (morph s') = false /\ completed s' = completed s.
Proof.
  induction tss as [|ts tss IH]; intros s EA; [cbn; auto|].
  cbn [map]. rewrite run_cons. cbn [step].
  destruct (frame_inactive ts s EA) as (EA' & Hc & _).
  destruct (IH _ EA') as (H1 & H2). split; [exact H1|]. cbn zeta in H2. congruence.
Qed.

End Completion.

(** C5: completion of a morph.  The frame whose progress reaches 1 marks
    the morph inactive and invokes its completion callback, once; the
    callback rebuilds the grid from the target block: the new grid has one
    fresh cell for every glyph of the target block and no other, each at
    its (row, col) with rest position (col * charWidth,
    row * LINE_HEIGHT + FONT_SIZE), its current position equal to the rest
    position and zero velocity, whatever the displacement of the old cells
    was; later frames invoke nothing; and every grid [buildGrid] produces
    has its cells at rest with zero velocity. *)
Theorem C5_completion_once (random : nat -> R) (devicePixelRatio : R)
        (arts : list (list jsstring)) (canvas : bool) (measured : R)
        (es : list event) (ts : R) :
  let s := run random devicePixelRatio es
               (state_of (boot random devicePixelRatio arts canvas measured)) in
  active (morph s) = true ->
  1 <= (ts - startTime (morph s)) / duration (morph s) ->
  exists k art s1 s',
    onComplete (morph s) = Some (CycleDone k)
    /\ nth_error (fontArts s) k = Some art
    /\ toLines (morph s) = map array_from (split_nl art)
    /\ morph_update random devicePixelRatio ts s = Returned s1
    /\ render random devicePixelRatio ts s = Returned s'
    /\ cells s1 = buildGrid (charWidth s) art
    /\ length (cells s1) = glyph_count art
    /\ (forall cell,
          In cell (cells s1)
          <-> exists r c g,
                glyph_at art r c = Some g
                /\ cell = {| char := g; row := r; col := c;
                             rx := INR c * charWidth s;
                             ry := INR r * LINE_HEIGHT + FONT_SIZE;
                             px := INR c * charWidth s;
                             py := INR r * LINE_HEIGHT + FONT_SIZE;
                             vx := 0; vy := 0 |})
    /\ cells s' = map (physics (mouseX s) (mouseY s)) (buildGrid (charWidth s) art)
    /\ map char (cells s') = map char (cells s1)
    /\ map geometry (cells s') = map geometry (cells s1)
    /\ active (morph s') = false
    /\ isMorphing s' = false
    /\ started s = S (completed s)
    /\ completed s' = S (completed s)
    /\ started s' = completed s'
    /\ (forall tss,
          let s'' := run random devicePixelRatio (map Frame tss) s' in
          active (morph s'') = false /\ completed s'' = completed s')
    /\ (forall charWidth a cell,
          In cell (buildGrid charWidth a) ->
          px cell = rx cell /\ py cell = ry cell /\ vx cell = 0 /\ vy cell = 0).
Proof.
  intros s EA Hp.
  assert (I : Inv s) by apply Inv_reachable.
  assert (L : Ledger s) by apply Ledger_reachable.
  destruct (morph_update_cases random devicePixelRatio ts I)
    as [(E0 & _) | [(_ & Hlt & _) | (_ & _ & k & art & Hcb & Hart & Hto & E)]].
  - congruence.
  - exfalso. revert Hlt. unfold progress_at, Rmin. destruct (Rle_dec _ _); lra.
  - pose proof (led_count L) as Hcount. rewrite EA in Hcount.
    do 2 eexists. do 2 eexists.
    split; [exact Hcb|]. split; [exact Hart|]. split; [exact Hto|].
    split; [exact E|]. split; [eapply render_after; exact E|].
    split; [reflexivity|].
    split; [apply (buildGrid_length (charWidth s) art)|].
    split; [apply (buildGrid_In (charWidth s) art)|].
    split; [reflexivity|].
    split.
    { cbn. rewrite map_map. apply map_ext. intros c. apply char_physics. }
    split.
    { cbn. rewrite map_map. apply map_ext. intros c. apply geometry_physics. }
    split; [reflexivity|].
    split; [reflexivity|]. split; [lia|].
    assert (Hc : completed (after_morph devicePixelRatio
                   (finished devicePixelRatio k art
                      (looped (fst (morph_loop random ts s)) (snd (morph_loop random ts s)) s)))
                 = S (completed s)).
    { rewrite completed_after_morph. reflexivity. }
    split; [exact Hc|]. split.
    + assert (L' : Ledger (after_morph devicePixelRatio
                   (finished devicePixelRatio k art
                      (looped (fst (morph_loop random ts s)) (snd (morph_loop random ts s)) s)))).
      { apply Ledger_after_morph, Ledger_finished; [exact EA | now apply Ledger_looped]. }
      rewrite (led_count L'). cbn [after_morph]. cbn. lia.
    + split; [|apply buildGrid_at_rest].
      intros tss. apply frames_inactive. reflexivity.
Qed.

Lemma C5_completion_demo_witness :
  exists s1 s',
    morph_update rnd0 1 4600 demo_morphing = Returned s1
    /\ render rnd0 1 4600 demo_morphing = Returned s'
    /\ cells s1 = [restCell 8 (lit "X") 0 0; restCell 8 (lit "Y") 0 1;
                   restCell 8 (lit "Z") 1 0; restCell 8 (lit "W") 1 1]
    /\ map char (cells s') = [lit "X"; lit "Y"; lit "Z"; lit "W"]
    /\ active (morph s') = false /\ completed s' = 1%nat.
Proof.
  destruct (@C5_completion_once rnd0 1 demo_arts true 8
              [TimerFire 1 2000; TimerFire 2 4000] 4600 demo_morphing_active)
    as (k & art & s1 & s' & Hcb & Hart & _ & Hu & Hr & Hc1 & _ & _ & _ & Hch & _
        & Ha & _ & _ & Hc & _).
  - fold demo_boot. fold demo_morphing.
    unfold demo_morphing, demo_boot. rewrite demo_boot_attached. cbn. lra.
  - fold demo_boot in Hcb, Hart, Hu, Hr, Hc1, Hc. fold demo_morphing in Hcb, Hart, Hu, Hr, Hc1, Hc.
    assert (Ek : k = 1%nat).
    { revert Hcb. unfold demo_morphing, demo_boot. rewrite demo_boot_attached.
      cbn. intros H. now injection H. }
    subst k.
    assert (Ea : art = target).
    { revert Hart. unfold demo_morphing, demo_boot. rewrite demo_boot_attached.
      cbn. intros H. now injection H. }
    subst art.
    assert (Ew : charWidth demo_morphing = 8).
    { unfold demo_morphing, demo_boot. rewrite demo_boot_attached. reflexivity. }
    rewrite Ew in Hc1.
    exists s1, s'. split; [exact Hu|]. split; [exact Hr|].
    split; [rewrite Hc1; reflexivity|].
    split; [rewrite Hch, Hc1; reflexivity|].
    split; [exact Ha|]. rewrite Hc.
    unfold demo_morphing, demo_boot. rewrite demo_boot_attached. reflexivity.
Defined.

(** ** One morph at a time *)

Lemma startMorph_active (toArt : option jsstring) (cb : callback) (now : R) (s : Banner) :
  active (morph s) = true -> startMorph toArt cb now s = Returned s.
Proof. intros E. unfold startMorph. now rewrite E. Qed.

Lemma cycle_gated (now : R) (s : Banner) :
  isMorphing s = true \/ hovering s = true -> cycle now s = Returned s.
Proof.
  intros H. unfold cycle.
  replace (isMorphing s || hovering s)%bool with true; [reflexivity|].
  destruct H as [-> | ->]; [reflexivity | now rewrite orb_true_r].
Qed.

(** C6: [startMorph] during an active morph changes nothing at all, so
    there is never more than one morph in flight, and a cycle timer that
    fires during an active morph only leaves the queue of pending timers. *)
Theorem C6_startMorph_guard (random : nat -> R) (devicePixelRatio : R)
        (arts : list (list jsstring)) (canvas : bool) (measured : R)
        (es : list event) :
  let s := run random devicePixelRatio es
               (state_of (boot random devicePixelRatio arts canvas measured)) in
  (forall s0 toArt cb now,
      active (morph s0) = true -> startMorph toArt cb now s0 = Returned s0)
  /\ started s = (completed s + (if active (morph s) then 1 else 0))%nat
  /\ (active (morph s) = true ->
      isMorphing s = true
      /\ (forall now, cycle now s = Returned s)
      /\ (forall h now t,
             find_timer h s = Some t -> action t = CallCycle ->
             fire h now s = Returned (drop_timer h s)
             /\ morph (drop_timer h s) = morph s
             /\ cells (drop_timer h s) = cells s
             /\ log (host (drop_timer h s)) = log (host s))).
Proof.
  intros s.
  assert (I : Inv s) by apply Inv_reachable.
  assert (L : Ledger s) by apply Ledger_reachable.
  split; [intros; now apply startMorph_active|].
  split; [apply (led_count L)|].
  intros EA.
  assert (EM : isMorphing s = true) by (rewrite (inv_flag I); exact EA).
  split; [exact EM|]. split.
  - intros now. apply cycle_gated. now left.
  - intros h now t Ht Hact. split; [|repeat split; reflexivity].
    unfold fire. rewrite Ht, Hact. apply cycle_gated. now left.
Qed.

Lemma C6_guard_demo_witness :
  cycle 5000 demo_morphing = Returned demo_morphing.
Proof.
  destruct (@C6_startMorph_guard rnd0 1 demo_arts true 8
              [TimerFire 1 2000; TimerFire 2 4000]) as (_ & _ & H).
  destruct (H demo_morphing_active) as (_ & Hc & _).
  apply Hc.
Defined.

(** ** The hover gate *)

Lemma started_quiet (l : list effect) (s s' : Banner) :
  filter is_start l = [] -> log (host s') = l ++ log (host s) ->
  started s' = started s.
Proof. intros Hq Hlog. unfold started. now rewrite Hlog, filter_app, Hq. Qed.

Section Hover.

Variable random : nat -> R.
Variable devicePixelRatio : R.

Lemma started_after_morph (s : Banner) :
  started (after_morph devicePixelRatio s) = started s.
Proof.
  apply (@started_quiet
           (RequestAnimationFrame (nextFrame (host s))
            :: rev (ClearRect (canvasW (host s) / dpr devicePixelRatio)
                              (canvasH (host s) / dpr devicePixelRatio)
                    :: flat_map draw_cell (cells (physics_update s))))); [|reflexivity].
  cbn [filter is_start]. apply quiet_start, quiet_draw.
Qed.

(** No event starts a morph while the pointer hovers. *)
Lemma step_hovering (e : event) (s : Banner) :
  Inv s -> hovering s = true ->
  let s' := state_of (step random devicePixelRatio e s) in
  started s' = started s
  /\ (active (morph s) = false -> active (morph s') = false).
Proof.
  intros I EH. destruct e; cbn [step state_of].
  - destruct (listening (host s)); split; auto.
  - destruct (listening (host s)); split; auto.
  - destruct (listening (host s)); [|split; auto]. unfold mouseleave.
    change (isMorphing (set_mouse (-9999) (-9999) (set_hovering false s)))
      with (isMorphing s).
    destruct (isMorphing s); split; auto.
  - unfold fire. destruct (find_timer h s) as [t|]; [|split; auto].
    destruct (action t); cbn [state_of]; [split; auto|].
    rewrite cycle_gated by (right; exact EH). split; auto.
  - unfold frame. destruct (frames (host s)) as [|f rest]; [split; auto|].
    set (s0 := set_host (set_frames rest (host s)) s).
    assert (I0 : Inv s0) by (destruct I; constructor; cbn; auto).
    destruct (morph_update_cases random devicePixelRatio timestamp I0)
      as [(E0 & E) | [(E0 & _ & E) | (E0 & _ & k & art & _ & _ & _ & E)]];
      erewrite render_after by exact E; cbn [state_of];
      rewrite started_after_morph; split; auto;
      intros EA; cbn in E0; congruence.
  - split; auto.
Qed.

End Hover.

(** C7, as stated, fails where it says that entering hover cancels any
    pending cycle timer: [mouseenter] clears the one handle kept in
    [cycleTimer].  The pointer enters and leaves before the initial timer
    fires ([mouseleave] arms timer 2), the initial timer fires (arming
    timer 3), and the pointer enters again: timer 3 is cleared, the cycle
    timer 2 is still pending while the pointer hovers. *)
Lemma C7_hover_leaves_a_cycle_timer_pending :
  let before := run rnd0 1 [MouseEnter; MouseLeave; TimerFire 1 2000] demo_boot in
  let s := state_of (step rnd0 1 MouseEnter before) in
  timers (host before) = [{| handle := 2; delay := 2000; action := CallCycle |};
                          {| handle := 3; delay := 3000; action := CallCycle |}]
  /\ cycleTimer before = 3%nat
  /\ hovering s = true
  /\ timers (host s) = [{| handle := 2; delay := 2000; action := CallCycle |}]
  /\ ~ (forall t, In t (timers (host s)) -> action t <> CallCycle).
Proof.
  intros before s.
  assert (Hb : timers (host before)
               = [{| handle := 2; delay := 2000; action := CallCycle |};
                  {| handle := 3; delay := 3000; action := CallCycle |}]).
  { unfold before, demo_boot. rewrite demo_boot_attached. reflexivity. }
  assert (Hc : cycleTimer before = 3%nat).
  { unfold before, demo_boot. rewrite demo_boot_attached. reflexivity. }
  assert (Hh : hovering s = true).
  { unfold s, before, demo_boot. rewrite demo_boot_attached. reflexivity. }
  assert (Hs : timers (host s)
               = [{| handle := 2; delay := 2000; action := CallCycle |}]).
  { unfold s, before, demo_boot. rewrite demo_boot_attached. reflexivity. }
  split; [exact Hb|]. split; [exact Hc|]. split; [exact Hh|]. split; [exact Hs|].
  rewrite Hs. intros H.
  apply (H {| handle := 2; delay := 2000; action := CallCycle |}).
  - now left.
  - reflexivity.
Qed.

(** C7 (amended): while the pointer hovers no morph is started.  Entering
    hover cancels the cycle timer whose handle is kept in [cycleTimer] (the
    one armed last) and leaves the morph alone; a cycle tick while hovering
    or morphing does nothing; a morph in flight completes at the frame whose
    progress reaches 1, hovering or not; leaving hover while no morph is
    active arms a new cycle timer at once. *)
Theorem C7_hover_gate (random : nat -> R) (devicePixelRatio : R)
        (arts : list (list jsstring)) (canvas : bool) (measured : R)
        (es : list event) :
  let s := run random devicePixelRatio es
               (state_of (boot random devicePixelRatio arts canvas measured)) in
  (hovering s = true ->
   forall e, let s' := state_of (step random devicePixelRatio e s) in
             started s' = started s
             /\ (active (morph s) = false -> active (morph s') = false))
  /\ (hovering (mouseenter s) = true
      /\ cycleTimer s = last_cycle_handle (log (host s))
      /\ timers (host (mouseenter s))
         = filter (fun t => negb (Nat.eqb (handle t) (cycleTimer s))) (timers (host s))
      /\ morph (mouseenter s) = morph s
      /\ cells (mouseenter s) = cells s)
  /\ (forall now, isMorphing s = true \/ hovering s = true -> cycle now s = Returned s)
  /\ (morph (mouseleave s) = morph s /\ cells (mouseleave s) = cells s
      /\ forall x y, morph (mousemove x y s) = morph s /\ cells (mousemove x y s) = cells s)
  /\ (active (morph s) = true ->
      forall ts, 1 <= (ts - startTime (morph s)) / duration (morph s) ->
                 exists s', render random devicePixelRatio ts s = Returned s'
                            /\ active (morph s') = false
                            /\ completed s' = S (completed s))
  /\ (isMorphing s = false ->
      hovering (mouseleave s) = false
      /\ cycleTimer (mouseleave s) = nextTimer (host s)
      /\ timers (host (mouseleave s))
         = timers (host s)
           ++ [{| handle := nextTimer (host s); delay := nextPause s;
                  action := CallCycle |}]).
Proof.
  intros s.
  assert (I : Inv s) by apply Inv_reachable.
  split; [intros EH e; now apply step_hovering|].
  split.
  { split; [reflexivity|]. split; [apply led_timer, Ledger_reachable|].
    repeat split; reflexivity. }
  split; [intros now; apply cycle_gated|].
  split.
  { unfold mouseleave.
    change (isMorphing (set_mouse (-9999) (-9999) (set_hovering false s)))
      with (isMorphing s).
    destruct (isMorphing s); repeat split; reflexivity. }
  split.
  - intros EA ts Hp.
    destruct (morph_update_cases random devicePixelRatio ts I)
      as [(E0 & _) | [(_ & Hlt & _) | (_ & _ & k & art & _ & _ & _ & E)]].
    + congruence.
    + exfalso. revert Hlt. unfold progress_at, Rmin. destruct (Rle_dec _ _); lra.
    + eexists. split; [eapply render_after; exact E|].
      split; [reflexivity|]. rewrite completed_after_morph. reflexivity.
  - intros EM. unfold mouseleave.
    change (isMorphing (set_mouse (-9999) (-9999) (set_hovering false s)))
      with (isMorphing s).
    rewrite EM. repeat split; reflexivity.
Qed.

Lemma C7_hover_demo_witness :
  let s := run rnd0 1 hover_twice demo_boot in
  started (state_of (step rnd0 1 (TimerFire 2 2200) s)) = started s.
Proof.
  intros s.
  assert (EH : hovering s = true).
  { unfold s, demo_boot. rewrite demo_boot_attached. reflexivity. }
  destruct (@C7_hover_gate rnd0 1 demo_arts true 8 hover_twice) as (H & _).
  apply (H EH (TimerFire 2 2200)).
Defined.

(** ** Attachment and malformed style data *)

Section Attachment.

Variable random : nat -> R.
Variable devicePixelRatio : R.

Lemma Inert_step (e : event) (s : Banner) :
  Inert s -> Inert (state_of (step random devicePixelRatio e s)).
Proof.
  intros [Hc Ht Hf Hl Hlog]. destruct e; cbn [step state_of].
  - rewrite Hl. now constructor.
  - rewrite Hl. now constructor.
  - rewrite Hl. now constructor.
  - unfold fire, find_timer. rewrite Ht. now constructor.
  - unfold frame. rewrite Hf. now constructor.
  - constructor; cbn; auto.
    + now rewrite Ht.
    + now rewrite Hf.
    + intros ch x y [H | [H | H]]; try discriminate. now apply Hlog in H.
Qed.

Lemma Inert_run (es : list event) :
  forall s, Inert s -> Inert (run random devicePixelRatio es s).
Proof.
  induction es as [|e es IH]; intros s H; [exact H|].
  rewrite run_cons. now apply IH, Inert_step.
Qed.

Lemma Inert_fresh : Inert fresh.
Proof. constructor; auto. Qed.

End Attachment.

(** C9, as stated, fails, in two ways: a style list whose selected Style
    has zero ArtBlocks makes [connectedCallback] raise a TypeError
    ([initCanvas] gets [undefined]); nothing is rendered and nothing is
    scheduled.  And a [data-arts] attribute that is not JSON makes its first
    statement raise a SyntaxError, with or without a canvas. *)
Lemma C9_empty_style_throws :
  (exists s, boot rnd0 1 [[]] true 8 = Thrown TypeError s
             /\ cells s = [] /\ frames (host s) = [] /\ timers (host s) = []
             /\ log (host s) = [])
  /\ attach rnd0 1 (Styles [[]]) true 8 = boot rnd0 1 [[]] true 8
  /\ attach rnd0 1 NotJSON true 8 = Thrown SyntaxError fresh
  /\ attach rnd0 1 NotJSON false 8 = Thrown SyntaxError fresh.
Proof.
  split; [|repeat split; reflexivity].
  unfold boot. rewrite (@connectedCallback_attached rnd0 1 [[]] [] 8 fresh).
  - eexists. split; [reflexivity|]. repeat split; reflexivity.
  - discriminate.
  - destruct (@index_Z_in_range _ [@nil jsstring]
                (floor (rnd0 (draws (host fresh)) * INR (length [@nil jsstring]))))
      as (x & E & Hin).
    + apply floor_unit; [apply rnd0_range | simpl; lia].
    + rewrite E. destruct Hin as [<- | []]. reflexivity.
Qed.

Lemma Inv_attach (random : nat -> R) (devicePixelRatio : R)
      (d : dataset) (canvas : bool) (measured : R) :
  Inv (state_of (attach random devicePixelRatio d canvas measured)).
Proof.
  destruct d as [| |arts]; unfold attach, connectedCallback_dataset; cbn [JSON_parse].
  - apply (Inv_boot random devicePixelRatio [] canvas measured).
  - apply Inv_fresh.
  - apply (Inv_boot random devicePixelRatio arts canvas measured).
Qed.

(** C9 (amended): a [data-arts] attribute that is not JSON (the empty
    string included) makes [connectedCallback] raise a SyntaxError at its
    first statement, with or without a canvas, before anything is set up.
    Otherwise, that is with no attribute or with JSON for a list of styles:
    with no style at all, or without a canvas, [connectedCallback] returns
    at once and nothing is raised.  In all these cases the instance is left
    as it was created, renders nothing and stays inert whatever happens.
    With a canvas and at least one style a Style is selected; when it has
    at least one ArtBlock the grid of its first block is built, the frame
    loop, the listeners and the initial timer are set up, every frame draws
    the non-blank cells; when it has none, [connectedCallback] raises a
    TypeError before anything is set up.  After attachment, however it
    ended, no handler ever raises. *)
Theorem C9_attachment (random : nat -> R) (devicePixelRatio : R)
        (d : dataset) (canvas : bool) (measured : R) :
  (forall n, 0 <= random n < 1) ->
  let b := attach random devicePixelRatio d canvas measured in
  (d = NotJSON -> b = Thrown SyntaxError fresh)
  /\ (d = NoAttribute \/ d = Styles [] \/ (canvas = false /\ d <> NotJSON) ->
      b = Returned fresh)
  /\ (forall es, Inert (run random devicePixelRatio es fresh))
  /\ (forall arts, d = Styles arts -> arts <> [] -> canvas = true ->
      b = boot random devicePixelRatio arts canvas measured
      /\ exists style, In style arts
        /\ match style with
           | [] => exists s, b = Thrown TypeError s /\ Inert s /\ log (host s) = []
           | art :: _ =>
               exists s, b = Returned s
                 /\ fontArts s = style
                 /\ cells s = buildGrid measured art
                 /\ frames (host s) = [1%nat]
                 /\ listening (host s) = true
                 /\ timers (host s)
                    = [{| handle := 1; delay := INITIAL_DELAY;
                          action := CallScheduleCycle |}]
                 /\ (forall ts, exists s',
                        frame random devicePixelRatio ts s = Returned s'
                        /\ map char (cells s') = map char (buildGrid measured art)
                        /\ forall c, In c (cells s') -> char c <> blank ->
                             In (FillText (char c) (px c) (py c)) (log (host s')))
           end)
  /\ (forall es e, exists s',
         step random devicePixelRatio e (run random devicePixelRatio es (state_of b))
         = Returned s').
Proof.
  intros Hrandom b. split; [|split; [|split; [|split]]].
  - intros ->. reflexivity.
  - intros [-> | [-> | (-> & Hd)]].
    + unfold b, attach, connectedCallback_dataset, connectedCallback. cbn.
      now rewrite orb_true_r.
    + unfold b, attach, connectedCallback_dataset, connectedCallback. cbn.
      now rewrite orb_true_r.
    + destruct d as [| |arts]; [reflexivity | congruence | reflexivity].
  - intros es. apply Inert_run, Inert_fresh.
  - intros arts -> Hne ->. split; [reflexivity|].
    destruct (@index_Z_in_range _ arts
                (floor (random (draws (host fresh)) * INR (length arts))))
      as (style & E & Hin).
    { apply floor_unit; [apply Hrandom | destruct arts; [congruence | simpl; lia]]. }
    exists style. split; [exact Hin|].
    unfold b, attach, connectedCallback_dataset. cbn [JSON_parse].
    rewrite (@connectedCallback_attached random devicePixelRatio arts style measured fresh Hne E).
    destruct style as [|art rest].
    + eexists. split; [reflexivity|]. split; [|reflexivity].
      constructor; auto.
    + eexists. split; [reflexivity|].
      repeat split; try reflexivity.
      intros ts. eexists. split.
      * unfold frame. cbn [frames host]. cbn -[render].
        eapply render_after. apply morph_update_inactive. reflexivity.
      * split.
        -- cbn. rewrite map_map. apply map_ext. intros c. apply char_physics.
        -- intros c. apply after_morph_draws.
  - intros es e. apply step_returns. apply Inv_run, Inv_attach.
Qed.

Lemma C9_attachment_demo_witness :
  exists s', step rnd0 1 (Frame 16) demo_boot = Returned s'.
Proof.
  destruct (@C9_attachment rnd0 1 (Styles demo_arts) true 8 rnd0_range)
    as (_ & _ & _ & _ & H).
  apply (H [] (Frame 16)).
Defined.

(** ** The morph arrays stay aligned with the cells *)

Section Aligned.

Variable random : nat -> R.
Variable devicePixelRatio : R.

Lemma morph_loop_geometry (ts : R) (s : Banner) :
  map geometry (fst (morph_loop random ts s)) = map geometry (cells s).
Proof.
  destruct (morph_loop_spec random ts s) as (l' & d' & E & Hlen & _ & Hnth).
  rewrite E. cbn [fst].
  apply map_with_char_invariant; [reflexivity | exact Hlen|].
  intros j c Hc. destruct (Hnth j c Hc) as (g & Hg & _). eauto.
Qed.

(** From a state with an active morph, an event either keeps the morph
    active on the same grid, or it is the completing frame. *)
Lemma step_active (e : event) (s : Banner) :
  Inv s -> active (morph s) = true ->
  let s' := state_of (step random devicePixelRatio e s) in
  (active (morph s') = true
   /\ map geometry (cells s') = map geometry (cells s)
   /\ fromSnap (morph s') = fromSnap (morph s)
   /\ thresholds (morph s') = thresholds (morph s)
   /\ completed s' = completed s)
  \/ (active (morph s') = false
      /\ completed s' = S (completed s)
      /\ exists k art ts,
           e = Frame ts
           /\ 1 <= progress_at ts (morph s)
           /\ onComplete (morph s) = Some (CycleDone k)
           /\ nth_error (fontArts s) k = Some art
           /\ cells s' = map (physics (mouseX s) (mouseY s))
                             (buildGrid (charWidth s) art)).
Proof.
  intros I EA.
  assert (EM : isMorphing s = true) by (rewrite (inv_flag I); exact EA).
  destruct e; cbn [step state_of].
  - left. destruct (listening (host s)); repeat split; auto.
  - left. destruct (listening (host s)); repeat split; auto.
  - left. destruct (listening (host s)); [|repeat split; auto].
    unfold mouseleave.
    change (isMorphing (set_mouse (-9999) (-9999) (set_hovering false s)))
      with (isMorphing s).
    rewrite EM. repeat split; auto.
  - left. unfold fire. destruct (find_timer h s) as [t|]; [|repeat split; auto].
    destruct (action t); cbn [state_of]; [repeat split; auto|].
    rewrite cycle_gated by (left; exact EM). repeat split; auto.
  - unfold frame. destruct (frames (host s)) as [|f rest]; [left; repeat split; auto|].
    set (s0 := set_host (set_frames rest (host s)) s).
    assert (I0 : Inv s0) by (destruct I; constructor; cbn; auto).
    destruct (morph_update_cases random devicePixelRatio timestamp I0)
      as [(E0 & E) | [(E0 & _ & E) | (E0 & Hp & k & art & Hcb & Hart & _ & E)]];
      erewrite render_after by exact E; cbn [state_of].
    + cbn in E0. congruence.
    + left. rewrite completed_after_morph. repeat split; auto.
      cbn [after_morph cells set_rafId requestAnimationFrame snd emit set_host
           draw emit_all physics_update set_cells looped].
      rewrite map_map.
      rewrite (map_ext _ geometry) by (intros c; apply geometry_physics).
      apply (morph_loop_geometry timestamp s0).
    + right. rewrite completed_after_morph. split; [reflexivity|].
      split; [reflexivity|]. exists k, art, timestamp. repeat split; auto.
  - left. repeat split; auto.
Qed.

End Aligned.

(** C10: while a morph is active, the snapshot and the threshold array have
    one entry per cell, so [fromSnap[i]] and [thresholds[i]] are defined for
    every index of [cells]; no event replaces the grid while the morph stays
    active, and the only event that ends it is the completing frame, whose
    callback rebuilds the grid after the active flag is cleared. *)
Theorem C10_morph_arrays_aligned (random : nat -> R) (devicePixelRatio : R)
        (arts : list (list jsstring)) (canvas : bool) (measured : R)
        (es : list event) :
  let s := run random devicePixelRatio es
               (state_of (boot random devicePixelRatio arts canvas measured)) in
  active (morph s) = true ->
  length (fromSnap (morph s)) = length (cells s)
  /\ length (thresholds (morph s)) = length (cells s)
  /\ (forall i, (i < length (cells s))%nat ->
        exists snap t, nth_error (fromSnap (morph s)) i = Some snap
                       /\ nth_error (thresholds (morph s)) i = Some t)
  /\ (forall e,
        let s' := state_of (step random devicePixelRatio e s) in
        (active (morph s') = true
         /\ map geometry (cells s') = map geometry (cells s)
         /\ fromSnap (morph s') = fromSnap (morph s)
         /\ thresholds (morph s') = thresholds (morph s)
         /\ completed s' = completed s)
        \/ (active (morph s') = false
            /\ completed s' = S (completed s)
            /\ exists k art ts,
                 e = Frame ts
                 /\ 1 <= progress_at ts (morph s)
                 /\ onComplete (morph s) = Some (CycleDone k)
                 /\ nth_error (fontArts s) k = Some art
                 /\ cells s' = map (physics (mouseX s) (mouseY s))
                                   (buildGrid (charWidth s) art))).
Proof.
  intros s EA.
  assert (I : Inv s) by apply Inv_reachable.
  destruct (inv_morph I EA) as (Hthr & Hlen & _).
  assert (Hlt : length (thresholds (morph s)) = length (cells s))
    by (rewrite Hthr; apply length_map).
  split; [exact Hlen|]. split; [exact Hlt|]. split.
  - intros i Hi.
    destruct (@nth_error_defined _ (fromSnap (morph s)) i) as (snap & Hs); [lia|].
    destruct (@nth_error_defined _ (thresholds (morph s)) i) as (t & Ht); [lia|].
    eauto.
  - intros e. now apply step_active.
Qed.

Lemma C10_aligned_demo_witness :
  length (fromSnap (morph demo_morphing)) = length (cells demo_morphing)
  /\ length (thresholds (morph demo_morphing)) = length (cells demo_morphing).
Proof.
  destruct (@C10_morph_arrays_aligned rnd0 1 demo_arts true 8
              [TimerFire 1 2000; TimerFire 2 4000] demo_morphing_active)
    as (H1 & H2 & _).
  split; [exact H1 | exact H2].
Defined.

(** ** Thresholds *)



(** *** The sine near -1 *)
















(** * Further properties of the engine *)

(** ** Strings *)

Lemma array_from_step (c d : code_unit) (s : jsstring) :
  array_from (c :: d :: s)
  = if (is_lead c && is_trail d)%bool then [c; d] :: array_from s
    else [c] :: array_from (d :: s).
Proof. reflexivity. Qed.

Lemma array_from_facts (n : nat) :
  forall s : jsstring,
    (length s <= n)%nat ->
    concat (array_from s) = s
    /\ (length (array_from s) <= length s)%nat
    /\ Forall (fun g => length g = 1%nat \/ length g = 2%nat) (array_from s).
Proof.
  induction n as [|n IH]; intros s Hlen.
  - destruct s; [|simpl in Hlen; lia]. repeat split; auto.
  - destruct s as [|c [|d s]].
    + repeat split; auto.
    + repeat split; simpl; auto.
    + simpl in Hlen. rewrite array_from_step.
      destruct (is_lead c && is_trail d)%bool.
      * destruct (IH s) as (H1 & H2 & H3); [lia|].
        repeat split.
        -- cbn [concat app]. now rewrite H1.
        -- simpl. lia.
        -- constructor; [now right | exact H3].
      * destruct (IH (d :: s)) as (H1 & H2 & H3); [simpl; lia|].
        repeat split.
        -- cbn [concat app]. now rewrite H1.
        -- simpl in *. lia.
        -- constructor; [now left | exact H3].
Qed.

Lemma array_from_concat (s : jsstring) : concat (array_from s) = s.
Proof. apply (@array_from_facts (length s) s). lia. Qed.

Lemma array_from_length (s : jsstring) : (length (array_from s) <= length s)%nat.
Proof. apply (@array_from_facts (length s) s). lia. Qed.

Lemma array_from_glyphs (s : jsstring) :
  Forall (fun g => length g = 1%nat \/ length g = 2%nat) (array_from s).
Proof. apply (@array_from_facts (length s) s). lia. Qed.

Lemma split_nl_concat (s : jsstring) : concat (split_nl s) = without_LF s.
Proof.
  induction s as [|c s IH]; [reflexivity|].
  unfold without_LF in *. simpl.
  destruct (N.eqb c LF) eqn:E; simpl; [exact IH|].
  destruct (split_nl s) as [|l ls] eqn:El.
  - now destruct (split_nl_nonempty s).
  - simpl in *. now rewrite IH.
Qed.

Lemma split_nl_no_LF (s : jsstring) :
  Forall (fun line => ~ In LF line) (split_nl s).
Proof.
  induction s as [|c s IH]; simpl.
  - constructor; auto.
  - destruct (N.eqb c LF) eqn:E.
    + constructor; auto.
    + destruct (split_nl s) as [|l ls]; [repeat constructor; simpl; intros [H|[]]; subst; now rewrite N.eqb_refl in E|].
      inversion IH as [|? ? Hl Hls]; subst. constructor; [|exact Hls].
      simpl. intros [H | H]; [subst; now rewrite N.eqb_refl in E | contradiction].
Qed.

(** ** Grid builder: order, positions and text *)

Lemma map_mapi_from {A B C : Type} (g : B -> C) (f : A -> nat -> B) (l : list A) :
  forall i, map g (mapi_from f i l) = mapi_from (fun x k => g (f x k)) i l.
Proof. induction l; intros; simpl; [reflexivity | now rewrite IHl]. Qed.

Lemma mapi_from_const {A B : Type} (f : A -> B) (l : list A) :
  forall i, mapi_from (fun x _ => f x) i l = map f l.
Proof. induction l; intros; simpl; [reflexivity | now rewrite IHl]. Qed.

Lemma mapi_from_ext {A B : Type} (f g : A -> nat -> B) (l : list A) :
  (forall x k, f x k = g x k) -> forall i, mapi_from f i l = mapi_from g i l.
Proof. intros E. induction l; intros; simpl; [reflexivity | now rewrite E, IHl]. Qed.

Lemma buildGrid_chars (charWidth : R) (art : jsstring) :
  map char (buildGrid charWidth art) = concat (map array_from (split_nl art)).
Proof.
  rewrite buildGrid_rows, concat_map. f_equal.
  unfold gridRows, mapi. rewrite map_mapi_from.
  rewrite <- (mapi_from_const array_from (split_nl art) 0).
  apply mapi_from_ext. intros line r.
  rewrite map_mapi_from. cbn [char restCell].
  rewrite (mapi_from_const (fun g => g)). apply map_id.
Qed.

Lemma concat_concat_map {A : Type} (f : list A -> list (list A)) (ls : list (list A)) :
  (forall l, concat (f l) = l) -> concat (concat (map f ls)) = concat ls.
Proof.
  intros H. induction ls as [|l ls IH]; [reflexivity|].
  simpl. now rewrite concat_app, H, IH.
Qed.

(** The positions of the cells of [lines], numbered from row [r]. *)
Lemma gridRows_positions (charWidth : R) (lines : list jsstring) :
  forall r,
    map position
        (concat (mapi_from
                   (fun line r => mapi (fun ch c => restCell charWidth ch r c)
                                       (array_from line)) r lines))
    = concat (mapi_from (fun line r => map (pair r) (seq 0 (length (array_from line))))
                        r lines).
Proof.
  induction lines as [|line lines IH]; intros r; [reflexivity|].
  cbn [mapi_from concat]. rewrite map_app, IH. f_equal.
  unfold mapi. rewrite map_mapi_from. cbn [position row col restCell].
  generalize 0%nat. induction (array_from line) as [|g gs IHg]; intros i; [reflexivity|].
  simpl. now rewrite IHg.
Qed.

Lemma positions_rows_above (lines : list jsstring) :
  forall r p,
    In p (concat (mapi_from (fun line r => map (pair r) (seq 0 (length (array_from line))))
                            r lines)) ->
    (r <= fst p)%nat.
Proof.
  induction lines as [|line lines IH]; intros r p H; [contradiction|].
  cbn [mapi_from concat] in H. apply in_app_or in H. destruct H as [H | H].
  - apply in_map_iff in H. destruct H as (c & <- & _). simpl. lia.
  - apply IH in H. lia.
Qed.

Lemma NoDup_map_pair (r : nat) (l : list nat) :
  NoDup l -> NoDup (map (pair r) l).
Proof.
  induction 1 as [|c l Hc _ IH]; simpl; constructor; [|exact IH].
  intros H. apply in_map_iff in H. destruct H as (c' & E & Hin).
  injection E as ->. contradiction.
Qed.

Lemma positions_NoDup (lines : list jsstring) :
  forall r,
    NoDup (concat (mapi_from (fun line r => map (pair r) (seq 0 (length (array_from line))))
                             r lines)).
Proof.
  induction lines as [|line lines IH]; intros r; [constructor|].
  cbn [mapi_from concat]. apply NoDup_app.
  - apply NoDup_map_pair, seq_NoDup.
  - apply IH.
  - intros p H1 H2. apply in_map_iff in H1. destruct H1 as (c & <- & _).
    apply positions_rows_above in H2. simpl in H2. lia.
Qed.

(** X1: the grid of a block has at most one cell per (row, col), its glyphs
    read in order are the text of the block without the line feeds, and
    every glyph is one code point (one or two code units) that is not a line
    feed. *)
Theorem X1_buildGrid_text_and_positions (charWidth : R) (art : jsstring) :
  NoDup (map position (buildGrid charWidth art))
  /\ concat (map char (buildGrid charWidth art)) = without_LF art
  /\ Forall (fun c => (length (char c) = 1%nat \/ length (char c) = 2%nat)
                      /\ ~ In LF (char c))
            (buildGrid charWidth art).
Proof.
  split; [|split].
  - rewrite buildGrid_rows. unfold gridRows, mapi at 1.
    rewrite gridRows_positions. apply positions_NoDup.
  - rewrite buildGrid_chars, <- split_nl_concat.
    apply concat_concat_map. apply array_from_concat.
  - apply Forall_forall. intros cell Hin.
    apply buildGrid_In in Hin. destruct Hin as (r & c & g & Hg & ->).
    unfold glyph_at in Hg.
    destruct (nth_error (split_nl art) r) as [line|] eqn:El; [|discriminate].
    apply nth_error_In in Hg. apply nth_error_In in El.
    cbn [char restCell]. split.
    + pose proof (array_from_glyphs line) as H.
      rewrite Forall_forall in H. now apply H.
    + intros HLF.
      pose proof (split_nl_no_LF art) as H. rewrite Forall_forall in H.
      apply (H line El). rewrite <- (array_from_concat line).
      apply in_concat. eauto.
Qed.

(** ** The block being shown *)

Lemma map_geometry_physics (mx my : R) (l : list Cell) :
  map geometry (map (physics mx my) l) = map geometry l.
Proof. rewrite map_map. apply map_ext. intros c. apply geometry_physics. Qed.

Lemma map_char_physics (mx my : R) (l : list Cell) :
  map char (map (physics mx my) l) = map char l.
Proof. rewrite map_map. apply map_ext. intros c. apply char_physics. Qed.

Lemma Steady_fresh (devicePixelRatio : R) : Steady devicePixelRatio fresh.
Proof.
  constructor; cbn; auto; try discriminate; congruence.
Qed.

(** A change that leaves alone what [Steady] reads. *)
Lemma Steady_same (devicePixelRatio : R) (s s' : Banner) :
  fontArts s' = fontArts s -> currentTextIndex s' = currentTextIndex s ->
  charWidth s' = charWidth s -> completed s' = completed s ->
  map geometry (cells s') = map geometry (cells s) ->
  morph s' = morph s ->
  (active (morph s) = false -> map char (cells s') = map char (cells s)) ->
  (frames (host s') = [] \/ frames (host s') = [rafId s']) ->
  listening (host s') = listening (host s) ->
  canvasW (host s') = canvasW (host s) -> canvasH (host s') = canvasH (host s) ->
  Steady devicePixelRatio s -> Steady devicePixelRatio s'.
Proof.
  intros Hf Hi Hw Hc Hg Hm Hch Hfr Hl HW HH [S1 S2 S3 S4 S5 S6 S7].
  constructor; rewrite ?Hf, ?Hi, ?Hw, ?Hc, ?Hg, ?Hm, ?Hl, ?HW, ?HH; auto.
  intros art Hart. rewrite <- (S4 art Hart). unfold settled. rewrite Hm.
  destruct (active (morph s)); auto.
Qed.

Lemma Steady_scheduleCycle (devicePixelRatio : R) (s : Banner) :
  Steady devicePixelRatio s -> Steady devicePixelRatio (scheduleCycle s).
Proof.
  intros St. apply (@Steady_same devicePixelRatio s); auto.
  exact (std_frames St).
Qed.

Section SteadySteps.

Variable random : nat -> R.
Variable devicePixelRatio : R.

Lemma Steady_after_morph (r : R) (s : Banner) :
  frames (host s) = [] ->
  Steady r s -> Steady r (after_morph devicePixelRatio s).
Proof.
  intros Hfr St. apply (@Steady_same r s); auto.
  - apply completed_after_morph.
  - apply map_geometry_physics.
  - intros _. apply map_char_physics.
  - right. cbn. now rewrite Hfr.
Qed.

Lemma Steady_looped (r : R) (ts : R) (s : Banner) :
  active (morph s) = true ->
  Steady r s ->
  Steady r
    (looped (fst (morph_loop random ts s)) (snd (morph_loop random ts s)) s).
Proof.
  intros EA St. apply (@Steady_same r s); auto.
  - apply morph_loop_geometry.
  - congruence.
  - exact (std_frames St).
Qed.

(** The completion of a morph sizes the canvas with the ratio in force
    then, whatever ratio it was sized with before. *)
Lemma Steady_finished (r : R) (k : nat) (art : jsstring) (s : Banner) :
  active (morph s) = true ->
  onComplete (morph s) = Some (CycleDone k) ->
  nth_error (fontArts s) k = Some art ->
  Steady r s ->
  Steady devicePixelRatio (finished devicePixelRatio k art s).
Proof.
  intros EA Hcb Hart St. apply Steady_scheduleCycle.
  pose proof (std_next St EA) as Hk. rewrite Hcb in Hk. injection Hk as Hk.
  assert (Hne : length (fontArts s) <> 0%nat).
  { destruct (fontArts s); [destruct k; discriminate | discriminate]. }
  constructor; cbn.
  - intros _. apply nth_error_Some. congruence.
  - unfold completed. cbn. fold (completed s).
    rewrite Hk, (std_round St).
    rewrite Nat.Div0.add_mod_idemp_l. f_equal. lia.
  - intros art' H. congruence.
  - intros art' H. unfold settled. cbn. congruence.
  - discriminate.
  - exact (std_frames St).
  - intros art' _ H. unfold canvas_size, maxCols. congruence.
Qed.

Lemma Steady_cycle (r : R) (now : R) (s : Banner) :
  isMorphing s = active (morph s) ->
  Steady r s -> Steady r (state_of (cycle now s)).
Proof.
  intros Hf St. unfold cycle.
  destruct (isMorphing s) eqn:EM; cbn [orb]; [exact St|].
  destruct (hovering s); [exact St|].
  unfold startMorph. cbn [morph set_isMorphing]. rewrite <- Hf.
  destruct St as [S1 S2 S3 S4 S5 S6 S7].
  unfold settled in S4. rewrite <- Hf in S4.
  cbn [fontArts currentTextIndex set_isMorphing].
  destruct (nth_error (fontArts s)
              ((currentTextIndex s + 1) mod length (fontArts s))); cbn [state_of].
  - constructor; cbn; auto.
    intros art H. unfold settled. cbn. rewrite map_id. auto.
  - constructor; cbn; auto.
    intros art H. unfold settled. cbn. rewrite <- Hf. auto.
Qed.

(** A step at the ratio [devicePixelRatio] from a state whose canvas was
    sized at the ratio [r]: the canvas keeps its size, or the step has
    sized it at [devicePixelRatio]. *)
Lemma Steady_step_zoom (r : R) (e : event) (s : Banner) :
  Inv s -> Steady r s ->
  Steady r (state_of (step random devicePixelRatio e s))
  \/ Steady devicePixelRatio (state_of (step random devicePixelRatio e s)).
Proof.
  intros I St. pose proof I as [Hm Hf Hd Ha]. destruct e; cbn [step state_of].
  - left. destruct (listening (host s)); [|exact St].
    apply (@Steady_same r s); auto. exact (std_frames St).
  - left. destruct (listening (host s)); [|exact St].
    apply (@Steady_same r s); auto. exact (std_frames St).
  - left. destruct (listening (host s)); [|exact St].
    assert (St1 : Steady r (set_mouse (-9999) (-9999) (set_hovering false s))).
    { apply (@Steady_same r s); auto. exact (std_frames St). }
    unfold mouseleave.
    change (isMorphing (set_mouse (-9999) (-9999) (set_hovering false s)))
      with (isMorphing s).
    destruct (isMorphing s); [exact St1 | now apply Steady_scheduleCycle].
  - left. unfold fire. destruct (find_timer h s) as [t|]; [|exact St].
    assert (St1 : Steady r (drop_timer h s)).
    { apply (@Steady_same r s); auto. exact (std_frames St). }
    destruct (action t); cbn [state_of].
    + now apply Steady_scheduleCycle.
    + now apply Steady_cycle.
  - unfold frame. destruct (frames (host s)) as [|f rest] eqn:EF; [left; exact St|].
    assert (Hrest : rest = []).
    { destruct (std_frames St) as [H|H]; rewrite EF in H; congruence. }
    subst rest.
    set (s0 := set_host (set_frames [] (host s)) s).
    assert (St0 : Steady r s0).
    { apply (@Steady_same r s); auto. }
    assert (I0 : Inv s0) by (constructor; cbn; auto).
    destruct (active (morph s0)) eqn:EA.
    + destruct (inv_morph I0 EA) as (_ & _ & k & art & Hcb & Hart & _).
      destruct (Rleb 1 (progress_at timestamp (morph s0))) eqn:EP.
      * right.
        erewrite render_after by (apply morph_update_completing; eassumption).
        apply Steady_after_morph; [reflexivity|].
        apply (@Steady_finished r); auto. now apply Steady_looped.
      * left.
        erewrite render_after by (apply morph_update_running; eassumption).
        apply Steady_after_morph; [reflexivity|]. now apply Steady_looped.
    + left.
      erewrite render_after by (apply morph_update_inactive; eassumption).
      now apply Steady_after_morph.
  - left. apply (@Steady_same r s); auto.
    cbn. destruct (std_frames St) as [-> | ->]; cbn; auto.
    rewrite Nat.eqb_refl. cbn. auto.
Qed.

Lemma Steady_step (e : event) (s : Banner) :
  Inv s -> Steady devicePixelRatio s ->
  Steady devicePixelRatio (state_of (step random devicePixelRatio e s)).
Proof.
  intros I St. destruct (Steady_step_zoom e I St); assumption.
Qed.

Lemma Steady_run (es : list event) :
  forall s, Inv s -> Steady devicePixelRatio s ->
            Steady devicePixelRatio (run random devicePixelRatio es s).
Proof.
  induction es as [|e es IH]; intros s I St; simpl; auto.
  apply IH; [now apply Inv_step | now apply Steady_step].
Qed.

Lemma Steady_boot (arts : list (list jsstring)) (canvas : bool) (measured : R) :
  Steady devicePixelRatio (state_of (boot random devicePixelRatio arts canvas measured)).
Proof.
  unfold boot, connectedCallback.
  destruct (negb canvas || Nat.eqb (length arts) 0)%bool; [apply Steady_fresh|].
  cbn.
  destruct (index_Z arts _) as [style|]; cbn.
  2:{ constructor; cbn; auto; try discriminate; congruence. }
  destruct style as [|art style]; cbn.
  - constructor; cbn; auto; try discriminate; congruence.
  - constructor; cbn -[Nat.modulo]; auto.
    + intros _. lia.
    + rewrite Nat.Div0.mod_0_l. reflexivity.
    + intros a H. congruence.
    + intros a H. unfold settled. cbn. congruence.
    + discriminate.
    + intros a _ H. unfold canvas_size, maxCols. congruence.
Qed.

Lemma Steady_reachable (arts : list (list jsstring)) (canvas : bool) (measured : R)
      (es : list event) :
  Steady devicePixelRatio
    (run random devicePixelRatio es
         (state_of (boot random devicePixelRatio arts canvas measured))).
Proof. apply Steady_run; [apply Inv_boot | apply Steady_boot]. Qed.

End SteadySteps.

(** ** What is fixed at attachment *)

Section Attached.

Variable random : nat -> R.
Variable devicePixelRatio : R.

Lemma attachment_step (e : event) (s : Banner) :
  Inv s -> attachment (state_of (step random devicePixelRatio e s)) = attachment s.
Proof.
  intros I. pose proof I as [Hm Hf Hd Ha]. destruct e; cbn [step state_of].
  - destruct (listening (host s)); reflexivity.
  - destruct (listening (host s)); reflexivity.
  - destruct (listening (host s)) eqn:E; [|reflexivity].
    unfold mouseleave.
    change (isMorphing (set_mouse (-9999) (-9999) (set_hovering false s)))
      with (isMorphing s).
    destruct (isMorphing s); unfold attachment; cbn; now rewrite E.
  - unfold fire. destruct (find_timer h s) as [t|]; [|reflexivity].
    destruct (action t); [reflexivity|].
    unfold cycle. destruct (isMorphing (drop_timer h s) || hovering (drop_timer h s))%bool;
      [reflexivity|].
    unfold startMorph. destruct (active _); [reflexivity|].
    destruct (nth_error _ _); reflexivity.
  - unfold frame. destruct (frames (host s)) as [|f rest]; [reflexivity|].
    set (s0 := set_host (set_frames rest (host s)) s).
    assert (I0 : Inv s0) by (constructor; cbn; auto).
    destruct (morph_update_cases random devicePixelRatio timestamp I0)
      as [(_ & E) | [(_ & _ & E) | (_ & _ & k & art & _ & _ & _ & E)]];
      erewrite render_after by exact E; reflexivity.
  - reflexivity.
Qed.

Lemma attachment_run (es : list event) :
  forall s, Inv s -> attachment (run random devicePixelRatio es s) = attachment s.
Proof.
  induction es as [|e es IH]; intros s I; [reflexivity|].
  rewrite run_cons, IH by now apply Inv_step. now apply attachment_step.
Qed.

(** A connected instance has a style with a block in it and the measured
    glyph width. *)
Lemma boot_connected (arts : list (list jsstring)) (canvas : bool) (measured : R) :
  let s0 := state_of (boot random devicePixelRatio arts canvas measured) in
  connected s0 ->
  In (fontArts s0) arts /\ fontArts s0 <> [] /\ charWidth s0 = measured.
Proof.
  intros s0 Hc. assert (I : Inv s0) by apply Inv_boot.
  split; [|split; [apply (inv_arts I); now right|]];
    revert Hc; unfold s0, connected, boot, connectedCallback;
    destruct (negb canvas || Nat.eqb (length arts) 0)%bool; try discriminate;
    cbn; unfold index_Z;
    destruct (floor _) eqn:EF; try discriminate.
  all: match goal with |- context [nth_error ?l ?i] =>
         destruct (nth_error l i) as [style|] eqn:E end; cbn; try discriminate.
  all: destruct style as [|art style]; cbn; try discriminate; intros _.
  all: try reflexivity.
  all: eapply nth_error_In; exact E.
Qed.

End Attached.

(** ** Runs with zoom *)

Lemma run_zoom_cons (random : nat -> R) (r : R) (e : event)
      (es : list (R * event)) (s : Banner) :
  run_zoom random ((r, e) :: es) s
  = run_zoom random es (state_of (step random r e s)).
Proof. reflexivity. Qed.

(** A run at one ratio is the run with zoom whose ratios are all that one. *)
Lemma run_zoom_constant (random : nat -> R) (r : R) (es : list event) :
  forall s, run_zoom random (map (pair r) es) s = run random r es s.
Proof.
  induction es as [|e es IH]; intros s; [reflexivity|].
  cbn [map]. rewrite run_zoom_cons, IH. reflexivity.
Qed.

Lemma Inv_run_zoom (random : nat -> R) (es : list (R * event)) :
  forall s, Inv s -> Inv (run_zoom random es s).
Proof.
  induction es as [|[r e] es IH]; intros s I; [exact I|].
  rewrite run_zoom_cons. apply IH. now apply Inv_step.
Qed.

Lemma attachment_run_zoom (random : nat -> R) (es : list (R * event)) :
  forall s, Inv s -> attachment (run_zoom random es s) = attachment s.
Proof.
  induction es as [|[r e] es IH]; intros s I; [reflexivity|].
  rewrite run_zoom_cons, IH by now apply Inv_step. now apply attachment_step.
Qed.

(** The canvas has the size of the block at the index, at one of the
    ratios that were in force so far. *)
Lemma Steady_run_zoom (random : nat -> R) (es : list (R * event)) :
  forall r s, Inv s -> Steady r s ->
              exists r', In r' (ratios r es) /\ Steady r' (run_zoom random es s).
Proof.
  unfold ratios.
  induction es as [|[q e] es IH]; intros r s I St.
  - exists r. split; [now left | exact St].
  - rewrite run_zoom_cons. cbn [map fst].
    assert (I' : Inv (state_of (step random q e s))) by now apply Inv_step.
    destruct (@Steady_step_zoom random q r e s I St) as [St' | St'];
      destruct (IH _ _ I' St') as (r' & Hin & H); exists r'; (split; [|exact H]).
    + destruct Hin as [<- | Hin]; [now left | now right; right].
    + now right.
Qed.

(** The block at [currentTextIndex] of a connected instance, with zoom. *)
Lemma current_block_zoom (random : nat -> R) (devicePixelRatio : R)
      (arts : list (list jsstring)) (canvas : bool) (measured : R)
      (es : list (R * event)) :
  let s0 := state_of (boot random devicePixelRatio arts canvas measured) in
  let s := run_zoom random es s0 in
  connected s0 ->
  charWidth s = measured /\ connected s
  /\ exists art r',
       In r' (ratios devicePixelRatio es)
       /\ nth_error (fontArts s) (currentTextIndex s) = Some art
       /\ map geometry (cells s) = map geometry (buildGrid measured art)
       /\ (canvasW (host s), canvasH (host s)) = canvas_size r' measured art.
Proof.
  intros s0 s Hc.
  destruct (boot_connected random devicePixelRatio arts canvas measured Hc)
    as (_ & Hne & Hw).
  fold s0 in Hne, Hw.
  assert (Ha : attachment s = attachment s0)
    by (apply attachment_run_zoom, Inv_boot).
  unfold attachment in Ha. injection Ha as Hf Hcw Hl.
  destruct (@Steady_run_zoom random es devicePixelRatio s0)
    as (r' & Hin & St); [apply Inv_boot | apply Steady_boot |].
  fold s in St.
  split; [congruence|]. split; [unfold connected; now rewrite Hl|].
  destruct (@nth_error_defined _ (fontArts s) (currentTextIndex s)) as (art & Hart).
  { apply (std_index St). now rewrite Hf. }
  exists art, r'. split; [exact Hin|]. split; [exact Hart|].
  rewrite <- Hw, <- Hcw. split; [now apply (std_geometry St)|].
  apply (std_canvas St); [|exact Hart]. now rewrite Hl.
Qed.

Lemma demo_boot_attached_at (r : R) :
  boot rnd0 r demo_arts true 8 = attached rnd0 r [square; target] 8 fresh.
Proof.
  unfold boot. apply connectedCallback_attached; [discriminate|].
  destruct (@index_Z_in_range _ demo_arts (floor (rnd0 (draws (host fresh)) * INR (length demo_arts))))
    as (x & E & Hin).
  - apply floor_unit; [apply rnd0_range | simpl; lia].
  - rewrite E. destruct Hin as [<- | []]. reflexivity.
Qed.

Lemma demo_boot_connected : connected demo_boot.
Proof. unfold demo_boot. rewrite demo_boot_attached. reflexivity. Qed.

Lemma demo_cell_boot : In demo_cell (cells demo_boot).
Proof. unfold demo_boot. rewrite demo_boot_attached. left. reflexivity. Qed.

Lemma demo_cell_morphing : In demo_cell (cells demo_morphing).
Proof.
  unfold demo_morphing, demo_boot. rewrite demo_boot_attached. left. reflexivity.
Qed.

(** The block at [currentTextIndex] of a connected instance. *)
Lemma current_block (random : nat -> R) (devicePixelRatio : R)
        (arts : list (list jsstring)) (canvas : bool) (measured : R)
        (es : list event) :
  let s0 := state_of (boot random devicePixelRatio arts canvas measured) in
  let s := run random devicePixelRatio es s0 in
  connected s0 ->
  In (fontArts s) arts /\ fontArts s = fontArts s0
  /\ charWidth s = measured /\ connected s
  /\ exists art,
       nth_error (fontArts s) (currentTextIndex s) = Some art
       /\ map geometry (cells s) = map geometry (buildGrid measured art)
       /\ map char (settled s) = map char (buildGrid measured art)
       /\ (canvasW (host s), canvasH (host s))
          = canvas_size devicePixelRatio measured art.
Proof.
  intros s0 s Hc.
  destruct (boot_connected random devicePixelRatio arts canvas measured Hc)
    as (Hin & Hne & Hw).
  fold s0 in Hin, Hne, Hw.
  assert (Ha : attachment s = attachment s0)
    by (apply attachment_run, Inv_boot).
  unfold attachment in Ha. injection Ha as Hf Hcw Hl.
  assert (St : Steady devicePixelRatio s) by apply Steady_reachable.
  rewrite Hf, Hcw, Hw. repeat split; auto.
  - unfold connected. now rewrite Hl.
  - destruct (@nth_error_defined _ (fontArts s) (currentTextIndex s)) as (art & Hart).
    { apply (std_index St). now rewrite Hf. }
    exists art. rewrite <- Hf, <- Hw, <- Hcw. split; [exact Hart|].
    split; [now apply (std_geometry St)|].
    split; [now apply (std_chars St)|].
    apply (std_canvas St); [|exact Hart]. now rewrite Hl.
Qed.

(** X2: in a connected instance the style, the glyph width and the
    listeners stay as attachment left them, [currentTextIndex] always points
    at a block of the style, the grid has the geometry of that block, its
    glyphs are shown by the cells when no morph is active (and held by the
    snapshot while one is), and the canvas has the size [initCanvas] gives
    that block. *)
Theorem X2_current_block (random : nat -> R) (devicePixelRatio : R)
        (arts : list (list jsstring)) (canvas : bool) (measured : R)
        (es : list event) :
  let s0 := state_of (boot random devicePixelRatio arts canvas measured) in
  let s := run random devicePixelRatio es s0 in
  connected s0 ->
  In (fontArts s) arts /\ fontArts s = fontArts s0
  /\ charWidth s = measured /\ connected s
  /\ exists art,
       nth_error (fontArts s) (currentTextIndex s) = Some art
       /\ map geometry (cells s) = map geometry (buildGrid measured art)
       /\ map char (settled s) = map char (buildGrid measured art)
       /\ (canvasW (host s), canvasH (host s))
          = canvas_size devicePixelRatio measured art.
Proof. apply current_block. Qed.

Lemma X2_current_block_witness :
  exists art,
    nth_error (fontArts demo_morphing) (currentTextIndex demo_morphing) = Some art
    /\ map char (fromSnap (morph demo_morphing)) = map char (buildGrid 8 art).
Proof.
  destruct (@X2_current_block rnd0 1 demo_arts true 8
              [TimerFire 1 2000; TimerFire 2 4000] demo_boot_connected)
    as (_ & _ & _ & _ & art & Hart & _ & Hch & _).
  exists art. split; [exact Hart|].
  unfold settled in Hch. fold demo_boot in Hch. fold demo_morphing in Hch.
  rewrite demo_morphing_active in Hch. exact Hch.
Defined.

(** X3: the blocks of the style are shown round robin.  In a connected
    instance [currentTextIndex] is the number of completed morphs modulo
    the number of blocks, and an active morph leads to the block after the
    current one, wrapping around: its callback carries that index and its
    target lines are the glyph lines of that block. *)
Theorem X3_round_robin (random : nat -> R) (devicePixelRatio : R)
        (arts : list (list jsstring)) (canvas : bool) (measured : R)
        (es : list event) :
  let s0 := state_of (boot random devicePixelRatio arts canvas measured) in
  let s := run random devicePixelRatio es s0 in
  connected s0 ->
  (currentTextIndex s < length (fontArts s))%nat
  /\ currentTextIndex s = (completed s mod length (fontArts s))%nat
  /\ (active (morph s) = true ->
      let next := ((currentTextIndex s + 1) mod length (fontArts s))%nat in
      onComplete (morph s) = Some (CycleDone next)
      /\ exists art, nth_error (fontArts s) next = Some art
                     /\ toLines (morph s) = map array_from (split_nl art)).
Proof.
  intros s0 s Hc.
  destruct (boot_connected random devicePixelRatio arts canvas measured Hc)
    as (_ & Hne & _).
  fold s0 in Hne.
  assert (Ha : attachment s = attachment s0)
    by (apply attachment_run, Inv_boot).
  unfold attachment in Ha. injection Ha as Hf _ _.
  assert (St : Steady devicePixelRatio s) by apply Steady_reachable.
  assert (I : Inv s) by apply Inv_reachable.
  split; [apply (std_index St); now rewrite Hf|].
  split; [apply (std_round St)|].
  intros EA next. pose proof (std_next St EA) as Hcb.
  split; [exact Hcb|].
  destruct (inv_morph I EA) as (_ & _ & k & art & Hk & Hart & Hto).
  rewrite Hk in Hcb. injection Hcb as ->. eauto.
Qed.

Lemma X3_round_robin_witness :
  (currentTextIndex demo_morphing < length (fontArts demo_morphing))%nat
  /\ currentTextIndex demo_morphing
     = (completed demo_morphing mod length (fontArts demo_morphing))%nat.
Proof.
  destruct (@X3_round_robin rnd0 1 demo_arts true 8
              [TimerFire 1 2000; TimerFire 2 4000] demo_boot_connected)
    as (H1 & H2 & _).
  split; [exact H1 | exact H2].
Defined.

(** ** The frame loop and its end *)

Section FrameLoop.

Variable random : nat -> R.
Variable devicePixelRatio : R.

(** The pending frame requests after an event. *)
Lemma frames_step (e : event) (s : Banner) :
  Inv s ->
  frames (host (state_of (step random devicePixelRatio e s)))
  = match e with
    | Frame _ =>
        match frames (host s) with
        | [] => []
        | _ :: rest => rest ++ [nextFrame (host s)]
        end
    | Disconnect => filter (fun f => negb (Nat.eqb f (rafId s))) (frames (host s))
    | _ => frames (host s)
    end.
Proof.
  intros I. pose proof I as [Hm Hf Hd Ha]. destruct e; cbn [step state_of].
  - destruct (listening (host s)); reflexivity.
  - destruct (listening (host s)); reflexivity.
  - destruct (listening (host s)) eqn:E; [|reflexivity].
    unfold mouseleave.
    change (isMorphing (set_mouse (-9999) (-9999) (set_hovering false s)))
      with (isMorphing s).
    destruct (isMorphing s); reflexivity.
  - unfold fire. destruct (find_timer h s) as [t|]; [|reflexivity].
    destruct (action t); [reflexivity|].
    unfold cycle. destruct (isMorphing (drop_timer h s) || hovering (drop_timer h s))%bool;
      [reflexivity|].
    unfold startMorph. destruct (active _); [reflexivity|].
    destruct (nth_error _ _); reflexivity.
  - unfold frame. destruct (frames (host s)) as [|f rest] eqn:EF; [exact EF|].
    set (s0 := set_host (set_frames rest (host s)) s).
    assert (I0 : Inv s0) by (constructor; cbn; auto).
    destruct (morph_update_cases random devicePixelRatio timestamp I0)
      as [(_ & E) | [(_ & _ & E) | (_ & _ & k & art & _ & _ & _ & E)]];
      erewrite render_after by exact E; reflexivity.
  - reflexivity.
Qed.

Lemma frame_pending_run (es : list event) :
  forall s, Inv s -> Steady devicePixelRatio s ->
            existsb is_disconnect es = false ->
            frames (host s) = [rafId s] ->
            let s' := run random devicePixelRatio es s in
            frames (host s') = [rafId s'].
Proof.
  induction es as [|e es IH]; intros s I St Hd Hfr; [exact Hfr|].
  cbn [existsb] in Hd. apply orb_false_elim in Hd. destruct Hd as [He Hes].
  rewrite run_cons. apply IH; auto using Inv_step, Steady_step.
  pose proof (Steady_step random e I St) as St'.
  destruct (std_frames St') as [H|H]; [|exact H].
  rewrite frames_step in H by exact I. rewrite Hfr in H.
  destruct e; try discriminate.
Qed.

(** Once no frame is pending, nothing an event does renders again. *)
Lemma stopped_step (e : event) (s : Banner) :
  frames (host s) = [] ->
  let s' := state_of (step random devicePixelRatio e s) in
  frames (host s') = [] /\ cells s' = cells s /\ painted s' = painted s
  /\ completed s' = completed s /\ currentTextIndex s' = currentTextIndex s.
Proof.
  intros Hfr. destruct e; cbn [step state_of].
  - destruct (listening (host s)); repeat split; auto.
  - destruct (listening (host s)); repeat split; auto.
  - destruct (listening (host s)) eqn:E; [|repeat split; auto].
    unfold mouseleave.
    change (isMorphing (set_mouse (-9999) (-9999) (set_hovering false s)))
      with (isMorphing s).
    destruct (isMorphing s); repeat split; auto.
  - unfold fire. destruct (find_timer h s) as [t|]; [|repeat split; auto].
    destruct (action t); [repeat split; auto|].
    unfold cycle. destruct (isMorphing (drop_timer h s) || hovering (drop_timer h s))%bool;
      [repeat split; auto|].
    unfold startMorph. destruct (active _); [repeat split; auto|].
    destruct (nth_error _ _); repeat split; auto.
  - unfold frame. rewrite Hfr. repeat split; auto.
  - cbn. rewrite Hfr. repeat split; auto.
Qed.

Lemma stopped_run (es : list event) :
  forall s, frames (host s) = [] ->
            let s' := run random devicePixelRatio es s in
            frames (host s') = [] /\ cells s' = cells s /\ painted s' = painted s
            /\ completed s' = completed s /\ currentTextIndex s' = currentTextIndex s.
Proof.
  induction es as [|e es IH]; intros s Hfr; [repeat split; auto|].
  rewrite run_cons.
  destruct (stopped_step e s Hfr) as (H1 & H2 & H3 & H4 & H5).
  destruct (IH _ H1) as (G1 & G2 & G3 & G4 & G5).
  cbv zeta. repeat split; congruence.
Qed.

End FrameLoop.

Lemma boot_frames (random : nat -> R) (devicePixelRatio : R)
      (arts : list (list jsstring)) (canvas : bool) (measured : R) :
  let s0 := state_of (boot random devicePixelRatio arts canvas measured) in
  connected s0 -> frames (host s0) = [rafId s0].
Proof.
  unfold connected, boot, connectedCallback.
  destruct (negb canvas || Nat.eqb (length arts) 0)%bool; try discriminate.
  cbn. destruct (index_Z arts _) as [style|]; cbn; try discriminate.
  destruct style as [|art style]; cbn; try discriminate. reflexivity.
Qed.

(** X4: the frame loop.  At any time at most one animation frame request
    is pending, and it is the one whose handle [rafId] holds; in a connected
    instance that has not been disconnected exactly one is pending, so the
    loop never stops by itself. *)
Theorem X4_frame_loop (random : nat -> R) (devicePixelRatio : R)
        (arts : list (list jsstring)) (canvas : bool) (measured : R)
        (es : list event) :
  let s0 := state_of (boot random devicePixelRatio arts canvas measured) in
  let s := run random devicePixelRatio es s0 in
  (frames (host s) = [] \/ frames (host s) = [rafId s])
  /\ (connected s0 -> existsb is_disconnect es = false ->
      frames (host s) = [rafId s]).
Proof.
  intros s0 s. split.
  - apply (std_frames (Steady_reachable random devicePixelRatio arts canvas measured es)).
  - intros Hc Hd. apply frame_pending_run; auto.
    + apply Inv_boot.
    + apply Steady_boot.
    + now apply boot_frames.
Qed.

Lemma X4_frame_loop_witness :
  frames (host demo_morphing) = [rafId demo_morphing].
Proof.
  destruct (@X4_frame_loop rnd0 1 demo_arts true 8
              [TimerFire 1 2000; TimerFire 2 4000]) as (_ & H).
  apply H; [exact demo_boot_connected | reflexivity].
Defined.

(** X5: teardown.  [disconnectedCallback] leaves no animation frame request
    pending, and from then on no event renders: whatever happens later, no
    request is pending, the cells, the canvas calls made, the number of
    completed morphs and [currentTextIndex] stay as they were.  Only the
    timer in [cycleTimer] is cleared: any other pending timer stays
    pending. *)
Theorem X5_teardown (random : nat -> R) (devicePixelRatio : R)
        (arts : list (list jsstring)) (canvas : bool) (measured : R)
        (es later : list event) :
  let s := run random devicePixelRatio es
               (state_of (boot random devicePixelRatio arts canvas measured)) in
  let s1 := disconnectedCallback s in
  let s2 := run random devicePixelRatio later s1 in
  frames (host s1) = []
  /\ (forall t, In t (timers (host s)) -> handle t <> cycleTimer s ->
                In t (timers (host s1)))
  /\ frames (host s2) = []
  /\ cells s2 = cells s
  /\ painted s2 = painted s
  /\ completed s2 = completed s
  /\ currentTextIndex s2 = currentTextIndex s.
Proof.
  intros s s1 s2.
  assert (H1 : frames (host s1) = []).
  { unfold s1. cbn.
    destruct (std_frames (Steady_reachable random devicePixelRatio arts canvas measured es))
      as [H|H]; fold s in H; rewrite H; [reflexivity|].
    cbn. now rewrite Nat.eqb_refl. }
  split; [exact H1|]. split.
  - intros t Hin Hne. unfold s1. cbn. apply filter_In. split; [exact Hin|].
    apply negb_true_iff, Nat.eqb_neq. exact Hne.
  - destruct (stopped_run random devicePixelRatio later s1 H1)
      as (G1 & G2 & G3 & G4 & G5).
    fold s2 in G1, G2, G3, G4, G5.
    split; [exact G1|]. split; [exact G2|]. split; [exact G3|].
    split; [exact G4 | exact G5].
Qed.

(** ** The canvas covers the grid *)

Lemma ceil_ge (x : R) : x <= IZR (ceil x).
Proof.
  unfold ceil. rewrite opp_IZR.
  destruct (base_Int_part (- x)) as [Hlo _]. lra.
Qed.

Lemma dpr_pos (devicePixelRatio : R) : 0 <= devicePixelRatio -> 0 < dpr devicePixelRatio.
Proof. intros H. unfold dpr. destruct (Req_dec_T devicePixelRatio 0); lra. Qed.

Lemma max_of_ge (n : nat) (ns : list nat) : In n ns -> (n <= max_of ns)%nat.
Proof.
  unfold max_of. induction ns as [|m ns IH]; [contradiction|].
  intros [-> | H]; cbn [fold_right]; [lia|]. specialize (IH H). lia.
Qed.

(** The rest box of a cell of the grid of [art] lies within the natural
    width and height that [initCanvas] computes for [art]. *)
Lemma buildGrid_box (charWidth : R) (art : jsstring) (c : Cell) :
  0 <= charWidth -> In c (buildGrid charWidth art) ->
  0 <= rx c
  /\ rx c + charWidth <= INR (maxCols art) * charWidth
  /\ 0 <= ry c - FONT_SIZE
  /\ ry c - FONT_SIZE + LINE_HEIGHT <= INR (length (split_nl art)) * LINE_HEIGHT.
Proof.
  intros Hw Hin. apply buildGrid_In in Hin. destruct Hin as (r & k & g & Hg & ->).
  unfold glyph_at in Hg.
  destruct (nth_error (split_nl art) r) as [line|] eqn:El; [|discriminate].
  assert (Hr : (r < length (split_nl art))%nat)
    by (apply nth_error_Some; congruence).
  assert (Hk : (k < length (array_from line))%nat)
    by (apply nth_error_Some; congruence).
  assert (Hm : (length line <= maxCols art)%nat).
  { apply max_of_ge, in_map. eapply nth_error_In; exact El. }
  pose proof (array_from_length line) as Hl.
  assert (Hk1 : INR (S k) <= INR (maxCols art)) by (apply le_INR; lia).
  assert (Hr1 : INR (S r) <= INR (length (split_nl art))) by (apply le_INR; lia).
  rewrite S_INR in Hk1, Hr1.
  pose proof (pos_INR k) as Hk0. pose proof (pos_INR r) as Hr0.
  cbn [rx ry restCell]. unfold FONT_SIZE, LINE_HEIGHT.
  repeat split; nra.
Qed.

Lemma ceil_lt (x : R) : IZR (ceil x) < x + 1.
Proof.
  unfold ceil. rewrite opp_IZR.
  destruct (base_Int_part (- x)) as [_ Hhi]. lra.
Qed.

Lemma ceil_IZR (n : Z) : ceil (IZR n) = n.
Proof.
  unfold ceil. rewrite <- opp_IZR.
  rewrite <- (Int_part_spec (IZR (- n)) (- n)); [lia | lra].
Qed.

Lemma dpr_nonzero (r : R) : r <> 0 -> dpr r = r.
Proof. intros H. unfold dpr. destruct (Req_dec_T r 0); [contradiction | reflexivity]. Qed.

(** A canvas sized at the ratio [sized] and cleared at a ratio [ratio] that
    is not above it: the cleared rectangle has at least the natural width
    and height of the block. *)
Lemma canvas_size_covers (sized ratio charWidth : R) (art : jsstring) :
  0 <= charWidth -> 0 < dpr ratio <= dpr sized ->
  INR (maxCols art) * charWidth
  <= fst (canvas_size sized charWidth art) / dpr ratio
  /\ INR (length (split_nl art)) * LINE_HEIGHT
     <= snd (canvas_size sized charWidth art) / dpr ratio.
Proof.
  intros Hw (Hp & Hle). unfold canvas_size. cbn [fst snd].
  assert (Hgen : forall x, 0 <= x -> x <= IZR (ceil (IZR (ceil x) * dpr sized)) / dpr ratio).
  { intros x Hx. pose proof (ceil_ge x) as H1.
    pose proof (ceil_ge (IZR (ceil x) * dpr sized)) as H2.
    apply Rle_trans with (1 := H1).
    apply Rmult_le_reg_r with (1 := Hp).
    unfold Rdiv. rewrite Rmult_assoc, Rinv_l by lra. nra. }
  split; apply Hgen.
  - apply Rmult_le_pos; [apply pos_INR | exact Hw].
  - apply Rmult_le_pos; [apply pos_INR | unfold LINE_HEIGHT; lra].
Qed.

Lemma geometry_In (l l' : list Cell) (c : Cell) :
  map geometry l = map geometry l' -> In c l ->
  exists c', In c' l' /\ geometry c = geometry c'.
Proof.
  intros E Hin. apply (in_map geometry) in Hin. rewrite E in Hin.
  apply in_map_iff in Hin. destruct Hin as (c' & H1 & H2). eauto.
Qed.

Lemma zoomed_boot_connected : connected (state_of (boot rnd0 2 demo_arts true 8)).
Proof. rewrite demo_boot_attached_at. reflexivity. Qed.

Lemma demo_cell_zoomed : In demo_cell (cells zoomed_demo).
Proof. unfold zoomed_demo. rewrite demo_boot_attached_at. left. reflexivity. Qed.

Lemma demo_boot_canvasW : canvasW (host demo_boot) = 16.
Proof.
  unfold demo_boot. rewrite demo_boot_attached.
  change (canvasW (host (state_of (attached rnd0 1 [square; target] 8 fresh))))
    with (IZR (ceil (IZR (ceil (INR 2 * 8)) * dpr 1))).
  replace (INR 2 * 8) with (IZR 16) by (simpl; lra).
  rewrite ceil_IZR, dpr_nonzero by lra.
  replace (IZR 16 * 1) with (IZR 16) by lra. now rewrite ceil_IZR.
Qed.

Lemma zoomed_demo_canvasW : canvasW (host zoomed_demo) = 32.
Proof.
  unfold zoomed_demo. rewrite demo_boot_attached_at.
  change (canvasW (host (run_zoom rnd0 [(1, TimerFire 1 2000); (1, TimerFire 2 4000)]
                           (state_of (attached rnd0 2 [square; target] 8 fresh)))))
    with (IZR (ceil (IZR (ceil (INR 2 * 8)) * dpr 2))).
  replace (INR 2 * 8) with (IZR 16) by (simpl; lra).
  rewrite ceil_IZR, dpr_nonzero by lra.
  replace (IZR 16 * 2) with (IZR 32) by lra. now rewrite ceil_IZR.
Qed.

(** Zooming in after the canvas was sized uncovers cells: the running
    example is attached at ratio 1 with a canvas 16 wide; at ratio 2 a
    frame clears a width of 8, and the rest box of the cell in column 1
    spans 8 to 16. *)
Lemma zoom_in_uncovers :
  In (restCell 8 (lit "B") 0 1) (cells demo_boot)
  /\ canvasW (host demo_boot) / dpr 2 = 8
  /\ rx (restCell 8 (lit "B") 0 1) + 8 = 16.
Proof.
  split; [|split].
  - unfold demo_boot. rewrite demo_boot_attached. right. left. reflexivity.
  - rewrite demo_boot_canvasW, dpr_nonzero by lra. lra.
  - cbn [rx restCell]. simpl INR. lra.
Qed.

(** X6: the canvas covers the grid unless the page was zoomed in since the
    canvas was sized.  The device pixel ratio is read afresh at every event
    ([run_zoom]).  In a connected instance with a non-negative glyph width,
    the canvas has the size that [initCanvas] gives the block at the index,
    at one of the ratios in force so far ([sized]); for a ratio [ratio] not
    above it, the rectangle that a frame at [ratio] clears (the canvas size
    divided by [ratio]) contains the rest box of every cell: its column
    span from [rx] to [rx + charWidth] and its line span of height
    LINE_HEIGHT whose baseline is [ry].  So it does when no ratio so far
    was below [ratio], as when the page is never zoomed. *)
Theorem X6_canvas_covers_grid (random : nat -> R) (devicePixelRatio : R)
        (arts : list (list jsstring)) (canvas : bool) (measured : R)
        (es : list (R * event)) (ratio : R) :
  let s0 := state_of (boot random devicePixelRatio arts canvas measured) in
  let s := run_zoom random es s0 in
  connected s0 -> 0 <= measured -> 0 <= ratio ->
  let w := canvasW (host s) / dpr ratio in
  let h := canvasH (host s) / dpr ratio in
  let covered := forall c, In c (cells s) ->
    0 <= rx c /\ rx c + measured <= w
    /\ 0 <= ry c - FONT_SIZE /\ ry c - FONT_SIZE + LINE_HEIGHT <= h in
  (exists art sized,
      In sized (ratios devicePixelRatio es)
      /\ nth_error (fontArts s) (currentTextIndex s) = Some art
      /\ (canvasW (host s), canvasH (host s)) = canvas_size sized measured art
      /\ (dpr ratio <= dpr sized -> covered))
  /\ (Forall (fun r => dpr ratio <= dpr r) (ratios devicePixelRatio es) -> covered)
  /\ (devicePixelRatio = ratio -> Forall (fun re => fst re = ratio) es -> covered).
Proof.
  intros s0 s Hc Hm Hd w h covered.
  destruct (@current_block_zoom random devicePixelRatio arts canvas measured es Hc)
    as (_ & _ & art & sized & Hin & Hart & Hg & Hcv).
  fold s0 in Hart, Hg, Hcv. fold s in Hart, Hg, Hcv.
  assert (Hcov : dpr ratio <= dpr sized -> covered).
  { intros Hle c Hc'.
    destruct (@geometry_In _ _ c Hg Hc') as (c' & Hin' & Hgeo).
    unfold geometry in Hgeo. injection Hgeo as _ _ Hrx Hry.
    destruct (@buildGrid_box measured art c' Hm Hin') as (B1 & B2 & B3 & B4).
    destruct (@canvas_size_covers sized ratio measured art Hm) as (C1 & C2).
    { split; [now apply dpr_pos | exact Hle]. }
    rewrite <- Hcv in C1, C2. cbn [fst snd] in C1, C2.
    unfold w, h. rewrite Hrx, Hry. repeat split; lra. }
  assert (Hall : Forall (fun r => dpr ratio <= dpr r) (ratios devicePixelRatio es) -> covered).
  { intros Hf. apply Hcov. rewrite Forall_forall in Hf. now apply Hf. }
  split; [exists art, sized; auto|]. split; [exact Hall|].
  intros -> Hes. apply Hall. unfold ratios. constructor; [lra|].
  rewrite Forall_forall in *. intros r Hr. apply in_map_iff in Hr.
  destruct Hr as (re & <- & Hre). rewrite (Hes re Hre). lra.
Qed.

Lemma X6_canvas_covers_grid_witness :
  0 <= rx demo_cell
  /\ rx demo_cell + 8 <= canvasW (host zoomed_demo) / dpr 1
  /\ 0 <= ry demo_cell - FONT_SIZE
  /\ ry demo_cell - FONT_SIZE + LINE_HEIGHT <= canvasH (host zoomed_demo) / dpr 1.
Proof.
  destruct (@X6_canvas_covers_grid rnd0 2 demo_arts true 8
              [(1, TimerFire 1 2000); (1, TimerFire 2 4000)] 1
              zoomed_boot_connected) as (_ & H & _); [lra | lra |].
  apply H; [|exact demo_cell_zoomed].
  unfold ratios. cbn [map fst]. rewrite !dpr_nonzero by lra.
  apply Forall_cons; [rewrite dpr_nonzero; lra|].
  apply Forall_cons; [rewrite dpr_nonzero; lra|].
  apply Forall_cons; [rewrite dpr_nonzero; lra|]. apply Forall_nil.
Defined.

(** ** The spring settles *)

Lemma anchor_physics (mx my : R) (c : Cell) :
  anchor mx my (physics mx my c) = anchor mx my c.
Proof.
  pose proof (geometry_physics mx my c) as H. unfold geometry in H.
  injection H as _ _ Hx Hy. unfold anchor. now rewrite Hx, Hy.
Qed.

Lemma energy_physics (mx my : R) (c : Cell) :
  let a := anchor mx my c in
  let c' := physics mx my c in
  energy (px c' - fst a) (vx c') = DAMPING * energy (px c - fst a) (vx c)
  /\ energy (py c' - snd a) (vy c') = DAMPING * energy (py c - snd a) (vy c).
Proof.
  intros a c'.
  destruct (physics_repel mx my c) as (Hvx & Hvy & Hpx & Hpy & _).
  fold c' in Hvx, Hvy, Hpx, Hpy.
  assert (Hix : fst (repel mx my (rx c) (ry c)) = SPRING_K * (fst a - rx c))
    by (unfold a, anchor, SPRING_K; cbn [fst]; field; lra).
  assert (Hiy : snd (repel mx my (rx c) (ry c)) = SPRING_K * (snd a - ry c))
    by (unfold a, anchor, SPRING_K; cbn [snd]; field; lra).
  rewrite Hix in Hvx. rewrite Hiy in Hvy.
  split.
  - rewrite Hpx, Hvx. unfold energy. ring.
  - rewrite Hpy, Hvy. unfold energy. ring.
Qed.

Lemma energy_bounds (e v : R) :
  e * e <= 12 * energy e v /\ v * v <= 2 * energy e v.
Proof.
  unfold energy, SPRING_K, DAMPING.
  pose proof (Rle_0_sqr (0.39 * e + 2.8 * v)) as H1.
  pose proof (Rle_0_sqr e) as H2.
  pose proof (Rle_0_sqr (0.21 * e + 0.195 * v)) as H3.
  pose proof (Rle_0_sqr v) as H4.
  unfold Rsqr in *. split; nra.
Qed.

Lemma iter_physics (mx my : R) (n : nat) (c : Cell) :
  let a := anchor mx my c in
  let c' := Nat.iter n (physics mx my) c in
  anchor mx my c' = a /\ geometry c' = geometry c /\ char c' = char c
  /\ energy (px c' - fst a) (vx c') = DAMPING ^ n * energy (px c - fst a) (vx c)
  /\ energy (py c' - snd a) (vy c') = DAMPING ^ n * energy (py c - snd a) (vy c).
Proof.
  induction n as [|n IH]; cbn zeta in *.
  - cbn. repeat split; ring.
  - destruct IH as (Ha & Hg & Hc & Hx & Hy).
    change (Nat.iter (S n) (physics mx my) c)
      with (physics mx my (Nat.iter n (physics mx my) c)).
    destruct (energy_physics mx my (Nat.iter n (physics mx my) c)) as (Ex & Ey).
    cbn zeta in Ex, Ey. rewrite Ha in Ex, Ey.
    rewrite anchor_physics, geometry_physics, char_physics.
    repeat split; auto.
    + rewrite Ex, Hx. cbn [pow]. ring.
    + rewrite Ey, Hy. cbn [pow]. ring.
Qed.

(** X7: the spring settles.  With the pointer held at (mx, my), each
    physics step multiplies the energy of a cell about its anchor by the
    damping 0.7, on both axes; so after n steps the squared offset from the
    anchor is at most 12 * 0.7^n times the initial energy and the squared
    velocity at most 2 * 0.7^n times it: the cell spirals into its anchor
    and never runs away. *)
Theorem X7_spring_settles (mx my : R) (c : Cell) (n : nat) :
  let a := anchor mx my c in
  let c' := Nat.iter n (physics mx my) c in
  let ex := energy (px c - fst a) (vx c) in
  let ey := energy (py c - snd a) (vy c) in
  energy (px c' - fst a) (vx c') = DAMPING ^ n * ex
  /\ energy (py c' - snd a) (vy c') = DAMPING ^ n * ey
  /\ (px c' - fst a) * (px c' - fst a) <= 12 * DAMPING ^ n * ex
  /\ (py c' - snd a) * (py c' - snd a) <= 12 * DAMPING ^ n * ey
  /\ vx c' * vx c' <= 2 * DAMPING ^ n * ex
  /\ vy c' * vy c' <= 2 * DAMPING ^ n * ey
  /\ 0 <= ex /\ 0 <= ey.
Proof.
  intros a c' ex ey.
  destruct (iter_physics mx my n c) as (_ & _ & _ & Hx & Hy).
  fold a c' ex in Hx. fold a c' ey in Hy.
  destruct (energy_bounds (px c' - fst a) (vx c')) as (B1 & B2).
  destruct (energy_bounds (py c' - snd a) (vy c')) as (B3 & B4).
  destruct (energy_bounds (px c - fst a) (vx c)) as (B5 & _).
  destruct (energy_bounds (py c - snd a) (vy c)) as (B6 & _).
  fold ex in B5. fold ey in B6.
  pose proof (Rle_0_sqr (px c - fst a)) as P1.
  pose proof (Rle_0_sqr (py c - snd a)) as P2. unfold Rsqr in P1, P2.
  rewrite Hx in B1, B2. rewrite Hy in B3, B4.
  repeat split; auto; lra.
Qed.

(** ** Idle frames *)

Section Idle.

Variable random : nat -> R.
Variable devicePixelRatio : R.

Lemma idle_frame (ts : R) (s : Banner) :
  active (morph s) = false -> frames (host s) <> [] ->
  let s' := state_of (frame random devicePixelRatio ts s) in
  cells s' = map (physics (mouseX s) (mouseY s)) (cells s)
  /\ mouseX s' = mouseX s /\ mouseY s' = mouseY s
  /\ active (morph s') = false /\ frames (host s') <> [].
Proof.
  intros EA Hfr. unfold frame.
  destruct (frames (host s)) as [|f rest]; [congruence|].
  erewrite render_after by (apply morph_update_inactive; exact EA).
  cbn. repeat split; auto. intros H. now apply app_eq_nil in H.
Qed.

Lemma idle_frames (tss : list R) :
  forall s, active (morph s) = false -> frames (host s) <> [] ->
            let s' := run random devicePixelRatio (map Frame tss) s in
            cells s' = map (Nat.iter (length tss) (physics (mouseX s) (mouseY s)))
                           (cells s)
            /\ mouseX s' = mouseX s /\ mouseY s' = mouseY s
            /\ active (morph s') = false /\ frames (host s') <> [].
Proof.
  induction tss as [|ts tss IH]; intros s EA Hfr.
  - cbn. rewrite map_id. auto.
  - cbn [map]. rewrite run_cons. cbn [step length].
    destruct (idle_frame ts s EA Hfr) as (Hc & Hx & Hy & EA' & Hfr').
    destruct (IH _ EA' Hfr') as (Gc & Gx & Gy & GA & Gfr).
    cbv zeta. rewrite Gc, Gx, Gy, Hc, Hx, Hy, map_map.
    repeat split; auto.
    apply map_ext. intros c. symmetry. apply Nat.iter_succ_r.
Qed.

End Idle.

(** X8: idle frames.  In a connected instance that has not been
    disconnected and has no morph active, a run of n frames with nothing in
    between applies the physics step n times to every cell, with the pointer
    where it was, and changes nothing else of the cells: their glyphs and
    rest positions stay. *)
Theorem X8_idle_frames (random : nat -> R) (devicePixelRatio : R)
        (arts : list (list jsstring)) (canvas : bool) (measured : R)
        (es : list event) (tss : list R) :
  let s0 := state_of (boot random devicePixelRatio arts canvas measured) in
  let s := run random devicePixelRatio es s0 in
  let s' := run random devicePixelRatio (map Frame tss) s in
  connected s0 -> existsb is_disconnect es = false ->
  active (morph s) = false ->
  cells s' = map (Nat.iter (length tss) (physics (mouseX s) (mouseY s))) (cells s)
  /\ map char (cells s') = map char (cells s)
  /\ map geometry (cells s') = map geometry (cells s)
  /\ mouseX s' = mouseX s /\ mouseY s' = mouseY s
  /\ active (morph s') = false.
Proof.
  intros s0 s s' Hc Hd EA.
  assert (Hfr : frames (host s) <> []).
  { unfold s. rewrite frame_pending_run; auto; try discriminate.
    - apply Inv_boot.
    - apply Steady_boot.
    - now apply boot_frames. }
  destruct (idle_frames random devicePixelRatio tss s EA Hfr)
    as (Gc & Gx & Gy & GA & _).
  fold s' in Gc, Gx, Gy, GA.
  split; [exact Gc|]. rewrite Gc, !map_map.
  repeat split; auto; apply map_ext; intros c;
    destruct (iter_physics (mouseX s) (mouseY s) (length tss) c)
      as (_ & Hg & Hch & _); auto.
Qed.

Lemma X8_idle_frames_witness :
  cells (run rnd0 1 (map Frame [16; 32]) demo_boot)
  = map (Nat.iter 2 (physics (mouseX demo_boot) (mouseY demo_boot)))
        (cells demo_boot).
Proof.
  destruct (@X8_idle_frames rnd0 1 demo_arts true 8 [] [16; 32]
              demo_boot_connected) as (H & _); try reflexivity.
  - unfold demo_boot. now rewrite demo_boot_attached.
  - exact H.
Defined.

(** ** The pointer sentinel *)

Lemma sentinel_out_of_reach (x y : R) :
  0 <= x -> repel (-9999) (-9999) x y = (0, 0).
Proof.
  intros Hx. apply repel_outside. intros [_ H].
  assert (Hle : 80 * 80 <= (x - -9999) * (x - -9999) + (y - -9999) * (y - -9999)).
  { pose proof (Rle_0_sqr (y - -9999)) as Hy. unfold Rsqr in Hy. nra. }
  apply sqrt_le_1_alt in Hle. rewrite sqrt_square in Hle by lra.
  unfold REPEL_RADIUS in H. lra.
Qed.

(** X9: the pointer sentinel.  When the pointer has left, [mouseX] and
    [mouseY] hold -9999; from there no cell of a connected instance with a
    non-negative glyph width is repelled, so each cell is anchored at its
    rest position and physics steps bring it back there: after n steps its
    squared distance from rest, per axis, is at most 12 * 0.7^n times its
    energy about the rest position. *)
Theorem X9_pointer_sentinel (random : nat -> R) (devicePixelRatio : R)
        (arts : list (list jsstring)) (canvas : bool) (measured : R)
        (es : list event) :
  let s0 := state_of (boot random devicePixelRatio arts canvas measured) in
  let s := run random devicePixelRatio es s0 in
  connected s0 -> 0 <= measured ->
  mouseX fresh = -9999 /\ mouseY fresh = -9999
  /\ mouseX (mouseleave s) = -9999 /\ mouseY (mouseleave s) = -9999
  /\ forall c, In c (cells s) ->
       repel (-9999) (-9999) (rx c) (ry c) = (0, 0)
       /\ anchor (-9999) (-9999) c = (rx c, ry c)
       /\ forall n,
            let c' := Nat.iter n (physics (-9999) (-9999)) c in
            (px c' - rx c) * (px c' - rx c)
            <= 12 * DAMPING ^ n * energy (px c - rx c) (vx c)
            /\ (py c' - ry c) * (py c' - ry c)
               <= 12 * DAMPING ^ n * energy (py c - ry c) (vy c).
Proof.
  intros s0 s Hc Hm.
  split; [reflexivity|]. split; [reflexivity|].
  split; [unfold mouseleave; cbn; destruct (isMorphing s); reflexivity|].
  split; [unfold mouseleave; cbn; destruct (isMorphing s); reflexivity|].
  intros c Hin.
  assert (Hx : 0 <= rx c).
  { destruct (@current_block random devicePixelRatio arts canvas measured es Hc)
      as (_ & _ & _ & _ & art & _ & Hg & _). fold s0 in Hg. fold s in Hg.
    destruct (@geometry_In _ _ c Hg Hin) as (c' & Hin' & Hgeo).
    unfold geometry in Hgeo. injection Hgeo as _ _ Hrx _.
    destruct (@buildGrid_box measured art c' Hm Hin') as (B1 & _). lra. }
  pose proof (sentinel_out_of_reach (ry c) Hx) as Hr.
  assert (Ha : anchor (-9999) (-9999) c = (rx c, ry c)).
  { unfold anchor. rewrite Hr. cbn [fst snd]. unfold SPRING_K. f_equal; field; lra. }
  split; [exact Hr|]. split; [exact Ha|].
  intros n c'.
  destruct (iter_physics (-9999) (-9999) n c) as (_ & _ & _ & Ex & Ey).
  fold c' in Ex, Ey. rewrite Ha in Ex, Ey. cbn [fst snd] in Ex, Ey.
  destruct (energy_bounds (px c' - rx c) (vx c')) as (B1 & _).
  destruct (energy_bounds (py c' - ry c) (vy c')) as (B2 & _).
  rewrite Ex in B1. rewrite Ey in B2. split; lra.
Qed.

Lemma X9_pointer_sentinel_witness :
  anchor (-9999) (-9999) demo_cell = (rx demo_cell, ry demo_cell).
Proof.
  destruct (@X9_pointer_sentinel rnd0 1 demo_arts true 8 [] demo_boot_connected)
    as (_ & _ & _ & _ & H); [lra|].
  apply (H demo_cell demo_cell_boot).
Defined.

(** ** A morph in flight *)

Section InFlight.

Variable random : nat -> R.
Variable devicePixelRatio : R.

(** From a state with an active morph, an event either leaves the morph
    record as it is, or it is the completing frame. *)
Lemma step_frozen (e : event) (s : Banner) :
  Inv s -> active (morph s) = true ->
  let s' := state_of (step random devicePixelRatio e s) in
  (morph s' = morph s
   /\ map geometry (cells s') = map geometry (cells s)
   /\ currentTextIndex s' = currentTextIndex s
   /\ completed s' = completed s)
  \/ (active (morph s') = false /\ completed s' = S (completed s)).
Proof.
  intros I EA.
  assert (EM : isMorphing s = true) by (rewrite (inv_flag I); exact EA).
  destruct e; cbn [step state_of].
  - left. destruct (listening (host s)); repeat split; auto.
  - left. destruct (listening (host s)); repeat split; auto.
  - left. destruct (listening (host s)); [|repeat split; auto].
    unfold mouseleave.
    change (isMorphing (set_mouse (-9999) (-9999) (set_hovering false s)))
      with (isMorphing s).
    rewrite EM. repeat split; auto.
  - left. unfold fire. destruct (find_timer h s) as [t|]; [|repeat split; auto].
    destruct (action t); cbn [state_of]; [repeat split; auto|].
    rewrite cycle_gated by (left; exact EM). repeat split; auto.
  - unfold frame. destruct (frames (host s)) as [|f rest]; [left; repeat split; auto|].
    set (s0 := set_host (set_frames rest (host s)) s).
    assert (I0 : Inv s0) by (destruct I; constructor; cbn; auto).
    destruct (morph_update_cases random devicePixelRatio timestamp I0)
      as [(E0 & E) | [(E0 & _ & E) | (E0 & Hp & k & art & Hcb & Hart & _ & E)]];
      erewrite render_after by exact E; cbn [state_of].
    + cbn in E0. congruence.
    + left. rewrite completed_after_morph. repeat split; auto.
      cbn [after_morph cells set_rafId requestAnimationFrame snd emit set_host
           draw emit_all physics_update set_cells looped].
      rewrite map_geometry_physics.
      apply (morph_loop_geometry random timestamp s0).
    + right. rewrite completed_after_morph. split; reflexivity.
  - left. repeat split; auto.
Qed.

(** Completion callbacks are only ever added. *)
Lemma completed_step_le (e : event) (s : Banner) :
  Inv s -> (completed s <= completed (state_of (step random devicePixelRatio e s)))%nat.
Proof.
  intros I. destruct (active (morph s)) eqn:EA.
  - destruct (step_frozen e I EA) as [(_ & _ & _ & H) | (_ & H)]; rewrite H; lia.
  - assert (EM : isMorphing s = false) by (rewrite (inv_flag I); exact EA).
    apply Nat.eq_le_incl. symmetry. destruct e; cbn [step state_of].
    + destruct (listening (host s)); reflexivity.
    + destruct (listening (host s)); reflexivity.
    + destruct (listening (host s)); [|reflexivity].
      unfold mouseleave.
      change (isMorphing (set_mouse (-9999) (-9999) (set_hovering false s)))
        with (isMorphing s).
      rewrite EM. reflexivity.
    + unfold fire. destruct (find_timer h s) as [t|]; [|reflexivity].
      destruct (action t); [reflexivity|].
      unfold cycle.
      destruct (isMorphing (drop_timer h s) || hovering (drop_timer h s))%bool;
        [reflexivity|].
      unfold startMorph. destruct (active _); [reflexivity|].
      destruct (nth_error _ _); reflexivity.
    + now destruct (frame_inactive random devicePixelRatio timestamp s EA) as (_ & H & _).
    + reflexivity.
Qed.

Lemma completed_run_le (es : list event) :
  forall s, Inv s -> (completed s <= completed (run random devicePixelRatio es s))%nat.
Proof.
  induction es as [|e es IH]; intros s I; [apply Nat.le_refl|].
  rewrite run_cons.
  apply Nat.le_trans with (1 := completed_step_le e I).
  apply IH. now apply Inv_step.
Qed.

Lemma frozen_run (es : list event) :
  forall s, Inv s -> active (morph s) = true ->
            let s' := run random devicePixelRatio es s in
            completed s' = completed s ->
            morph s' = morph s
            /\ map geometry (cells s') = map geometry (cells s)
            /\ currentTextIndex s' = currentTextIndex s.
Proof.
  induction es as [|e es IH]; intros s I EA; [cbn; auto|].
  rewrite run_cons. intros s' Hc.
  pose proof (Inv_step random devicePixelRatio e I) as I'.
  pose proof (completed_run_le es I') as Hle. fold s' in Hle.
  destruct (step_frozen e I EA) as [(Hm & Hg & Hi & Hk) | (_ & Hk)]; [|lia].
  destruct (IH _ I') as (Gm & Gg & Gi).
  - now rewrite Hm.
  - fold s'. congruence.
  - fold s' in Gm, Gg, Gi. repeat split; congruence.
Qed.

(** What the morph loop shows a cell at the two ends of its window. *)
Lemma morph_loop_ends (ts : R) (s : Banner) :
  Inv s -> active (morph s) = true ->
  let m := morph s in
  let p := progress_at ts m in
  length (fst (morph_loop random ts s)) = length (cells s)
  /\ forall i c, nth_error (cells s) i = Some c ->
       exists g snap,
         nth_error (fst (morph_loop random ts s)) i = Some (with_char g c)
         /\ nth_error (fromSnap m) i = Some snap
         /\ (threshold_of c <= p -> g = toChar_at m c)
         /\ (p <= threshold_of c * 0.3 -> g = char snap).
Proof.
  intros I EA m p.
  destruct (inv_morph I EA) as (Hthr & Hlen & _).
  destruct (morph_loop_spec random ts s) as (l' & d' & E & Hlen' & _ & Hnth).
  rewrite E. cbn [fst]. split; [exact Hlen'|].
  intros i c Hc.
  destruct (Hnth i c Hc) as (g & Hg & Hrule).
  assert (Ht : nth_error (thresholds m) i = Some (threshold_of c)).
  { unfold m. rewrite Hthr. now apply map_nth_error. }
  destruct (@nth_error_defined _ (fromSnap m) i) as (snap & Hsnap).
  { unfold m. rewrite Hlen. apply nth_error_Some. congruence. }
  exists g, snap. split; [exact Hg|]. split; [exact Hsnap|].
  pose proof (threshold_of_bounds c) as Hb.
  unfold glyph_rule in Hrule. fold m p in Hrule. rewrite Ht in Hrule.
  cbn [resolved glitching] in Hrule.
  split; intros Hp.
  - replace (Rleb (threshold_of c) p) with true in Hrule
      by (symmetry; now apply Rleb_true).
    exact Hrule.
  - replace (Rleb (threshold_of c) p) with false in Hrule
      by (symmetry; apply Rleb_false; lra).
    replace (Rltb (threshold_of c * 0.3) p) with false in Hrule
      by (symmetry; now apply Rltb_false).
    unfold fromChar_at in Hrule. fold m in Hrule. now rewrite Hsnap in Hrule.
Qed.

End InFlight.

(** X10: a morph in flight is left alone.  From a state with an active
    morph, as long as no completion callback has run, whatever events
    arrive (pointer, timers, frames, disconnection) the morph record is the
    one [startMorph] wrote: same start time, snapshot, target lines,
    thresholds and callback; the cells keep their geometry and
    [currentTextIndex] its value.  The number of completed morphs never
    decreases. *)
Theorem X10_morph_in_flight (random : nat -> R) (devicePixelRatio : R)
        (arts : list (list jsstring)) (canvas : bool) (measured : R)
        (es later : list event) :
  let s := run random devicePixelRatio es
               (state_of (boot random devicePixelRatio arts canvas measured)) in
  let s' := run random devicePixelRatio later s in
  active (morph s) = true ->
  (completed s <= completed s')%nat
  /\ (completed s' = completed s ->
      morph s' = morph s
      /\ map geometry (cells s') = map geometry (cells s)
      /\ currentTextIndex s' = currentTextIndex s).
Proof.
  intros s s' EA.
  assert (I : Inv s) by apply Inv_reachable.
  split; [now apply completed_run_le|].
  now apply frozen_run.
Qed.

Lemma X10_morph_in_flight_witness :
  morph (run rnd0 1 [MouseEnter; MouseMove 3 4; Disconnect] demo_morphing)
  = morph demo_morphing.
Proof.
  destruct (@X10_morph_in_flight rnd0 1 demo_arts true 8
              [TimerFire 1 2000; TimerFire 2 4000]
              [MouseEnter; MouseMove 3 4; Disconnect] demo_morphing_active)
    as (_ & H).
  apply H. fold demo_boot. fold demo_morphing.
  unfold demo_morphing, demo_boot. rewrite demo_boot_attached. reflexivity.
Defined.

Lemma progress_at_600 (ts : R) (m : Morph) :
  duration m = 600 -> progress_at ts m = Rmin ((ts - startTime m) / 600) 1.
Proof. intros H. unfold progress_at. now rewrite H. Qed.

(** X11: the timeline of a morph, in milliseconds after its start time.
    Up to 27 ms every cell still shows its snapshot glyph; from 510 ms on
    every cell shows its glyph in the next block of the style; the frame
    that ends the morph is the first one at or after 600 ms; and progress
    never goes back when the timestamps do not. *)
Theorem X11_morph_timeline (random : nat -> R) (devicePixelRatio : R)
        (arts : list (list jsstring)) (canvas : bool) (measured : R)
        (es : list event) (ts : R) :
  let s := run random devicePixelRatio es
               (state_of (boot random devicePixelRatio arts canvas measured)) in
  active (morph s) = true ->
  let m := morph s in
  let t0 := startTime m in
  let shown := fst (morph_loop random ts s) in
  (ts <= t0 + 27 -> map char shown = map char (fromSnap m))
  /\ (t0 + 510 <= ts ->
      exists art,
        nth_error (fontArts s)
                  ((currentTextIndex s + 1) mod length (fontArts s)) = Some art
        /\ map char shown = map (target_glyph art) (cells s))
  /\ (exists s', render random devicePixelRatio ts s = Returned s'
                 /\ (active (morph s') = false <-> t0 + 600 <= ts))
  /\ (forall ts', ts <= ts' -> progress_at ts m <= progress_at ts' m).
Proof.
  intros s EA m t0 shown.
  assert (I : Inv s) by apply Inv_reachable.
  assert (St : Steady devicePixelRatio s) by apply Steady_reachable.
  destruct (inv_morph I EA) as (Hthr & Hlen & k & art & Hcb & Hart & Hto).
  pose proof (std_next St EA) as Hk. rewrite Hcb in Hk. injection Hk as Hk.
  destruct (morph_loop_ends random ts I EA) as (Hlen' & Hends).
  fold m shown in Hlen', Hends.
  pose proof (progress_at_600 ts m (inv_duration I)) as Hp. fold t0 in Hp.
  split; [|split; [|split]].
  - intros Hts. apply map_eq_nth; [unfold m; lia|].
    intros i c' snap' Hc' Hsnap'.
    destruct (@nth_error_defined _ (cells s) i) as (c & Hc).
    { rewrite <- Hlen'. apply nth_error_Some. congruence. }
    destruct (Hends i c Hc) as (g & snap & H1 & H2 & _ & H4).
    pose proof (threshold_of_bounds c).
    assert (c' = with_char g c) by congruence. assert (snap' = snap) by congruence.
    subst c' snap'. cbn. apply H4. rewrite Hp.
    unfold Rmin. destruct (Rle_dec _ _); lra.
  - intros Hts. exists art. split; [now rewrite <- Hk|].
    apply map_eq_nth; [exact Hlen'|].
    intros i c' c0 Hc' Hc.
    destruct (Hends i c0 Hc) as (g & snap & H1 & _ & H3 & _).
    pose proof (threshold_of_bounds c0).
    assert (c' = with_char g c0) by congruence. subst c'. cbn.
    rewrite <- (toChar_target m art c0 Hto). apply H3. rewrite Hp.
    unfold Rmin. destruct (Rle_dec _ _); lra.
  - destruct (Rleb 1 (progress_at ts (morph s))) eqn:EP.
    + eexists. split.
      * apply render_after.
        apply (@morph_update_completing random devicePixelRatio ts s k art); auto.
      * apply Rleb_true in EP. fold m in EP. rewrite Hp in EP.
        split; [intros _ | reflexivity].
        revert EP. unfold Rmin. destruct (Rle_dec _ _); lra.
    + eexists. split.
      * apply render_after, morph_update_running; [exact EA | exact EP].
      * apply Rleb_false in EP. fold m in EP. rewrite Hp in EP.
        split.
        -- cbn. fold m. unfold m. rewrite EA. discriminate.
        -- intros Hts. exfalso.
           revert EP. unfold Rmin. destruct (Rle_dec _ _); lra.
  - intros ts' Hle. rewrite Hp, (progress_at_600 ts' m (inv_duration I)).
    fold t0. unfold Rmin. repeat destruct (Rle_dec _ _); lra.
Qed.

Lemma X11_morph_timeline_witness :
  map char (fst (morph_loop rnd0 4020 demo_morphing))
  = map char (fromSnap (morph demo_morphing)).
Proof.
  destruct (@X11_morph_timeline rnd0 1 demo_arts true 8
              [TimerFire 1 2000; TimerFire 2 4000] 4020 demo_morphing_active)
    as (H & _).
  apply H. fold demo_boot. fold demo_morphing.
  unfold demo_morphing, demo_boot. rewrite demo_boot_attached. cbn. lra.
Defined.

(** ** What can appear on the canvas *)

Lemma buildGrid_showable (style : list jsstring) (charWidth : R) (art : jsstring) :
  In art style ->
  Forall (fun c => showable style (char c)) (buildGrid charWidth art).
Proof.
  intros Hart. apply Forall_forall. intros c Hin.
  apply buildGrid_In in Hin. destruct Hin as (r & k & g & Hg & ->).
  unfold glyph_at in Hg.
  destruct (nth_error (split_nl art) r) as [line|] eqn:El; [|discriminate].
  right. left. exists art, line. cbn [char restCell].
  repeat split; auto; eapply nth_error_In; eassumption.
Qed.

Lemma toChar_showable (style : list jsstring) (m : Morph) (art : jsstring) (c : Cell) :
  In art style -> toLines m = map array_from (split_nl art) ->
  showable style (toChar_at m c).
Proof.
  intros Hart Hto. unfold toChar_at. rewrite Hto, nth_error_map.
  destruct (nth_error (split_nl art) (row c)) as [line|] eqn:El; cbn; [|now left].
  destruct (nth_error (array_from line) (col c)) as [g|] eqn:Eg; [|now left].
  right. left. exists art, line.
  repeat split; auto; eapply nth_error_In; eassumption.
Qed.

Lemma fromChar_showable (style : list jsstring) (m : Morph) (i : nat) :
  Forall (fun c => showable style (char c)) (fromSnap m) ->
  showable style (fromChar_at m i).
Proof.
  intros H. unfold fromChar_at.
  destruct (nth_error (fromSnap m) i) as [c|] eqn:E; [|now left].
  rewrite Forall_forall in H. apply H. eapply nth_error_In; exact E.
Qed.

Lemma Forall_physics (P : jsstring -> Prop) (mx my : R) (l : list Cell) :
  Forall (fun c => P (char c)) l ->
  Forall (fun c => P (char c)) (map (physics mx my) l).
Proof.
  intros H. apply Forall_map. eapply Forall_impl; [|exact H].
  intros c Hc. cbn beta. now rewrite char_physics.
Qed.

Lemma Forall_nth_error {A : Type} (P : A -> Prop) (l : list A) :
  (forall i x, nth_error l i = Some x -> P x) -> Forall P l.
Proof.
  intros H. apply Forall_forall. intros x Hin.
  apply In_nth_error in Hin. destruct Hin as (i & Hi). eauto.
Qed.

Lemma draw_cell_FillText (l : list Cell) (ch : jsstring) (x y : R) :
  In (FillText ch x y) (flat_map draw_cell l) ->
  ch <> blank /\ exists c, In c l /\ ch = char c.
Proof.
  intros H. apply in_flat_map in H. destruct H as (c & Hc & H).
  unfold draw_cell, jsstring_eqb in H.
  destruct (list_eq_dec N.eq_dec (char c) blank) as [E|E]; [contradiction|].
  destruct H as [H | []]. injection H as <- _ _. eauto.
Qed.

Lemma Showable_fresh : Showable fresh.
Proof. constructor; cbn; auto. intros ch x y []. Qed.

(** A change that adds no [fillText] call and keeps the cells and the
    snapshot. *)
Lemma Showable_quiet (l : list effect) (s s' : Banner) :
  fontArts s' = fontArts s -> cells s' = cells s ->
  fromSnap (morph s') = fromSnap (morph s) ->
  log (host s') = l ++ log (host s) ->
  filter is_paint l = [] ->
  Showable s -> Showable s'.
Proof.
  intros Hf Hc Hm Hl Hq [S1 S2 S3].
  constructor; rewrite ?Hf, ?Hc, ?Hm; auto.
  intros ch x y H. rewrite Hl in H. apply in_app_or in H.
  destruct H as [H | H]; [|eapply S3; eassumption].
  assert (Hin : In (FillText ch x y) (filter is_paint l))
    by (apply filter_In; split; [exact H | reflexivity]).
  rewrite Hq in Hin. contradiction.
Qed.

Section ShowableSteps.

Variable random : nat -> R.
Variable devicePixelRatio : R.
Hypothesis random_range : forall n, 0 <= random n < 1.

Lemma Showable_after_morph (s : Banner) :
  Showable s -> Showable (after_morph devicePixelRatio s).
Proof.
  intros [S1 S2 S3]. constructor; cbn.
  - now apply Forall_physics.
  - exact S2.
  - intros ch x y [H | H]; [discriminate|].
    apply in_app_or in H. destruct H as [H | H]; [|eapply S3; eassumption].
    apply in_app_or in H. destruct H as [H | [H | []]]; [|discriminate].
    apply in_rev in H. apply draw_cell_FillText in H.
    destruct H as (Hne & c & Hc & ->). split; [exact Hne|].
    pose proof (Forall_physics (showable (fontArts s)) (mouseX s) (mouseY s) S1) as Hall.
    rewrite Forall_forall in Hall. now apply Hall.
Qed.

Lemma Showable_looped (ts : R) (s : Banner) :
  Inv s -> active (morph s) = true ->
  Showable s ->
  Showable (looped (fst (morph_loop random ts s)) (snd (morph_loop random ts s)) s).
Proof.
  intros I EA [S1 S2 S3].
  destruct (inv_morph I EA) as (_ & _ & k & art & _ & Hart & Hto).
  apply nth_error_In in Hart.
  constructor; cbn; auto.
  destruct (morph_loop_spec random ts s) as (l' & d' & E & Hlen & _ & Hnth).
  rewrite E. cbn [fst]. apply Forall_nth_error. intros i c' Hc'.
  destruct (@nth_error_defined _ (cells s) i) as (c & Hc).
  { rewrite <- Hlen. apply nth_error_Some. congruence. }
  destruct (Hnth i c Hc) as (g & Hg & Hrule).
  assert (c' = with_char g c) by congruence. subst c'. cbn [char with_char].
  unfold glyph_rule in Hrule.
  destruct (resolved _ _).
  - subst g. now apply (@toChar_showable (fontArts s) (morph s) art c Hart).
  - destruct (glitching _ _).
    + destruct Hrule as (d & ->). right. right.
      apply glitch_glyph_in, random_range.
    + subst g. now apply fromChar_showable.
Qed.

Lemma Showable_finished (k : nat) (art : jsstring) (s : Banner) :
  nth_error (fontArts s) k = Some art ->
  Showable s -> Showable (finished devicePixelRatio k art s).
Proof.
  intros Hart [S1 S2 S3]. apply nth_error_In in Hart.
  constructor; cbn; auto.
  - now apply buildGrid_showable.
  - intros ch x y [H | [H | H]]; try discriminate. eapply S3; eassumption.
Qed.

Lemma Showable_step (e : event) (s : Banner) :
  Inv s -> Showable s -> Showable (state_of (step random devicePixelRatio e s)).
Proof.
  intros I Sh. pose proof I as [Hm Hf Hd Ha]. destruct e; cbn [step state_of].
  - destruct (listening (host s)); [|exact Sh].
    apply (@Showable_quiet [ClearTimeout (cycleTimer s)] s); auto.
  - destruct (listening (host s)); [|exact Sh].
    apply (@Showable_quiet [] s); auto.
  - destruct (listening (host s)); [|exact Sh].
    unfold mouseleave.
    change (isMorphing (set_mouse (-9999) (-9999) (set_hovering false s)))
      with (isMorphing s).
    destruct (isMorphing s).
    + apply (@Showable_quiet [] s); auto.
    + apply (@Showable_quiet [SetTimeout (nextTimer (host s)) CallCycle (nextPause s)] s);
        auto.
  - unfold fire. destruct (find_timer h s) as [t|]; [|exact Sh].
    destruct (action t); cbn [state_of].
    + apply (@Showable_quiet [SetTimeout (nextTimer (host s)) CallCycle (nextPause s)] s);
        auto.
    + unfold cycle.
      destruct (isMorphing (drop_timer h s) || hovering (drop_timer h s))%bool;
        [apply (@Showable_quiet [] s); auto|].
      unfold startMorph.
      destruct (active _); [apply (@Showable_quiet [] s); auto|].
      destruct Sh as [S1 S2 S3].
      destruct (nth_error _ _); constructor; cbn; rewrite ?map_id; auto.
      intros ch x y [H | H]; [discriminate | eapply S3; eassumption].
  - unfold frame. destruct (frames (host s)) as [|f rest]; [exact Sh|].
    set (s0 := set_host (set_frames rest (host s)) s).
    assert (Sh0 : Showable s0) by (apply (@Showable_quiet [] s); auto).
    assert (I0 : Inv s0) by (constructor; cbn; auto).
    destruct (active (morph s0)) eqn:EA.
    + destruct (inv_morph I0 EA) as (_ & _ & k & art & Hcb & Hart & _).
      destruct (Rleb 1 (progress_at timestamp (morph s0))) eqn:EP.
      * erewrite render_after by (apply morph_update_completing; eassumption).
        apply Showable_after_morph, Showable_finished; [exact Hart|].
        now apply Showable_looped.
      * erewrite render_after by (apply morph_update_running; eassumption).
        apply Showable_after_morph. now apply Showable_looped.
    + erewrite render_after by (apply morph_update_inactive; eassumption).
      now apply Showable_after_morph.
  - apply (@Showable_quiet
             [ClearTimeout (cycleTimer s); CancelAnimationFrame (rafId s)] s); auto.
Qed.

Lemma Showable_run (es : list event) :
  forall s, Inv s -> Showable s -> Showable (run random devicePixelRatio es s).
Proof.
  induction es as [|e es IH]; intros s I Sh; simpl; auto.
  apply IH; [now apply Inv_step | now apply Showable_step].
Qed.

Lemma Showable_boot (arts : list (list jsstring)) (canvas : bool) (measured : R) :
  Showable (state_of (boot random devicePixelRatio arts canvas measured)).
Proof.
  unfold boot, connectedCallback.
  destruct (negb canvas || Nat.eqb (length arts) 0)%bool; [apply Showable_fresh|].
  cbn.
  destruct (index_Z arts _) as [style|]; cbn.
  2:{ constructor; cbn; auto. intros ch x y []. }
  destruct style as [|art style]; cbn.
  - constructor; cbn; auto. intros ch x y [].
  - constructor; cbn; auto.
    + apply buildGrid_showable. now left.
    + intros ch x y [H | [H | []]]; discriminate.
Qed.

End ShowableSteps.

(** X12: what can appear on the canvas.  With [Math.random] in [0, 1),
    every glyph ever passed to [fillText], and every glyph a cell holds, is
    a glyph of some block of the style picked at attachment or one
    character of the glitch alphabet (a cell may also hold the blank, which
    is never drawn): in particular the glitch index never runs past the
    alphabet. *)
Theorem X12_showable_glyphs (random : nat -> R) (devicePixelRatio : R)
        (arts : list (list jsstring)) (canvas : bool) (measured : R)
        (es : list event) :
  (forall n, 0 <= random n < 1) ->
  let s := run random devicePixelRatio es
               (state_of (boot random devicePixelRatio arts canvas measured)) in
  (forall ch x y, In (FillText ch x y) (log (host s)) ->
      ch <> blank /\ (block_glyph (fontArts s) ch \/ glitch ch))
  /\ (forall c, In c (cells s) ->
        char c = blank \/ block_glyph (fontArts s) (char c) \/ glitch (char c)).
Proof.
  intros Hrandom s.
  assert (Sh : Showable s).
  { apply Showable_run; [exact Hrandom | apply Inv_boot | now apply Showable_boot]. }
  split.
  - intros ch x y H. destruct (sh_log Sh _ _ _ H) as (Hne & [Hb | Hs]); [contradiction|].
    auto.
  - intros c Hin. pose proof (sh_cells Sh) as Hall.
    rewrite Forall_forall in Hall. now apply Hall.
Qed.

Lemma X12_showable_glyphs_witness :
  char demo_cell = blank
  \/ block_glyph (fontArts demo_morphing) (char demo_cell)
  \/ glitch (char demo_cell).
Proof.
  destruct (@X12_showable_glyphs rnd0 1 demo_arts true 8
              [TimerFire 1 2000; TimerFire 2 4000] rnd0_range) as (_ & H).
  exact (H demo_cell demo_cell_morphing).
Defined.

(** ** The pointer *)

Lemma scale_within (d w width : R) :
  0 < width -> 0 <= w -> 0 <= d <= width ->
  0 <= d * (w / width) <= w.
Proof.
  intros Hw H0 Hd.
  assert (Hq : 0 <= w / width).
  { unfold Rdiv. apply Rmult_le_pos; [lra|]. left. apply Rinv_0_lt_compat. lra. }
  split; [apply Rmult_le_pos; lra|].
  replace w with (width * (w / width)) at 2 by (field; lra).
  apply Rmult_le_compat_r; lra.
Qed.

(** A canvas sized at [sized] for the natural width [W], shown [W] wide and
    read at [ratio]: the offset [d] from its left edge is scaled by
    [sized / ratio], with an excess below one device pixel. *)
Lemma scale_natural (d W sized ratio : R) :
  0 < W -> 0 < sized -> 0 < ratio -> 0 <= d <= W ->
  d * (sized / ratio) <= d * (IZR (ceil (W * sized)) / ratio / W)
  /\ d * (IZR (ceil (W * sized)) / ratio / W) < d * (sized / ratio) + 1 / ratio.
Proof.
  intros HW Hs Hr Hd.
  pose proof (ceil_ge (W * sized)) as Hlo. pose proof (ceil_lt (W * sized)) as Hhi.
  set (C := IZR (ceil (W * sized))) in *.
  set (t := d / W).
  assert (Ht : 0 <= t <= 1).
  { unfold t. split.
    - unfold Rdiv. apply Rmult_le_pos; [lra|]. left. now apply Rinv_0_lt_compat.
    - apply Rmult_le_reg_r with W; [lra|]. unfold Rdiv.
      rewrite Rmult_assoc, Rinv_l by lra. lra. }
  assert (Hq : 0 < / ratio) by now apply Rinv_0_lt_compat.
  assert (E1 : d * (C / ratio / W) = t * C * / ratio) by (unfold t; field; lra).
  assert (E2 : d * (sized / ratio) = t * (W * sized) * / ratio) by (unfold t; field; lra).
  assert (E3 : 1 / ratio = / ratio) by (field; lra).
  rewrite E1, E2, E3.
  assert (H1 : t * (W * sized) <= t * C) by nra.
  assert (H2 : t * C < t * (W * sized) + 1) by nra.
  split; nra.
Qed.

(** X13: the pointer conversion of the [mousemove] listener, with the
    device pixel ratio read afresh at every event ([run_zoom]) and by the
    listener ([ratio]).  In a connected instance with a non-negative glyph
    width and non-negative ratios, and a bounding rectangle of positive
    size, a pointer inside the rectangle is mapped into the rectangle that
    a frame at [ratio] clears, whatever size the canvas is displayed at;
    when the bounding rectangle has exactly the size of that cleared
    rectangle the mapping is the offset from the rectangle's corner.  When
    the canvas is displayed at its natural width (the [naturalW] that
    [initCanvas] put in [canvas.style.width]), the horizontal offset is
    scaled by the ratio the canvas was sized at over [ratio], with an
    excess of less than one device pixel that comes from rounding the
    canvas width up; with the ratio unchanged since the canvas was sized
    the result is the offset up to that excess, and the offset itself when
    the natural width times the ratio is an integer.  The listener changes
    nothing but [mouseX] and [mouseY]. *)
Theorem X13_pointer_mapping (random : nat -> R) (devicePixelRatio : R)
        (arts : list (list jsstring)) (canvas : bool) (measured : R)
        (es : list (R * event)) (ratio : R)
        (rect : DOMRect) (clientX clientY : R) :
  let s0 := state_of (boot random devicePixelRatio arts canvas measured) in
  let s := run_zoom random es s0 in
  connected s0 -> 0 <= measured -> 0 <= ratio ->
  Forall (fun r => 0 <= r) (ratios devicePixelRatio es) ->
  0 < rect_width rect -> 0 < rect_height rect ->
  rect_left rect <= clientX <= rect_left rect + rect_width rect ->
  rect_top rect <= clientY <= rect_top rect + rect_height rect ->
  let w := canvasW (host s) / dpr ratio in
  let h := canvasH (host s) / dpr ratio in
  let s' := mousemove_at ratio rect clientX clientY s in
  let offset := clientX - rect_left rect in
  0 <= mouseX s' <= w /\ 0 <= mouseY s' <= h
  /\ (rect_width rect = w -> mouseX s' = offset)
  /\ (rect_height rect = h -> mouseY s' = clientY - rect_top rect)
  /\ s' = set_mouse (mouseX s') (mouseY s') s
  /\ exists art sized,
       In sized (ratios devicePixelRatio es)
       /\ nth_error (fontArts s) (currentTextIndex s) = Some art
       /\ canvasW (host s) = IZR (ceil (natural_width measured art * dpr sized))
       /\ (rect_width rect = natural_width measured art ->
           offset * (dpr sized / dpr ratio) <= mouseX s'
           /\ mouseX s' < offset * (dpr sized / dpr ratio) + 1 / dpr ratio
           /\ (dpr sized = dpr ratio ->
               offset <= mouseX s' < offset + 1 / dpr ratio
               /\ (IZR (ceil (natural_width measured art * dpr ratio))
                   = natural_width measured art * dpr ratio ->
                   mouseX s' = offset))).
Proof.
  intros s0 s Hc Hm Hd Hrs Hrw Hrh Hx Hy w h s' offset.
  destruct (@current_block_zoom random devicePixelRatio arts canvas measured es Hc)
    as (_ & _ & art & sized & Hin & Hart & _ & Hcv).
  fold s0 in Hart, Hcv. fold s in Hart, Hcv.
  assert (Hs0 : 0 <= sized) by (rewrite Forall_forall in Hrs; now apply Hrs).
  pose proof (dpr_pos Hs0) as Hsp. pose proof (dpr_pos Hd) as Hrp.
  assert (HW : canvasW (host s) = IZR (ceil (natural_width measured art * dpr sized))).
  { unfold canvas_size in Hcv. now injection Hcv as -> _. }
  assert (HH : canvasH (host s)
               = IZR (ceil (IZR (ceil (INR (length (split_nl art)) * LINE_HEIGHT))
                            * dpr sized))).
  { unfold canvas_size in Hcv. now injection Hcv as _ ->. }
  assert (Hq : 0 < / dpr ratio) by now apply Rinv_0_lt_compat.
  assert (Hw0 : 0 <= w).
  { unfold w, Rdiv. apply Rmult_le_pos; [|lra]. rewrite HW.
    apply Rle_trans with (2 := ceil_ge _). apply Rmult_le_pos; [|lra].
    unfold natural_width. apply Rle_trans with (2 := ceil_ge _).
    apply Rmult_le_pos; [apply pos_INR | exact Hm]. }
  assert (Hh0 : 0 <= h).
  { unfold h, Rdiv. apply Rmult_le_pos; [|lra]. rewrite HH.
    apply Rle_trans with (2 := ceil_ge _). apply Rmult_le_pos; [|lra].
    apply Rle_trans with (2 := ceil_ge _).
    apply Rmult_le_pos; [apply pos_INR | unfold LINE_HEIGHT; lra]. }
  assert (Ex : mouseX s' = offset * (w / rect_width rect)) by reflexivity.
  assert (Ey : mouseY s' = (clientY - rect_top rect) * (h / rect_height rect))
    by reflexivity.
  split; [rewrite Ex; apply scale_within; unfold offset; lra|].
  split; [rewrite Ey; apply scale_within; lra|].
  split; [intros E; rewrite Ex, <- E; field; lra|].
  split; [intros E; rewrite Ey, <- E; field; lra|].
  split; [reflexivity|].
  exists art, sized. split; [exact Hin|]. split; [exact Hart|]. split; [exact HW|].
  intros EW.
  assert (HWp : 0 < natural_width measured art) by (rewrite <- EW; exact Hrw).
  destruct (@scale_natural offset (natural_width measured art) (dpr sized) (dpr ratio))
    as (L & U); auto.
  { unfold offset. rewrite <- EW. lra. }
  rewrite <- HW in L, U. fold w in L, U. rewrite <- EW in L, U. rewrite <- Ex in L, U.
  split; [exact L|]. split; [exact U|].
  intros Er. rewrite Er in L, U.
  replace (dpr ratio / dpr ratio) with 1 in L, U by (field; lra).
  split; [lra|].
  intros Eint. rewrite Ex. unfold w. rewrite HW, Er, Eint, <- EW. field. lra.
Qed.

Lemma X13_pointer_mapping_witness :
  (0 <= mouseX (mousemove_at 1 (mkDOMRect 100 50 16 36) 104 59 zoomed_demo)
   <= canvasW (host zoomed_demo) / dpr 1)
  /\ (0 <= mouseY (mousemove_at 1 (mkDOMRect 100 50 16 36) 104 59 zoomed_demo)
      <= canvasH (host zoomed_demo) / dpr 1).
Proof.
  destruct (@X13_pointer_mapping rnd0 2 demo_arts true 8
              [(1, TimerFire 1 2000); (1, TimerFire 2 4000)] 1
              (mkDOMRect 100 50 16 36) 104 59 zoomed_boot_connected)
    as (H1 & H2 & _); cbn [rect_left rect_top rect_width rect_height]; try lra.
  - unfold ratios. cbn [map fst].
    apply Forall_cons; [lra|]. apply Forall_cons; [lra|].
    apply Forall_cons; [lra|]. apply Forall_nil.
  - split; [exact H1 | exact H2].
Defined.

(** The running example, attached at ratio 2 and zoomed out to 1, shown at
    its natural width of 16: a pointer 4 to the right of the canvas edge is
    taken to be 8 to the right of it. *)
Lemma zoomed_pointer :
  mouseX (mousemove_at 1 (mkDOMRect 100 50 16 36) 104 59 zoomed_demo) = 8.
Proof.
  change (mouseX (mousemove_at 1 (mkDOMRect 100 50 16 36) 104 59 zoomed_demo))
    with ((104 - 100) * (canvasW (host zoomed_demo) / dpr 1 / 16)).
  rewrite zoomed_demo_canvasW, dpr_nonzero by lra. lra.
Qed.

(** ** A banner nobody touches *)

Lemma physics_at_rest (c : Cell) :
  at_rest c -> 0 <= rx c ->
  at_rest (physics (-9999) (-9999) c) /\ 0 <= rx (physics (-9999) (-9999) c).
Proof.
  intros (Hpx & Hpy & Hvx & Hvy) Hx.
  destruct (physics_repel (-9999) (-9999) c) as (Evx & Evy & Epx & Epy & Eg & _).
  rewrite (sentinel_out_of_reach (ry c) Hx) in Evx, Evy. cbn [fst snd] in Evx, Evy.
  unfold geometry in Eg. injection Eg as _ _ Erx Ery.
  rewrite Hvx, Hpx in Evx. rewrite Hvy, Hpy in Evy.
  assert (Zx : vx (physics (-9999) (-9999) c) = 0) by (rewrite Evx; ring).
  assert (Zy : vy (physics (-9999) (-9999) c) = 0) by (rewrite Evy; ring).
  unfold at_rest. rewrite Epx, Epy, Zx, Zy, Erx, Ery.
  repeat split; auto; lra.
Qed.

Lemma buildGrid_still (charWidth : R) (art : jsstring) :
  0 <= charWidth ->
  Forall (fun c => at_rest c /\ 0 <= rx c) (buildGrid charWidth art).
Proof.
  intros Hw. apply Forall_forall. intros c Hin. split.
  - now apply buildGrid_at_rest in Hin.
  - now destruct (@buildGrid_box charWidth art c Hw Hin).
Qed.

(** A change that keeps the pointer, the glyph width and the cells. *)
Lemma Still_same (s s' : Banner) :
  mouseX s' = mouseX s -> mouseY s' = mouseY s -> charWidth s' = charWidth s ->
  cells s' = cells s -> Still s -> Still s'.
Proof. intros Hx Hy Hw Hc [S1 S2 S3]. constructor; rewrite ?Hx, ?Hy, ?Hw, ?Hc; auto. Qed.

Section StillSteps.

Variable random : nat -> R.
Variable devicePixelRatio : R.

Lemma Still_after_morph (s : Banner) :
  Still s -> Still (after_morph devicePixelRatio s).
Proof.
  intros [(Hx & Hy) S2 S3]. constructor; cbn; auto.
  rewrite Hx, Hy. apply Forall_map. eapply Forall_impl; [|exact S3].
  intros c (Hr & H0). now apply physics_at_rest.
Qed.

Lemma Still_looped (ts : R) (s : Banner) :
  Still s ->
  Still (looped (fst (morph_loop random ts s)) (snd (morph_loop random ts s)) s).
Proof.
  intros [S1 S2 S3]. constructor; cbn; auto.
  destruct (morph_loop_spec random ts s) as (l' & d' & E & Hlen & _ & Hnth).
  rewrite E. cbn [fst]. apply Forall_nth_error. intros i c' Hc'.
  destruct (@nth_error_defined _ (cells s) i) as (c & Hc).
  { rewrite <- Hlen. apply nth_error_Some. congruence. }
  destruct (Hnth i c Hc) as (g & Hg & _).
  assert (c' = with_char g c) by congruence. subst c'.
  rewrite Forall_forall in S3. apply (S3 c). eapply nth_error_In; exact Hc.
Qed.

Lemma Still_finished (k : nat) (art : jsstring) (s : Banner) :
  Still s -> Still (finished devicePixelRatio k art s).
Proof.
  intros [S1 S2 S3]. constructor; cbn; auto. now apply buildGrid_still.
Qed.

Lemma Still_step (e : event) (s : Banner) :
  Inv s -> is_mousemove e = false ->
  Still s -> Still (state_of (step random devicePixelRatio e s)).
Proof.
  intros I He St. pose proof I as [Hm Hf Hd Ha]. destruct e; cbn [step state_of];
    try discriminate.
  - destruct (listening (host s)); [|exact St].
    apply (@Still_same s); auto.
  - destruct (listening (host s)); [|exact St].
    unfold mouseleave.
    change (isMorphing (set_mouse (-9999) (-9999) (set_hovering false s)))
      with (isMorphing s).
    destruct St as [S1 S2 S3].
    destruct (isMorphing s); constructor; cbn; auto.
  - unfold fire. destruct (find_timer h s) as [t|]; [|exact St].
    destruct (action t); cbn [state_of].
    + apply (@Still_same s); auto.
    + unfold cycle.
      destruct (isMorphing (drop_timer h s) || hovering (drop_timer h s))%bool;
        [apply (@Still_same s); auto|].
      unfold startMorph.
      destruct (active _); [apply (@Still_same s); auto|].
      destruct (nth_error _ _); apply (@Still_same s); auto.
  - unfold frame. destruct (frames (host s)) as [|f rest]; [exact St|].
    set (s0 := set_host (set_frames rest (host s)) s).
    assert (St0 : Still s0) by (apply (@Still_same s); auto).
    assert (I0 : Inv s0) by (constructor; cbn; auto).
    destruct (active (morph s0)) eqn:EA.
    + destruct (inv_morph I0 EA) as (_ & _ & k & art & Hcb & Hart & _).
      destruct (Rleb 1 (progress_at timestamp (morph s0))) eqn:EP.
      * erewrite render_after by (apply morph_update_completing; eassumption).
        apply Still_after_morph, Still_finished. now apply Still_looped.
      * erewrite render_after by (apply morph_update_running; eassumption).
        apply Still_after_morph. now apply Still_looped.
    + erewrite render_after by (apply morph_update_inactive; eassumption).
      now apply Still_after_morph.
  - apply (@Still_same s); auto.
Qed.

Lemma Still_run (es : list event) :
  forall s, Inv s -> existsb is_mousemove es = false ->
            Still s -> Still (run random devicePixelRatio es s).
Proof.
  induction es as [|e es IH]; intros s I He St; [exact St|].
  cbn [existsb] in He. apply orb_false_elim in He. destruct He as [He Hes].
  rewrite run_cons. apply IH; auto using Inv_step, Still_step.
Qed.

Lemma Still_boot (arts : list (list jsstring)) (canvas : bool) (measured : R) :
  0 <= measured ->
  Still (state_of (boot random devicePixelRatio arts canvas measured)).
Proof.
  intros Hm. unfold boot, connectedCallback.
  destruct (negb canvas || Nat.eqb (length arts) 0)%bool.
  { constructor; cbn; auto; lra. }
  cbn.
  destruct (index_Z arts _) as [style|]; cbn.
  2:{ constructor; cbn; auto. }
  destruct style as [|art style]; cbn.
  - constructor; cbn; auto.
  - constructor; cbn; auto. now apply buildGrid_still.
Qed.

End StillSteps.

(** X14: a banner nobody touches stands still.  With a non-negative glyph
    width, as long as no [mousemove] has arrived, the pointer coordinates
    are the sentinel and every cell sits exactly at its rest position with
    zero velocity, morph or no morph: the spring and the repulsion do
    nothing, and every frame draws the glyphs on the grid. *)
Theorem X14_still_without_pointer (random : nat -> R) (devicePixelRatio : R)
        (arts : list (list jsstring)) (canvas : bool) (measured : R)
        (es : list event) :
  let s := run random devicePixelRatio es
               (state_of (boot random devicePixelRatio arts canvas measured)) in
  0 <= measured -> existsb is_mousemove es = false ->
  mouseX s = -9999 /\ mouseY s = -9999
  /\ forall c, In c (cells s) ->
       px c = rx c /\ py c = ry c /\ vx c = 0 /\ vy c = 0
       /\ physics (mouseX s) (mouseY s) c = c.
Proof.
  intros s Hm He.
  assert (St : Still s).
  { apply Still_run; [apply Inv_boot | exact He | now apply Still_boot]. }
  destruct St as [(Hx & Hy) _ S3].
  split; [exact Hx|]. split; [exact Hy|].
  intros c Hin. rewrite Forall_forall in S3. destruct (S3 c Hin) as (Hr & H0).
  pose proof Hr as (H1 & H2 & H3 & H4).
  repeat split; auto.
  rewrite Hx, Hy.
  destruct (physics_at_rest Hr H0) as ((G1 & G2 & G3 & G4) & _).
  destruct (physics_repel (-9999) (-9999) c) as (_ & _ & _ & _ & Eg & Ec).
  unfold geometry in Eg. injection Eg as Er Ek Erx Ery.
  destruct (physics (-9999) (-9999) c) as [ch' r' k' rx' ry' px' py' vx' vy'].
  destruct c as [ch r k rx0 ry0 px0 py0 vx0 vy0].
  cbn in *. congruence.
Qed.

Lemma X14_still_without_pointer_witness :
  physics (mouseX demo_morphing) (mouseY demo_morphing) demo_cell = demo_cell.
Proof.
  destruct (@X14_still_without_pointer rnd0 1 demo_arts true 8
              [TimerFire 1 2000; TimerFire 2 4000]) as (_ & _ & H);
    [lra | reflexivity |].
  destruct (H demo_cell demo_cell_morphing) as (_ & _ & _ & _ & H5). exact H5.
Defined.

(** ** One full cycle *)

Section FullCycle.

Variable random : nat -> R.
Variable devicePixelRatio : R.

(** A cycle timer that fires on an idle instance nobody hovers starts the
    morph to the next block. *)
Lemma fire_cycle_starts (h : nat) (now : R) (t : Timer) (s : Banner) :
  Inv s -> find_timer h s = Some t -> action t = CallCycle ->
  isMorphing s = false -> hovering s = false ->
  let next := ((currentTextIndex s + 1) mod length (fontArts s))%nat in
  exists art,
    nth_error (fontArts s) next = Some art
    /\ fire h now s
       = Returned
           (emit (PerformanceNow now)
              (set_morph {| active := true; startTime := now;
                            duration := duration (morph s);
                            fromSnap := cells s;
                            toLines := map array_from (split_nl art);
                            thresholds := map threshold_of (cells s);
                            onComplete := Some (CycleDone next) |}
                 (set_isMorphing true (drop_timer h s)))).
Proof.
  intros I Hfind Hact EM EH next. subst next.
  assert (Hne : fontArts s <> []).
  { apply (inv_arts I). left. unfold find_timer in Hfind.
    now apply find_nonempty in Hfind. }
  destruct (mod_index_in_range (currentTextIndex s + 1) Hne) as (art & Hart).
  exists art. split; [exact Hart|].
  assert (EA : active (morph s) = false) by (rewrite <- (inv_flag I); exact EM).
  unfold fire. rewrite Hfind, Hact. unfold cycle.
  cbn [isMorphing hovering drop_timer set_host]. rewrite EM, EH. cbn [orb].
  unfold startMorph. cbn [morph set_isMorphing drop_timer set_host]. rewrite EA.
  cbn [fontArts currentTextIndex set_isMorphing drop_timer set_host set_morph].
  rewrite Hart. cbn. rewrite map_id. reflexivity.
Qed.

End FullCycle.

(** X15: one full cycle.  In a connected instance that has not been
    disconnected, is idle and is not hovered, a cycle timer that fires at
    time [now] starts the morph to the next block of the style (wrapping
    around) without touching the cells; the first frame at or after
    [now + 600] then ends it: the grid is rebuilt from the next block and
    moved by one physics step, [currentTextIndex] advances, one more
    completion is counted, and a new cycle timer is armed with the pause
    that was due. *)
Theorem X15_full_cycle (random : nat -> R) (devicePixelRatio : R)
        (arts : list (list jsstring)) (canvas : bool) (measured : R)
        (es : list event) (h : nat) (t : Timer) (now ts : R) :
  let s0 := state_of (boot random devicePixelRatio arts canvas measured) in
  let s := run random devicePixelRatio es s0 in
  connected s0 -> existsb is_disconnect es = false ->
  find_timer h s = Some t -> action t = CallCycle ->
  isMorphing s = false -> hovering s = false ->
  now + 600 <= ts ->
  let next := ((currentTextIndex s + 1) mod length (fontArts s))%nat in
  let s1 := state_of (step random devicePixelRatio (TimerFire h now) s) in
  let s2 := state_of (step random devicePixelRatio (Frame ts) s1) in
  exists art,
    nth_error (fontArts s) next = Some art
    /\ active (morph s1) = true /\ isMorphing s1 = true
    /\ startTime (morph s1) = now /\ cells s1 = cells s
    /\ active (morph s2) = false /\ isMorphing s2 = false
    /\ currentTextIndex s2 = next
    /\ completed s2 = S (completed s)
    /\ cells s2 = map (physics (mouseX s) (mouseY s)) (buildGrid measured art)
    /\ In {| handle := cycleTimer s2; delay := nextPause s; action := CallCycle |}
          (timers (host s2)).
Proof.
  intros s0 s Hc Hd Hfind Hact EM EH Hts next s1 s2.
  assert (I : Inv s) by apply Inv_reachable.
  destruct (@current_block random devicePixelRatio arts canvas measured es Hc)
    as (_ & _ & Hw & _).
  fold s0 in Hw. fold s in Hw.
  assert (Hfr : frames (host s) = [rafId s]).
  { unfold s. apply frame_pending_run; auto.
    - apply Inv_boot.
    - apply Steady_boot.
    - now apply boot_frames. }
  destruct (@fire_cycle_starts h now t s I Hfind Hact EM EH) as (art & Hart & E1).
  fold next in Hart, E1.
  exists art. split; [exact Hart|].
  unfold s2, s1. cbn [step]. rewrite E1. cbn [state_of].
  set (m := {| active := true; startTime := now; duration := duration (morph s);
               fromSnap := cells s; toLines := map array_from (split_nl art);
               thresholds := map threshold_of (cells s);
               onComplete := Some (CycleDone next) |}).
  set (s1' := emit (PerformanceNow now)
                (set_morph m (set_isMorphing true (drop_timer h s)))).
  split; [reflexivity|]. split; [reflexivity|]. split; [reflexivity|].
  split; [reflexivity|].
  unfold frame. replace (frames (host s1')) with [rafId s]
    by (symmetry; exact Hfr).
  set (s1'' := set_host (set_frames [] (host s1')) s1').
  assert (EP : Rleb 1 (progress_at ts (morph s1'')) = true).
  { apply Rleb_true. unfold progress_at. cbn. rewrite (inv_duration I).
    unfold Rmin. destruct (Rle_dec _ _); lra. }
  erewrite render_after
    by (apply (@morph_update_completing random devicePixelRatio ts s1'' next art);
        [reflexivity | exact EP | reflexivity | exact Hart]).
  cbn [state_of].
  split; [reflexivity|]. split; [reflexivity|]. split; [reflexivity|].
  split.
  { rewrite completed_after_morph. unfold completed. cbn. reflexivity. }
  split.
  { cbn. now rewrite Hw. }
  cbn. apply in_or_app. right. left. reflexivity.
Qed.

Lemma X15_full_cycle_witness :
  active (morph (state_of (step rnd0 1 (Frame 4600) demo_morphing))) = false.
Proof.
  destruct (@X15_full_cycle rnd0 1 demo_arts true 8 [TimerFire 1 2000] 2
              {| handle := 2; delay := 2000; action := CallCycle |} 4000 4600
              demo_boot_connected)
    as (art & _ & _ & _ & _ & _ & H & _); try reflexivity.
  - fold demo_boot. unfold demo_boot. rewrite demo_boot_attached. reflexivity.
  - fold demo_boot. unfold demo_boot. rewrite demo_boot_attached. reflexivity.
  - fold demo_boot. unfold demo_boot. rewrite demo_boot_attached. reflexivity.
  - lra.
  - exact H.
Defined.

(** ** Random numbers *)

Section Draws.

Variable random : nat -> R.
Variable devicePixelRatio : R.

Lemma draws_step (e : event) (s : Banner) :
  Inv s ->
  draws (host (state_of (step random devicePixelRatio e s)))
  = (draws (host s) + consumed e s)%nat.
Proof.
  intros I. pose proof I as [Hm Hf Hd Ha].
  destruct e; cbn [step state_of consumed]; rewrite ?Nat.add_0_r.
  - destruct (listening (host s)); reflexivity.
  - destruct (listening (host s)); reflexivity.
  - destruct (listening (host s)); [|reflexivity].
    unfold mouseleave.
    change (isMorphing (set_mouse (-9999) (-9999) (set_hovering false s)))
      with (isMorphing s).
    destruct (isMorphing s); reflexivity.
  - unfold fire. destruct (find_timer h s) as [t|]; [|reflexivity].
    destruct (action t); [reflexivity|].
    unfold cycle.
    destruct (isMorphing (drop_timer h s) || hovering (drop_timer h s))%bool;
      [reflexivity|].
    unfold startMorph. destruct (active _); [reflexivity|].
    destruct (nth_error _ _); reflexivity.
  - unfold frame. destruct (frames (host s)) as [|f rest] eqn:EF.
    { cbn. lia. }
    set (s0 := set_host (set_frames rest (host s)) s).
    assert (I0 : Inv s0) by (constructor; cbn; auto).
    change (active (morph s)) with (active (morph s0)).
    change (cells s) with (cells s0).
    change (morph s) with (morph s0).
    change (draws (host s)) with (draws (host s0)).
    destruct (active (morph s0)) eqn:EA.
    + rewrite <- (morph_loop_draws random timestamp I0 EA).
      destruct (inv_morph I0 EA) as (_ & _ & k & art & Hcb & Hart & _).
      destruct (Rleb 1 (progress_at timestamp (morph s0))) eqn:EP.
      * erewrite render_after by (apply morph_update_completing; eassumption).
        reflexivity.
      * erewrite render_after by (apply morph_update_running; eassumption).
        reflexivity.
    + erewrite render_after by (apply morph_update_inactive; eassumption).
      cbn. lia.
  - reflexivity.
Qed.

End Draws.

Lemma filter_none {A : Type} (f : A -> bool) (l : list A) :
  (forall x, In x l -> f x = false) -> filter f l = [].
Proof.
  induction l as [|x l IH]; intros H; [reflexivity|].
  cbn. rewrite (H x) by now left. apply IH. intros y Hy. apply H. now right.
Qed.

(** X16: the use of [Math.random].  Attachment draws one random number
    when there is a canvas and a style to pick, none otherwise.  Afterwards
    only the frames of an active morph draw any: exactly one per cell that
    is inside its glitch window at that frame (past 0.3 of its threshold and
    not yet at it), so never more than there are cells, and none in the
    first 27 ms of a morph nor from 510 ms on. *)
Theorem X16_random_numbers (random : nat -> R) (devicePixelRatio : R)
        (arts : list (list jsstring)) (canvas : bool) (measured : R)
        (es : list event) (e : event) :
  let s0 := state_of (boot random devicePixelRatio arts canvas measured) in
  let s := run random devicePixelRatio es s0 in
  let s' := state_of (step random devicePixelRatio e s) in
  draws (host s0) = (if (canvas && negb (Nat.eqb (length arts) 0))%bool
                     then 1 else 0)%nat
  /\ draws (host s') = (draws (host s) + consumed e s)%nat
  /\ (consumed e s <= length (cells s))%nat
  /\ (forall ts, e = Frame ts ->
        ts <= startTime (morph s) + 27 \/ startTime (morph s) + 510 <= ts ->
        consumed e s = 0%nat).
Proof.
  intros s0 s s'.
  assert (I : Inv s) by apply Inv_reachable.
  split; [|split; [|split]].
  - unfold s0, boot, connectedCallback.
    destruct canvas; cbn [negb orb andb]; [|reflexivity].
    destruct (Nat.eqb (length arts) 0); cbn [negb]; [reflexivity|].
    cbn. destruct (index_Z arts _) as [style|]; cbn; [|reflexivity].
    destruct style; reflexivity.
  - now apply draws_step.
  - unfold consumed. destruct e; try lia.
    destruct (frames (host s)); [lia|].
    destruct (active (morph s)); [apply filter_length_le | lia].
  - intros ts -> Hts. unfold consumed.
    destruct (frames (host s)); [reflexivity|].
    destruct (active (morph s)); [|reflexivity].
    rewrite filter_none; [reflexivity|].
    intros c _. unfold glitches.
    pose proof (threshold_of_bounds c) as Hb.
    rewrite (progress_at_600 ts (morph s) (inv_duration I)).
    destruct Hts as [Hts | Hts].
    + replace (Rltb _ _) with false; [apply andb_false_r|].
      symmetry. apply Rltb_false. unfold Rmin. destruct (Rle_dec _ _); lra.
    + replace (Rleb _ _) with true; [reflexivity|].
      symmetry. apply Rleb_true. unfold Rmin. destruct (Rle_dec _ _); lra.
Qed.

(** ** Properties that every cell keeps *)

Section CellsInvariant.

Variable random : nat -> R.
Variable devicePixelRatio : R.

(** A property of cells that does not depend on the glyph, that a physics
    step keeps wherever the pointer is, and that fresh grid cells have. *)
Variable P : Cell -> Prop.
Hypothesis P_with_char : forall g c, P c -> P (with_char g c).
Hypothesis P_physics : forall mx my c, P c -> P (physics mx my c).
Hypothesis P_buildGrid : forall charWidth art c, In c (buildGrid charWidth art) -> P c.

Lemma cells_after_morph (s : Banner) :
  Forall P (cells s) -> Forall P (cells (after_morph devicePixelRatio s)).
Proof.
  intros H. cbn. apply Forall_map. eapply Forall_impl; [|exact H].
  intros c. apply P_physics.
Qed.

Lemma cells_looped (ts : R) (s : Banner) :
  Forall P (cells s) -> Forall P (fst (morph_loop random ts s)).
Proof.
  intros H.
  destruct (morph_loop_spec random ts s) as (l' & d' & E & Hlen & _ & Hnth).
  rewrite E. cbn [fst]. apply Forall_nth_error. intros i c' Hc'.
  destruct (@nth_error_defined _ (cells s) i) as (c & Hc).
  { rewrite <- Hlen. apply nth_error_Some. congruence. }
  destruct (Hnth i c Hc) as (g & Hg & _).
  assert (c' = with_char g c) by congruence. subst c'.
  apply P_with_char. rewrite Forall_forall in H. apply H.
  eapply nth_error_In; exact Hc.
Qed.

Lemma cells_step (e : event) (s : Banner) :
  Inv s -> Forall P (cells s) ->
  Forall P (cells (state_of (step random devicePixelRatio e s))).
Proof.
  intros I H. pose proof I as [Hm Hf Hd Ha]. destruct e; cbn [step state_of].
  - destruct (listening (host s)); exact H.
  - destruct (listening (host s)); exact H.
  - destruct (listening (host s)); [|exact H].
    unfold mouseleave.
    change (isMorphing (set_mouse (-9999) (-9999) (set_hovering false s)))
      with (isMorphing s).
    destruct (isMorphing s); exact H.
  - unfold fire. destruct (find_timer h s) as [t|]; [|exact H].
    destruct (action t); [exact H|].
    unfold cycle.
    destruct (isMorphing (drop_timer h s) || hovering (drop_timer h s))%bool;
      [exact H|].
    unfold startMorph. destruct (active _); [exact H|].
    destruct (nth_error _ _); exact H.
  - unfold frame. destruct (frames (host s)) as [|f rest]; [exact H|].
    set (s0 := set_host (set_frames rest (host s)) s).
    assert (I0 : Inv s0) by (constructor; cbn; auto).
    destruct (active (morph s0)) eqn:EA.
    + destruct (inv_morph I0 EA) as (_ & _ & k & art & Hcb & Hart & _).
      destruct (Rleb 1 (progress_at timestamp (morph s0))) eqn:EP.
      * erewrite render_after by (apply morph_update_completing; eassumption).
        apply cells_after_morph. cbn. apply Forall_forall.
        intros c. apply P_buildGrid.
      * erewrite render_after by (apply morph_update_running; eassumption).
        apply cells_after_morph. now apply cells_looped.
    + erewrite render_after by (apply morph_update_inactive; eassumption).
      now apply cells_after_morph.
  - exact H.
Qed.

Lemma cells_run (es : list event) :
  forall s, Inv s -> Forall P (cells s) ->
            Forall P (cells (run random devicePixelRatio es s)).
Proof.
  induction es as [|e es IH]; intros s I H; [exact H|].
  rewrite run_cons. apply IH; [now apply Inv_step | now apply cells_step].
Qed.

Lemma cells_boot (arts : list (list jsstring)) (canvas : bool) (measured : R) :
  Forall P (cells (state_of (boot random devicePixelRatio arts canvas measured))).
Proof.
  unfold boot, connectedCallback.
  destruct (negb canvas || Nat.eqb (length arts) 0)%bool; [constructor|].
  cbn. destruct (index_Z arts _) as [style|]; cbn; [|constructor].
  destruct style as [|art style]; cbn; [constructor|].
  apply Forall_forall. intros c. apply P_buildGrid.
Qed.

Lemma cells_reachable (arts : list (list jsstring)) (canvas : bool) (measured : R)
      (es : list event) :
  Forall P (cells (run random devicePixelRatio es
                       (state_of (boot random devicePixelRatio arts canvas measured)))).
Proof. apply cells_run; [apply Inv_boot | apply cells_boot]. Qed.

End CellsInvariant.

(** ** Cells stay near their rest position *)

Lemma repel_bound (mx my x y : R) :
  fst (repel mx my x y) * fst (repel mx my x y) <= 9
  /\ snd (repel mx my x y) * snd (repel mx my x y) <= 9.
Proof.
  set (d := sqrt ((x - mx) * (x - mx) + (y - my) * (y - my))).
  destruct (Rlt_dec 0 d) as [H0|H0]; [destruct (Rlt_dec d REPEL_RADIUS) as [H1|H1]|].
  - destruct (@repel_inside mx my x y (conj H0 H1)) as (Hm & Hs & _).
    pose proof (Rle_0_sqr (fst (repel mx my x y))) as Px.
    pose proof (Rle_0_sqr (snd (repel mx my x y))) as Py.
    unfold Rsqr in Px, Py.
    match type of Hs with
    | sqrt ?a = ?m =>
        assert (Ha : 0 <= a) by lra;
        pose proof (sqrt_sqrt a Ha) as Hsq; rewrite Hs in Hsq;
        generalize dependent m
    end.
    intros m Hm Hs Hsq. unfold REPEL_FORCE in Hm.
    assert (m * m <= 9) by nra. lra.
  - rewrite repel_outside by (fold d; lra). cbn. lra.
  - rewrite repel_outside by (fold d; lra). cbn. lra.
Qed.

Lemma energy_nonneg (e v : R) : 0 <= energy e v.
Proof.
  destruct (energy_bounds e v) as (H & _).
  pose proof (Rle_0_sqr e) as P. unfold Rsqr in P. lra.
Qed.

(** One step with an impulse [i]: the energy about the rest position
    shrinks by 0.84 up to a term in the impulse. *)
Lemma energy_forced (e v i : R) :
  let v' := (v + i + SPRING_K * (- e)) * DAMPING in
  energy (e + v') v' <= 0.84 * energy e v + 2.94 * (i * i).
Proof.
  intros v'.
  pose proof (energy_nonneg
                (0.2 * (e + (v - SPRING_K * e) * DAMPING) - DAMPING * i)
                (0.2 * ((v - SPRING_K * e) * DAMPING) - DAMPING * i)) as H.
  assert (E : energy (e + v') v'
              = 0.84 * energy e v + 2.94 * (i * i)
                - 5 * energy
                        (0.2 * (e + (v - SPRING_K * e) * DAMPING) - DAMPING * i)
                        (0.2 * ((v - SPRING_K * e) * DAMPING) - DAMPING * i)).
  { unfold v', energy, SPRING_K, DAMPING. lra. }
  lra.
Qed.

Lemma near_rest_physics (mx my : R) (c : Cell) :
  near_rest c -> near_rest (physics mx my c).
Proof.
  intros (Hx & Hy).
  destruct (physics_repel mx my c) as (Evx & Evy & Epx & Epy & Eg & _).
  destruct (repel_bound mx my (rx c) (ry c)) as (Bx & By).
  unfold geometry in Eg. injection Eg as _ _ Erx Ery.
  pose proof (energy_forced (px c - rx c) (vx c) (fst (repel mx my (rx c) (ry c)))) as Fx.
  pose proof (energy_forced (py c - ry c) (vy c) (snd (repel mx my (rx c) (ry c)))) as Fy.
  cbv zeta in Fx, Fy.
  unfold near_rest. rewrite Epx, Epy, Erx, Ery.
  replace (px c + vx (physics mx my c) - rx c)
    with (px c - rx c + vx (physics mx my c)) by ring.
  replace (py c + vy (physics mx my c) - ry c)
    with (py c - ry c + vy (physics mx my c)) by ring.
  rewrite Evx, Evy.
  replace (SPRING_K * (rx c - px c)) with (SPRING_K * (- (px c - rx c))) by ring.
  replace (SPRING_K * (ry c - py c)) with (SPRING_K * (- (py c - ry c))) by ring.
  split; lra.
Qed.

Lemma near_rest_buildGrid (charWidth : R) (art : jsstring) (c : Cell) :
  In c (buildGrid charWidth art) -> near_rest c.
Proof.
  intros Hin. apply buildGrid_at_rest in Hin. destruct Hin as (H1 & H2 & H3 & H4).
  unfold near_rest, energy. rewrite H1, H2, H3, H4.
  replace (rx c - rx c) with 0 by ring. replace (ry c - ry c) with 0 by ring.
  split; lra.
Qed.

(** X17: cells stay near their rest position.  However the pointer moves
    and whatever else happens, in every state every cell is less than
    45 px away from its rest position on each axis, and its velocity is
    below 19 px per frame on each axis. *)
Theorem X17_cells_stay_near (random : nat -> R) (devicePixelRatio : R)
        (arts : list (list jsstring)) (canvas : bool) (measured : R)
        (es : list event) :
  let s := run random devicePixelRatio es
               (state_of (boot random devicePixelRatio arts canvas measured)) in
  forall c, In c (cells s) ->
    -45 < px c - rx c < 45 /\ -45 < py c - ry c < 45
    /\ -19 < vx c < 19 /\ -19 < vy c < 19.
Proof.
  intros s c Hin.
  assert (H : Forall near_rest (cells s)).
  { apply cells_reachable.
    - intros g c0 H0. exact H0.
    - intros mx my c0. apply near_rest_physics.
    - apply near_rest_buildGrid. }
  rewrite Forall_forall in H. destruct (H c Hin) as (Hx & Hy).
  destruct (energy_bounds (px c - rx c) (vx c)) as (B1 & B2).
  destruct (energy_bounds (py c - ry c) (vy c)) as (B3 & B4).
  repeat split; nra.
Qed.

Lemma X17_cells_stay_near_witness :
  -45 < px demo_cell - rx demo_cell < 45 /\ -19 < vx demo_cell < 19.
Proof.
  destruct (@X17_cells_stay_near rnd0 1 demo_arts true 8
              [TimerFire 1 2000; TimerFire 2 4000] demo_cell demo_cell_morphing)
    as (H1 & _ & H3 & _).
  split; [exact H1 | exact H3].
Defined.

(** X18: the flags agree.  Between handlers [isMorphing] and
    [morph.active] always have the same value, the morph duration is 600,
    and an instance with a pending timer or with its listeners registered
    has a style with at least one block, so that [cycle] always finds the
    block it morphs to. *)
Theorem X18_flags_agree (random : nat -> R) (devicePixelRatio : R)
        (arts : list (list jsstring)) (canvas : bool) (measured : R)
        (es : list event) :
  let s := run random devicePixelRatio es
               (state_of (boot random devicePixelRatio arts canvas measured)) in
  isMorphing s = active (morph s)
  /\ duration (morph s) = 600
  /\ (timers (host s) <> [] \/ listening (host s) = true ->
      fontArts s <> []
      /\ exists art,
           nth_error (fontArts s)
                     ((currentTextIndex s + 1) mod length (fontArts s)) = Some art).
Proof.
  intros s. assert (I : Inv s) by apply Inv_reachable.
  split; [apply (inv_flag I)|]. split; [apply (inv_duration I)|].
  intros H. pose proof (inv_arts I H) as Hne. split; [exact Hne|].
  now apply mod_index_in_range.
Qed.
